(** * OpenCodeCLI: the agentic tool-calling loop

    A shallow embedding of the core of OpenCodeCLI
    - [tools.ts]      (ToolExecutor: execute, editFile, runCommand,
                       grepSearch, ...),
    - [audit.ts]      (auditLog),
    - [llm-client.ts] (LLMClient: chat with retry, parseStreamResponse),
    - [agent.ts]      (Agent: chat, the bounded step loop),
    - [agents.ts]     (getAgentTools, runSubAgent),
    followed by the properties that the design document states about them.

    Conventions of the embedding.
    - A JavaScript string is a [string]: a sequence of code units below 256.
    - Effects (file system, shell, prompt, clock, random source, network,
      chunk sink, audit file) are calls to an environment [Env].  Every call
      is appended to a trace, and the environment answers as a function of the
      trace so far, so any deterministic environment is covered.
    - [async]/[await] is sequential composition in a state and exception
      monad [M]; a rejected promise is a [Throw].  Console output ([this.log],
      the spinner, [logVerbose], [logDebug]) has no influence on control flow
      and is left out. *)

From Stdlib Require Import String Ascii List ZArith Lia Bool Arith.
From Stdlib Require Import DecimalString Sorted.
Import ListNotations.

Local Open Scope list_scope.
Local Open Scope string_scope.

(* ================================================================= *)
(** ** JavaScript string primitives used by the sources *)

Module JS.

(** [WhiteSpace] and [LineTerminator] code units below 256: TAB, LF, VT,
    FF, CR, SP and NBSP.  This is the class matched by [\s] and removed by
    [String.prototype.trim]. *)
Definition is_ws (c : ascii) : bool :=
  let n := nat_of_ascii c in
  (((9 <=? n) && (n <=? 13)) || (n =? 32) || (n =? 160))%nat.

(** [String.prototype.toLowerCase] on code units below 256: A-Z and the
    Latin-1 capitals (all of 192..222 but the multiplication sign 215). *)
Definition lower_char (c : ascii) : ascii :=
  let n := nat_of_ascii c in
  if (((65 <=? n) && (n <=? 90))
      || ((192 <=? n) && (n <=? 222) && negb (n =? 215)))%nat
  then ascii_of_nat (n + 32) else c.

Fixpoint toLowerCase (s : string) : string :=
  match s with
  | EmptyString => EmptyString
  | String c s' => String (lower_char c) (toLowerCase s')
  end.

Fixpoint trimStart (s : string) : string :=
  match s with
  | EmptyString => EmptyString
  | String c s' => if is_ws c then trimStart s' else s
  end.

Fixpoint rev_string (acc s : string) : string :=
  match s with
  | EmptyString => acc
  | String c s' => rev_string (String c acc) s'
  end.

Definition trimEnd (s : string) : string :=
  rev_string EmptyString (trimStart (rev_string EmptyString s)).

Definition trim (s : string) : string := trimEnd (trimStart s).

(** [s.split(/\s+/)]: the pieces between maximal runs of white space; a
    run at either end yields an empty first or last piece. *)
Fixpoint split_ws_piece (cur s : string) : list string :=
  match s with
  | EmptyString => [cur]
  | String c s' =>
      if is_ws c then cur :: split_ws_run s'
      else split_ws_piece (cur ++ String c EmptyString) s'
  end
with split_ws_run (s : string) : list string :=
  match s with
  | EmptyString => [EmptyString]
  | String c s' =>
      if is_ws c then split_ws_run s'
      else split_ws_piece (String c EmptyString) s'
  end.

Definition split_ws (s : string) : list string := split_ws_piece EmptyString s.

Definition startsWith (s pat : string) : bool := String.prefix pat s.

(** [s.indexOf(pat)], [None] standing for -1. *)
Fixpoint indexOf (s pat : string) : option nat :=
  if String.prefix pat s then Some 0
  else match s with
       | EmptyString => None
       | String _ s' => option_map S (indexOf s' pat)
       end.

Definition includes (s pat : string) : bool :=
  match indexOf s pat with Some _ => true | None => false end.

(** [s.slice(n)] for [0 <= n]. *)
Fixpoint slice_from (n : nat) (s : string) : string :=
  match n, s with
  | 0, _ => s
  | S k, String _ s' => slice_from k s'
  | S _, EmptyString => EmptyString
  end.

Fixpoint take (n : nat) (s : string) : string :=
  match n, s with
  | S k, String c s' => String c (take k s')
  | _, _ => EmptyString
  end.

(** [s.split(sep)] for a string separator.  With the empty separator the
    result is the list of code units (and [[]] for the empty string);
    otherwise the string is cut at each occurrence of [sep], found from left
    to right without overlap.  [skip] counts the code units of a separator
    just matched that are still to be passed over. *)
Fixpoint split_chars (s : string) : list string :=
  match s with
  | EmptyString => []
  | String c s' => String c EmptyString :: split_chars s'
  end.

Fixpoint split_sep (sep cur : string) (skip : nat) (s : string) : list string :=
  match s with
  | EmptyString => [cur]
  | String c s' =>
      match skip with
      | S k => split_sep sep cur k s'
      | 0 => if String.prefix sep s
             then cur :: split_sep sep EmptyString (String.length sep - 1) s'
             else split_sep sep (cur ++ String c EmptyString) 0 s'
      end
  end.

Definition split (s sep : string) : list string :=
  match sep with
  | EmptyString => split_chars s
  | _ => split_sep sep EmptyString 0 s
  end.

(** [GetSubstitution] for a string pattern: there are no captures, so only
    [$$], [$&], [$`] and [$'] are special in the replacement text. *)
Fixpoint getSubstitution (matched before after repl : string) : string :=
  match repl with
  | EmptyString => EmptyString
  | String "$" (String "$" r) =>
      String "$" (getSubstitution matched before after r)
  | String "$" (String "&" r) =>
      matched ++ getSubstitution matched before after r
  | String "$" (String "`" r) =>
      before ++ getSubstitution matched before after r
  | String "$" (String "'" r) =>
      after ++ getSubstitution matched before after r
  | String c r => String c (getSubstitution matched before after r)
  end.

(** [s.replace(pat, repl)] with a string pattern: the FIRST occurrence of
    [pat], if any, is replaced by the substitution. *)
Definition replace (s pat repl : string) : string :=
  match indexOf s pat with
  | None => s
  | Some i =>
      let before := take i s in
      let after := slice_from (i + String.length pat) s in
      before ++ getSubstitution pat before after repl ++ after
  end.

(** Number to string, for integers. *)
Definition string_of_Z (z : Z) : string :=
  NilZero.string_of_int (Z.to_int z).

(** Truthiness of an optional string ([undefined], [null] and [EmptyString] are
    falsy). *)
Definition truthy (o : option string) : bool :=
  match o with
  | Some s => negb (s =? EmptyString)
  | None => false
  end.

End JS.

(* ================================================================= *)
(** ** Data model (llm-client.ts, tools.ts) *)

(** Values produced by [JSON.parse]; numbers are taken at integers. *)
#[local] Set Warnings "-register-all".
Inductive json : Type :=
| JNull
| JBool (b : bool)
| JNum (z : Z)
| JStr (s : string)
| JArr (items : list json)
| JObj (fields : list (string * json)).

(** [ToolCall]: [{ function: { name, arguments }, id? }]. *)
Record ToolCall : Type := mkToolCall {
  tc_id : option string;
  tc_name : string;
  tc_arguments : string
}.

(** [ToolResult]: [{ tool_call_id, role: 'tool', name, content }]. *)
Record ToolResult : Type := mkToolResult {
  tr_tool_call_id : string;
  tr_name : string;
  tr_content : string
}.

Inductive Role : Type := system | user | assistant | tool.

(** [Message]; an absent optional field is [None], and so is a [null]
    content. *)
Record Message : Type := mkMessage {
  role : Role;
  content : option string;
  tool_calls : option (list ToolCall);
  tool_call_id : option string;
  name : option string
}.

(** A thrown value other than [null] and [undefined], seen through the two
    properties the sources read: [name] and [message] ([None] when the
    property is absent).  This covers [Error] objects and any other value. *)
Record ErrorObject : Type := mkErrorObject {
  e_name : option string;
  e_message : option string
}.

(** A thrown JavaScript value.  The built-in modules ([fs], [path],
    [child_process], [node-fetch], [JSON]) throw [Error] objects; a plugin
    handler may reject with anything, [undefined] included (a promise
    rejected without a reason). *)
Inductive thrown : Type :=
| Nullish
| Obj (o : ErrorObject).

Definition Error (message : string) : ErrorObject :=
  {| e_name := Some "Error"; e_message := Some message |}.

Definition TypeError (message : string) : ErrorObject :=
  {| e_name := Some "TypeError"; e_message := Some message |}.

(** Result of an awaited call: a value, or a rejection. *)
Inductive outcome (A : Type) : Type :=
| Ret (a : A)
| Throw (e : thrown).
Arguments Ret {A} a.
Arguments Throw {A} e.

(** An entry handed to [auditLog], and the record written for it. *)
Record AuditEntry : Type := mkAuditEntry {
  a_tool : string;
  a_args : json;
  a_result : option string;
  a_error : option string
}.

Record AuditRecord : Type := mkAuditRecord {
  r_ts : string;
  r_cwd : string;
  r_entry : AuditEntry
}.

(** One streamed event, decoded: [JSON.parse(line.slice(6)).choices?.[0]?.delta]
    at the types of the chat-completions protocol.  An absent property is
    [None]. *)
Record ToolCallDelta : Type := mkToolCallDelta {
  d_index : option Z;
  d_id : option string;
  d_name : option string;
  d_arguments : option string
}.

Record Delta : Type := mkDelta {
  d_content : option string;
  d_tool_calls : option (list ToolCallDelta)
}.

(** What [fetch] resolves to: status, the body as text, the body decoded by
    [response.json()] down to [choices[0].message], and the body as the
    chunks of a readable stream with the way the stream finishes.  A chunk
    is kept as the text that [chunk.toString()] gives for it. *)
Record Response : Type := mkResponse {
  status : Z;
  body_text : string + ErrorObject;
  body_message : (option string * option (list ToolCall)) + ErrorObject;
  has_body : bool;
  body_chunks : list string;
  body_error : option ErrorObject
}.

Definition ok (r : Response) : bool :=
  ((200 <=? status r) && (status r <=? 299))%Z.

(** The request body of [LLMClient.chat]. *)
Record Request : Type := mkRequest {
  req_messages : list Message;
  req_tools : option (list json);
  req_stream : bool
}.

(** Result of [child_process.exec]. *)
Inductive ExecResult : Type :=
| ExecOk (stdout stderr : string)
| ExecFailed (message stdout stderr : string).

(* ================================================================= *)
(** ** Effects *)

Inductive event : Type :=
| EvReadFile (path : string)
| EvWriteFile (path content : string)
| EvMkdir (path : string)
| EvQuestion (prompt : string)
| EvExec (command : string)
| EvRandom
| EvTool (tool_name : string) (args : json)
| EvPlugin (tool_name : string) (args : json)
| EvAudit (path : string) (record : AuditRecord)
| EvFetch (req : Request)
| EvSleep (ms : Z)
| EvChunk (chunk : string).

(** The environment.  Every oracle sees the trace of the calls made so far.
    - [env_resolve], [env_dirname]: [path.resolve(workspaceRoot, p)] and
      [path.dirname];
    - [env_JSON_parse]: [JSON.parse], giving the value or the text of the
      [SyntaxError]; [env_JSON_stringify]: [JSON.stringify];
    - [env_decode]: the payload of a streamed line decoded to its delta,
      [None] when [JSON.parse] (or the walk to the delta) throws;
    - [env_random]: [Math.random().toString(36).substr(2, 9)];
    - [env_tool]: the built-in tools that no property below looks into
      (list_files, git_*, grep_search) and every built-in tool called with
      arguments that are not of its parameter types; they return text or
      throw an object;
    - [env_plugin]: the registered plugin handlers ([None]: no handler of
      that name), which may reject with any value. *)
Record Env : Type := mkEnv {
  env_resolve : string -> string;
  env_dirname : string -> string;
  env_JSON_parse : string -> json + string;
  env_JSON_stringify : json -> string;
  env_decode : string -> option Delta;
  env_readFile : list event -> string -> string + ErrorObject;
  env_writeFile : list event -> string -> string -> option ErrorObject;
  env_mkdir : list event -> string -> option ErrorObject;
  env_question : list event -> string -> string;
  env_exec : list event -> string -> ExecResult;
  env_random : list event -> string;
  env_tool : list event -> string -> json -> string + ErrorObject;
  env_plugin : string -> option (list event -> json -> outcome string);
  env_now : list event -> string;
  env_cwd : list event -> string;
  env_appendFile : list event -> string -> AuditRecord -> option ErrorObject;
  env_fetch : list event -> Request -> Response + ErrorObject
}.

(** The state threaded through a session: the trace of effects and the
    conversation history owned by the agent. *)
Record State : Type := mkState {
  trace : list event;
  history : list Message
}.

Definition M (A : Type) : Type := State -> outcome A * State.

Definition ret {A} (a : A) : M A := fun st => (Ret a, st).
Definition throw {A} (e : thrown) : M A := fun st => (Throw e, st).

Definition bind {A B} (m : M A) (k : A -> M B) : M B :=
  fun st =>
    match m st with
    | (Ret a, st') => k a st'
    | (Throw e, st') => (Throw e, st')
    end.

(** [try { m } catch (e) { h e }]. *)
Definition try_catch {A} (m : M A) (h : thrown -> M A) : M A :=
  fun st =>
    match m st with
    | (Ret a, st') => (Ret a, st')
    | (Throw e, st') => h e st'
    end.

Declare Scope monad_scope.
Delimit Scope monad_scope with monad.
Notation "x <- m ;; k" := (bind m (fun x => k))
  (at level 61, m at next level, right associativity) : monad_scope.
Notation "m ;;; k" := (bind m (fun _ => k))
  (at level 61, right associativity) : monad_scope.
Local Open Scope monad_scope.

(** One call to the environment: the answer is computed from the trace so
    far and the call is recorded. *)
Definition perform {A} (ev : event) (answer : list event -> outcome A) : M A :=
  fun st =>
    (answer (trace st),
     {| trace := (trace st ++ [ev])%list; history := history st |}).

(** Answers of the built-in modules: a value or a thrown [Error] object. *)
Definition of_result {A} (r : A + ErrorObject) : outcome A :=
  match r with
  | inl a => Ret a
  | inr e => Throw (Obj e)
  end.

Definition of_failure (o : option ErrorObject) : outcome unit :=
  match o with
  | None => Ret tt
  | Some e => Throw (Obj e)
  end.

Definition push_history (m : Message) : M unit :=
  fun st => (Ret tt, {| trace := trace st; history := (history st ++ [m])%list |}).

Definition get_history : M (list Message) :=
  fun st => (Ret (history st), st).

(* ================================================================= *)
(** ** audit.ts *)

Section Audit.
Variable env : Env.

(** [auditPath], the module-level variable set by [setAuditLog]. *)
Variable auditPath : option string.

(** [auditLog(entry)]: nothing without a path; otherwise one line is
    appended, and whatever the append throws is ignored. *)
Definition auditLog (entry : AuditEntry) : M unit :=
  if negb (JS.truthy auditPath) then ret tt
  else
    match auditPath with
    | None => ret tt
    | Some p =>
        fun st =>
          let record := {| r_ts := env_now env (trace st);
                           r_cwd := env_cwd env (trace st);
                           r_entry := entry |} in
          try_catch
            (perform (EvAudit p record)
               (fun tr => of_failure (env_appendFile env tr p record)))
            (fun _ => ret tt) st
    end.
End Audit.

(* ================================================================= *)
(** ** tools.ts: ToolExecutor *)

(** The private fields set by the constructor, and [auditPath].
    [allowlistCommands] is built by [mk_allowlist]. *)
Record ToolExecutor : Type := mkToolExecutor {
  autoApproveCommands : bool;
  dryRun : bool;
  allowlistCommands : list string;
  auditPath : option string
}.

(** [new Set((options?.allowlistCommands ?? []).map(c => c.toLowerCase().trim()))];
    a set is kept as the list of its distinct elements. *)
Definition mk_allowlist (cmds : list string) : list string :=
  nodup string_dec (map (fun c => JS.trim (JS.toLowerCase c)) cmds).

Definition set_size (s : list string) : nat := List.length s.

Definition set_has (s : list string) (x : string) : bool :=
  existsb (String.eqb x) s.

(** [args.key] for a decoded argument object when the property is a string.
    A later duplicate of a key overrides an earlier one. *)
Fixpoint lookup_field (fields : list (string * json)) (key : string) : option json :=
  match fields with
  | [] => None
  | (k, v) :: rest =>
      match lookup_field rest key with
      | Some v' => Some v'
      | None => if k =? key then Some v else None
      end
  end.

Definition get_string (args : json) (key : string) : option string :=
  match args with
  | JObj fields =>
      match lookup_field fields key with
      | Some (JStr s) => Some s
      | _ => None
      end
  | _ => None
  end.

Definition newline : string := String (ascii_of_nat 10) EmptyString.
Definition dquote : string := String (ascii_of_nat 34) EmptyString.

(** [`${v}`] for a property that may be absent. *)
Definition show (o : option string) : string :=
  match o with
  | Some s => s
  | None => "undefined"
  end.

Section Tools.
Variable env : Env.
Variable self : ToolExecutor.

Definition resolvePath (filePath : string) : string := env_resolve env filePath.

Definition fs_readFile (fullPath : string) : M string :=
  perform (EvReadFile fullPath) (fun tr => of_result (env_readFile env tr fullPath)).

Definition fs_writeFile (fullPath data : string) : M unit :=
  perform (EvWriteFile fullPath data)
    (fun tr => of_failure (env_writeFile env tr fullPath data)).

Definition fs_mkdir (fullPath : string) : M unit :=
  perform (EvMkdir fullPath) (fun tr => of_failure (env_mkdir env tr fullPath)).

(** [e.message] inside a [catch (e: any)] block: a [TypeError] when [e] is
    [null] or [undefined]. *)
Definition message_of (e : thrown) : M (option string) :=
  match e with
  | Nullish =>
      throw (Obj (TypeError "Cannot read properties of undefined (reading 'message')"))
  | Obj o => ret (e_message o)
  end.

Definition writeFile (filePath content : string) : M string :=
  let fullPath := resolvePath filePath in
  fs_mkdir (env_dirname env fullPath) ;;;
  fs_writeFile fullPath content ;;;
  ret ("Successfully wrote to " ++ filePath).

Definition readFile (filePath : string) : M string :=
  let fullPath := resolvePath filePath in
  content <- fs_readFile fullPath ;;
  ret content.

Definition createDirectory (dirPath : string) : M string :=
  let fullPath := resolvePath dirPath in
  try_catch
    (fs_mkdir fullPath ;;;
     ret ("Successfully created directory " ++ dirPath))
    (fun e => m <- message_of e ;;
              ret ("Error creating directory: " ++ show m)).

(** [editFile(filePath, oldText, newText)]. *)
Definition editFile (filePath oldText newText : string) : M string :=
  let fullPath := resolvePath filePath in
  try_catch
    (content <- fs_readFile fullPath ;;
     if negb (JS.includes content oldText) then
       ret ("Error: Could not find the specified text in " ++ filePath
            ++ ". Make sure to use exact matching text.")
     else
       let occurrences := (Z.of_nat (List.length (JS.split content oldText)) - 1)%Z in
       let newContent := JS.replace content oldText newText in
       fs_writeFile fullPath newContent ;;;
       ret ("Successfully edited " ++ filePath ++ ". Replaced "
            ++ JS.string_of_Z occurrences ++ " occurrence(s)."))
    (fun e => m <- message_of e ;;
              ret ("Error editing file: " ++ show m)).

Definition question (prompt : string) : M string :=
  perform (EvQuestion prompt) (fun tr => Ret (env_question env tr prompt)).

Definition execAsync (command : string) : M ExecResult :=
  perform (EvExec command) (fun tr => Ret (env_exec env tr command)).

(** [stdout + (stderr ? `\nStderr: ${stderr}` : '')]. *)
Definition run_shell (command : string) : M string :=
  r <- execAsync command ;;
  match r with
  | ExecOk stdout stderr =>
      ret (stdout ++ (if stderr =? EmptyString then EmptyString else newline ++ "Stderr: " ++ stderr))
  | ExecFailed message stdout stderr =>
      ret ("Command failed: " ++ message ++ newline ++ "Stdout: " ++ stdout
           ++ newline ++ "Stderr: " ++ stderr)
  end.

(** [(command.trim().split(/\s+/)[0] || '').toLowerCase()]. *)
Definition cmdBase (command : string) : string :=
  JS.toLowerCase (hd EmptyString (JS.split_ws (JS.trim command))).

(** [runCommand(command)]. *)
Definition runCommand (command : string) : M string :=
  let cmdBase := cmdBase command in
  let isAllowlisted :=
    (0 <? set_size (allowlistCommands self))%nat
    && set_has (allowlistCommands self) cmdBase in
  let shouldAutoApprove :=
    autoApproveCommands self
    && ((set_size (allowlistCommands self) =? 0)%nat || isAllowlisted) in
  if negb shouldAutoApprove then
    if autoApproveCommands self
       && (0 <? set_size (allowlistCommands self))%nat
       && negb isAllowlisted
    then
      ret ("Command " ++ dquote ++ cmdBase ++ dquote
           ++ " not in allowlist. Use --allow " ++ dquote ++ "cmd1,cmd2"
           ++ dquote ++ " to add.")
    else
      answer <- question "   Allow? (y/n): " ;;
      if negb (JS.toLowerCase answer =? "y") then
        ret "User denied command execution."
      else run_shell command
  else run_shell command.
End Tools.

Section Execute.
Variable env : Env.
Variable self : ToolExecutor.

(** [call.id || 'call_' + Math.random().toString(36).substr(2, 9)]: the
    random source is only consulted when the id is absent or empty. *)
Definition fresh_call_id : M string :=
  suffix <- perform EvRandom (fun tr => Ret (env_random env tr)) ;;
  ret ("call_" ++ suffix).

Definition callId_of (call : ToolCall) : M string :=
  match tc_id call with
  | Some i => if i =? EmptyString then fresh_call_id else ret i
  | None => fresh_call_id
  end.

(** A built-in tool left to the environment. *)
Definition builtin (name : string) (args : json) : M string :=
  perform (EvTool name args) (fun tr => of_result (env_tool env tr name args)).

Definition one_of (name : string) (names : list string) : bool :=
  existsb (String.eqb name) names.

(** The [switch (name)] of [execute], aliases included.  A built-in tool
    whose arguments are strings as declared runs its method; the [default]
    branch looks for a plugin handler. *)
Definition dispatch (name : string) (args : json) : M string :=
  if one_of name ["write_file"; "create_file"; "file_write"] then
    match get_string args "path", get_string args "content" with
    | Some p, Some c => writeFile env p c
    | _, _ => builtin name args
    end
  else if one_of name ["read_file"; "file_read"] then
    match get_string args "path" with
    | Some p => readFile env p
    | None => builtin name args
    end
  else if one_of name ["list_files"; "ls"] then builtin name args
  else if one_of name ["run_command"; "shell"; "bash"] then
    match get_string args "command" with
    | Some c => runCommand env self c
    | None => builtin name args
    end
  else if one_of name ["git_status"; "git_diff"; "git_add"; "git_commit";
                       "git_stash"] then builtin name args
  else if one_of name ["grep_search"; "search"; "grep"] then builtin name args
  else if one_of name ["edit_file"; "patch_file"] then
    match get_string args "path", get_string args "old_text",
          get_string args "new_text" with
    | Some p, Some o, Some n => editFile env p o n
    | _, _, _ => builtin name args
    end
  else if one_of name ["create_directory"; "mkdir"] then
    match get_string args "path" with
    | Some p => createDirectory env p
    | None => builtin name args
    end
  else
    match env_plugin env name with
    | Some handler => perform (EvPlugin name args) (fun tr => handler tr args)
    | None => ret ("Unknown tool: " ++ name)
    end.

Definition audit (entry : AuditEntry) : M unit :=
  auditLog env (auditPath self) entry.

(** [execute(call)]. *)
Definition execute (call : ToolCall) : M ToolResult :=
  let name := tc_name call in
  callId <- callId_of call ;;
  match env_JSON_parse env (tc_arguments call) with
  | inr e =>
      ret {| tr_tool_call_id := callId; tr_name := name;
             tr_content := "Error parsing arguments: " ++ e |}
  | inl args =>
      if dryRun self then
        let dryMsg := "[DRY-RUN] Would execute: " ++ name ++ "("
                      ++ env_JSON_stringify env args ++ ")" in
        audit {| a_tool := name; a_args := args;
                 a_result := Some dryMsg; a_error := None |} ;;;
        ret {| tr_tool_call_id := callId; tr_name := name;
               tr_content := dryMsg |}
      else
        output <- try_catch (dispatch name args)
                    (fun err =>
                       m <- message_of err ;;
                       audit {| a_tool := name; a_args := args;
                                a_result := None; a_error := m |} ;;;
                       ret ("Error: " ++ show m)) ;;
        audit {| a_tool := name; a_args := args;
                 a_result := Some output; a_error := None |} ;;;
        ret {| tr_tool_call_id := callId; tr_name := name;
               tr_content := output |}
  end.
End Execute.

(* ================================================================= *)
(** ** llm-client.ts: LLMClient *)

(** The part of [OpenCodeConfig] that [chat] reads for its control flow;
    the number of retries is taken at integers. *)
Record OpenCodeConfig : Type := mkConfig {
  retries : option Z
}.

(** The [options] argument of [chat]; [opt_onChunk] tells whether a chunk
    sink was supplied.  A call of the sink is the effect [EvChunk]. *)
Record ChatOptions : Type := mkChatOptions {
  opt_stream : bool;
  opt_onChunk : bool;
  opt_tools : option (list json)
}.

(** An entry of [toolCallsAccum]. *)
Record Accum : Type := mkAccum {
  acc_id : option string;
  acc_name : option string;
  acc_args : string
}.

(** The local variables of [parseStreamResponse].  [toolCallsAccum] is an
    object keyed by number: its properties are kept in creation order. *)
Record StreamState : Type := mkStreamState {
  s_content : string;
  s_toolCallsAccum : list (Z * Accum);
  s_buffer : string
}.

(** Property read and write on an object keyed by number. *)
Fixpoint obj_get {V} (o : list (Z * V)) (k : Z) : option V :=
  match o with
  | [] => None
  | (k', v) :: rest => if (k' =? k)%Z then Some v else obj_get rest k
  end.

Fixpoint obj_set {V} (o : list (Z * V)) (k : Z) (v : V) : list (Z * V) :=
  match o with
  | [] => [(k, v)]
  | (k', v') :: rest =>
      if (k' =? k)%Z then (k, v) :: rest else (k', v') :: obj_set rest k v
  end.

(** Own-property order ([Object.keys], [Object.values]): the array indices
    (integers from 0 to 2^32 - 2) in ascending order, then the other keys in
    creation order. *)
Definition is_array_index (k : Z) : bool :=
  ((0 <=? k) && (k <? 4294967295))%Z.

Fixpoint insert_by_key {V} (kv : Z * V) (l : list (Z * V)) : list (Z * V) :=
  match l with
  | [] => [kv]
  | kv' :: rest =>
      if (fst kv <? fst kv')%Z then kv :: l else kv' :: insert_by_key kv rest
  end.

Definition sort_by_key {V} (l : list (Z * V)) : list (Z * V) :=
  fold_right insert_by_key [] l.

Definition own_entries {V} (o : list (Z * V)) : list (Z * V) :=
  (sort_by_key (filter (fun kv => is_array_index (fst kv)) o)
   ++ filter (fun kv => negb (is_array_index (fst kv))) o)%list.

Definition Object_keys {V} (o : list (Z * V)) : list Z := map fst (own_entries o).
Definition Object_values {V} (o : list (Z * V)) : list V := map snd (own_entries o).

(** [x || y] on optional strings. *)
Definition or_else (o : option string) (d : string) : string :=
  if JS.truthy o then show o else d.

Section LLMClient.
Variable env : Env.
Variable config : OpenCodeConfig.

Definition onChunk (chunk : string) : M unit :=
  perform (EvChunk chunk) (fun _ => Ret tt).

(** The body of [for (const tc of delta.tool_calls)]. *)
Definition accumulate (acc : list (Z * Accum)) (tc : ToolCallDelta) : list (Z * Accum) :=
  let idx := match d_index tc with Some i => i | None => 0%Z end in
  let acc1 := match obj_get acc idx with
              | Some _ => acc
              | None => obj_set acc idx (mkAccum None None EmptyString)
              end in
  let cur := match obj_get acc1 idx with
             | Some a => a
             | None => mkAccum None None EmptyString
             end in
  let cur1 := if JS.truthy (d_id tc)
              then mkAccum (d_id tc) (acc_name cur) (acc_args cur) else cur in
  let cur2 := if JS.truthy (d_name tc)
              then mkAccum (acc_id cur1) (d_name tc) (acc_args cur1) else cur1 in
  let cur3 := if JS.truthy (d_arguments tc)
              then mkAccum (acc_id cur2) (acc_name cur2)
                     (acc_args cur2 ++ show (d_arguments tc))
              else cur2 in
  obj_set acc1 idx cur3.

(** One line of the stream. *)
Definition process_line (st : StreamState) (line : string) : M StreamState :=
  if JS.startsWith line "data: " && negb (line =? "data: [DONE]") then
    match env_decode env (JS.slice_from 6 line) with
    | None => ret st
    | Some delta =>
        st1 <- (if JS.truthy (d_content delta) then
                  let c := show (d_content delta) in
                  onChunk c ;;;
                  ret (mkStreamState (s_content st ++ c)
                         (s_toolCallsAccum st) (s_buffer st))
                else ret st) ;;
        match d_tool_calls delta with
        | Some tcs =>
            ret (mkStreamState (s_content st1)
                   (fold_left accumulate tcs (s_toolCallsAccum st1))
                   (s_buffer st1))
        | None => ret st1
        end
    end
  else ret st.

Fixpoint process_lines (st : StreamState) (lines : list string) : M StreamState :=
  match lines with
  | [] => ret st
  | line :: rest => st' <- process_line st line ;; process_lines st' rest
  end.

(** The ['data'] handler. *)
Definition on_data (st : StreamState) (chunk : string) : M StreamState :=
  let buffer := s_buffer st ++ chunk in
  let lines := JS.split buffer newline in
  let buffer' := last lines EmptyString in
  process_lines (mkStreamState (s_content st) (s_toolCallsAccum st) buffer')
    (removelast lines).

Fixpoint on_all_data (st : StreamState) (chunks : list string) : M StreamState :=
  match chunks with
  | [] => ret st
  | chunk :: rest => st' <- on_data st chunk ;; on_all_data st' rest
  end.

(** The ['end'] handler. *)
Definition on_end (st : StreamState) : Message :=
  let toolCalls :=
    if (0 <? List.length (Object_keys (s_toolCallsAccum st)))%nat then
      Some (map (fun tc => {| tc_id := acc_id tc;
                              tc_name := or_else (acc_name tc) "unknown";
                              tc_arguments := acc_args tc |})
              (Object_values (s_toolCallsAccum st)))
    else None in
  {| role := assistant;
     content := if s_content st =? EmptyString then None else Some (s_content st);
     tool_calls := toolCalls;
     tool_call_id := None;
     name := None |}.

(** [parseStreamResponse(response, onChunk)]: the chunks are delivered in
    order; the promise is rejected by an ['error'] event and resolved by
    ['end']. *)
Definition parseStreamResponse (response : Response) : M Message :=
  st <- on_all_data (mkStreamState EmptyString [] EmptyString)
          (body_chunks response) ;;
  match body_error response with
  | Some e => throw (Obj e)
  | None => ret (on_end st)
  end.

Definition lift {A} (r : A + ErrorObject) : M A := fun st => (of_result r, st).

(** The body of the [try] block of one attempt. *)
Definition attempt_once (messages : list Message) (options : ChatOptions) : M Message :=
  let req := {| req_messages := messages;
                req_tools := opt_tools options;
                req_stream := opt_stream options |} in
  response <- perform (EvFetch req) (fun tr => of_result (env_fetch env tr req)) ;;
  if negb (ok response) then
    text <- lift (body_text response) ;;
    throw (Obj (Error ("API Error " ++ JS.string_of_Z (status response)
                       ++ ": " ++ text)))
  else if opt_stream options && opt_onChunk options && has_body response then
    parseStreamResponse response
  else
    m <- lift (body_message response) ;;
    ret {| role := assistant; content := fst m; tool_calls := snd m;
           tool_call_id := None; name := None |}.

(** The classification computed in the [catch] block. *)
Definition retryable (error : ErrorObject) : bool :=
  match e_name error with
  | Some n => n =? "AbortError"
  | None => false
  end
  || (JS.truthy (e_message error)
      && (JS.includes (show (e_message error)) "ECONNRESET"
          || JS.includes (show (e_message error)) "ETIMEDOUT"
          || JS.includes (show (e_message error)) "fetch failed"
          || JS.startsWith (show (e_message error)) "API Error 5")).

Definition isRetryable (error : thrown) : M bool :=
  match error with
  | Nullish =>
      throw (Obj (TypeError "Cannot read properties of undefined (reading 'name')"))
  | Obj o => ret (retryable o)
  end.

(** [Math.min(1000 * Math.pow(2, attempt), 10000)]. *)
Definition delay (attempt : Z) : Z := Z.min (1000 * 2 ^ attempt) 10000.

Definition sleep (ms : Z) : M unit := perform (EvSleep ms) (fun _ => Ret tt).

Definition maxRetries : Z :=
  match retries config with
  | Some n => n
  | None => 3%Z
  end.

(** [for (let attempt = 0; attempt <= maxRetries; attempt++)], by recursion
    on the number of iterations that remain: [remaining] is
    [maxRetries + 1 - attempt], so it is [0] exactly when the loop condition
    fails and control reaches the final [throw]. *)
Fixpoint chat_from (remaining : nat) (attempt : Z)
    (messages : list Message) (options : ChatOptions) : M Message :=
  match remaining with
  | 0 => throw (Obj (Error "LLM request failed after retries"))
  | S r =>
      try_catch (attempt_once messages options)
        (fun error =>
           isRetryable <- isRetryable error ;;
           if (attempt <? maxRetries)%Z && isRetryable then
             sleep (delay attempt) ;;;
             chat_from r (attempt + 1) messages options
           else throw error)
  end.

Definition llm_chat (messages : list Message) (options : ChatOptions) : M Message :=
  chat_from (Z.to_nat (maxRetries + 1)) 0 messages options.
End LLMClient.

(* ================================================================= *)
(** ** agent.ts: Agent *)

(** The fields of an [Agent]: its client, its tool executor and the tool
    schema handed to the constructor. *)
Record Agent : Type := mkAgent {
  llm : OpenCodeConfig;
  tools : ToolExecutor;
  toolsDefinition : list json
}.

(** The [options] argument of [Agent.chat]. *)
Record AgentChatOptions : Type := mkAgentChatOptions {
  o_stream : bool;
  o_onChunk : bool
}.

Definition maxSteps : nat := 10.

Section AgentChat.
Variable env : Env.
Variable self : Agent.

(** The history entry pushed for a tool result. *)
Definition tool_message (result : ToolResult) : Message :=
  {| role := tool;
     content := Some (tr_content result);
     tool_calls := None;
     tool_call_id := Some (tr_tool_call_id result);
     name := Some (tr_name result) |}.

(** [for (const toolCall of response.tool_calls)]. *)
Fixpoint run_tools (calls : list ToolCall) : M unit :=
  match calls with
  | [] => ret tt
  | toolCall :: rest =>
      result <- execute env (tools self) toolCall ;;
      push_history (tool_message result) ;;;
      run_tools rest
  end.

Definition chatOpts (options : AgentChatOptions) : ChatOptions :=
  let useStream := o_stream options && o_onChunk options in
  {| opt_stream := useStream;
     opt_onChunk := useStream;
     opt_tools := match toolsDefinition self with
                  | [] => None
                  | defs => Some defs
                  end |}.

(** [while (currentStep < this.maxSteps)], by recursion on the number of
    steps that remain ([maxSteps - currentStep]).  [Some text] is the text
    returned from inside the loop; [None] is the fall-through after the
    loop, where [chat] returns no value. *)
Fixpoint chat_steps (remaining : nat) (options : AgentChatOptions) : M (option string) :=
  match remaining with
  | 0 => ret None
  | S r =>
      h <- get_history ;;
      response <- llm_chat env (llm self) h (chatOpts options) ;;
      push_history response ;;;
      match tool_calls response with
      | Some (c :: cs) =>
          run_tools (c :: cs) ;;;
          chat_steps r options
      | _ => ret (Some (or_else (content response) EmptyString))
      end
  end.

(** [chat(userInput, options)]. *)
Definition chat (userInput : string) (options : AgentChatOptions) : M (option string) :=
  push_history {| role := user; content := Some userInput;
                  tool_calls := None; tool_call_id := None; name := None |} ;;;
  chat_steps maxSteps options.
End AgentChat.

(* ================================================================= *)
(** ** Reference definitions used in the statements *)

(** Replacing every occurrence of a non-empty [pat] by the text [repl], the
    occurrences being found from left to right without overlap: what a
    replace-all edit is to write.  [skip] counts the code units of the
    occurrence just replaced that are still to be passed over. *)
Fixpoint replace_every (pat repl : string) (skip : nat) (s : string) : string :=
  match s with
  | EmptyString => EmptyString
  | String c s' =>
      match skip with
      | S k => replace_every pat repl k s'
      | 0 => if String.prefix pat s
             then repl ++ replace_every pat repl (String.length pat - 1) s'
             else String c (replace_every pat repl 0 s')
      end
  end.

Definition spec_replaceAll (s pat repl : string) : string :=
  replace_every pat repl 0 s.

(** The calls of the chunk sink, the audit records, the requests and the
    pauses recorded in a trace. *)
Fixpoint sink_calls (tr : list event) : list string :=
  match tr with
  | [] => []
  | EvChunk c :: rest => c :: sink_calls rest
  | _ :: rest => sink_calls rest
  end.

Fixpoint audit_records (tr : list event) : list AuditRecord :=
  match tr with
  | [] => []
  | EvAudit _ r :: rest => r :: audit_records rest
  | _ :: rest => audit_records rest
  end.

Fixpoint fetches (tr : list event) : nat :=
  match tr with
  | [] => 0
  | EvFetch _ :: rest => S (fetches rest)
  | _ :: rest => fetches rest
  end.

Fixpoint sleeps (tr : list event) : list Z :=
  match tr with
  | [] => []
  | EvSleep ms :: rest => ms :: sleeps rest
  | _ :: rest => sleeps rest
  end.

(** The first white-space-delimited token of a command. *)
Definition first_token (command : string) : string :=
  hd EmptyString (JS.split_ws (JS.trim command)).

(* ================================================================= *)
(** ** Sample environments and inputs *)

Module Sample.

Definition st0 : State := {| trace := []; history := [] |}.

(** The base environment: one file [/w/f.txt] holding [a a a], a shell
    whose commands succeed, a user who answers [n], a random source that
    yields [i] (the digits of 0.5 in base 36), arguments that do not parse,
    no plugin, an audit file that can be appended to, and a server that is
    down. *)
Definition base : Env :=
  {| env_resolve := fun p => "/w/" ++ p;
     env_dirname := fun _ => "/w";
     env_JSON_parse := fun _ => inr "SyntaxError: Unexpected end of JSON input";
     env_JSON_stringify := fun _ => "{}";
     env_decode := fun _ => None;
     env_readFile := fun _ p =>
       if p =? "/w/f.txt" then inl "a a a"
       else inr (Error ("ENOENT: no such file or directory, open '" ++ p ++ "'"));
     env_writeFile := fun _ _ _ => None;
     env_mkdir := fun _ _ => None;
     env_question := fun _ _ => "n";
     env_exec := fun _ c => ExecOk ("ran " ++ c) EmptyString;
     env_random := fun _ => "i";
     env_tool := fun _ _ _ => inl "ok";
     env_plugin := fun _ => None;
     env_now := fun _ => "2025-01-01T00:00:00.000Z";
     env_cwd := fun _ => "/w";
     env_appendFile := fun _ _ _ => None;
     env_fetch := fun _ _ => inr (Error "fetch failed") |}.

Definition with_answer (answer : string) (e : Env) : Env :=
  {| env_resolve := env_resolve e; env_dirname := env_dirname e;
     env_JSON_parse := env_JSON_parse e;
     env_JSON_stringify := env_JSON_stringify e;
     env_decode := env_decode e; env_readFile := env_readFile e;
     env_writeFile := env_writeFile e; env_mkdir := env_mkdir e;
     env_question := fun _ _ => answer;
     env_exec := env_exec e; env_random := env_random e;
     env_tool := env_tool e; env_plugin := env_plugin e;
     env_now := env_now e; env_cwd := env_cwd e;
     env_appendFile := env_appendFile e; env_fetch := env_fetch e |}.

Definition with_parse (parse : string -> json + string) (e : Env) : Env :=
  {| env_resolve := env_resolve e; env_dirname := env_dirname e;
     env_JSON_parse := parse;
     env_JSON_stringify := env_JSON_stringify e;
     env_decode := env_decode e; env_readFile := env_readFile e;
     env_writeFile := env_writeFile e; env_mkdir := env_mkdir e;
     env_question := env_question e;
     env_exec := env_exec e; env_random := env_random e;
     env_tool := env_tool e; env_plugin := env_plugin e;
     env_now := env_now e; env_cwd := env_cwd e;
     env_appendFile := env_appendFile e; env_fetch := env_fetch e |}.

Definition with_plugin
    (plugin : string -> option (list event -> json -> outcome string))
    (e : Env) : Env :=
  {| env_resolve := env_resolve e; env_dirname := env_dirname e;
     env_JSON_parse := env_JSON_parse e;
     env_JSON_stringify := env_JSON_stringify e;
     env_decode := env_decode e; env_readFile := env_readFile e;
     env_writeFile := env_writeFile e; env_mkdir := env_mkdir e;
     env_question := env_question e;
     env_exec := env_exec e; env_random := env_random e;
     env_tool := env_tool e; env_plugin := plugin;
     env_now := env_now e; env_cwd := env_cwd e;
     env_appendFile := env_appendFile e; env_fetch := env_fetch e |}.

Definition with_append (append : option ErrorObject) (e : Env) : Env :=
  {| env_resolve := env_resolve e; env_dirname := env_dirname e;
     env_JSON_parse := env_JSON_parse e;
     env_JSON_stringify := env_JSON_stringify e;
     env_decode := env_decode e; env_readFile := env_readFile e;
     env_writeFile := env_writeFile e; env_mkdir := env_mkdir e;
     env_question := env_question e;
     env_exec := env_exec e; env_random := env_random e;
     env_tool := env_tool e; env_plugin := env_plugin e;
     env_now := env_now e; env_cwd := env_cwd e;
     env_appendFile := fun _ _ _ => append; env_fetch := env_fetch e |}.

Definition with_decode (decode : string -> option Delta) (e : Env) : Env :=
  {| env_resolve := env_resolve e; env_dirname := env_dirname e;
     env_JSON_parse := env_JSON_parse e;
     env_JSON_stringify := env_JSON_stringify e;
     env_decode := decode; env_readFile := env_readFile e;
     env_writeFile := env_writeFile e; env_mkdir := env_mkdir e;
     env_question := env_question e;
     env_exec := env_exec e; env_random := env_random e;
     env_tool := env_tool e; env_plugin := env_plugin e;
     env_now := env_now e; env_cwd := env_cwd e;
     env_appendFile := env_appendFile e; env_fetch := env_fetch e |}.

Definition with_fetch (fetch : list event -> Request -> Response + ErrorObject)
    (e : Env) : Env :=
  {| env_resolve := env_resolve e; env_dirname := env_dirname e;
     env_JSON_parse := env_JSON_parse e;
     env_JSON_stringify := env_JSON_stringify e;
     env_decode := env_decode e; env_readFile := env_readFile e;
     env_writeFile := env_writeFile e; env_mkdir := env_mkdir e;
     env_question := env_question e;
     env_exec := env_exec e; env_random := env_random e;
     env_tool := env_tool e; env_plugin := env_plugin e;
     env_now := env_now e; env_cwd := env_cwd e;
     env_appendFile := env_appendFile e; env_fetch := fetch |}.

Definition env_answer (answer : string) : Env := with_answer answer base.

(** Arguments that decode to the empty object, and a plugin [deploy] whose
    promise is rejected without a reason. *)
Definition env_rejecting_plugin : Env :=
  with_parse (fun _ => inl (JObj []))
    (with_plugin (fun name => if name =? "deploy"
                              then Some (fun _ _ => Throw Nullish)
                              else None) base).

Definition call_deploy : ToolCall :=
  {| tc_id := Some "call_1"; tc_name := "deploy"; tc_arguments := "{}" |}.

(** Arguments that decode to [{ path: 'missing.txt' }]; the same with an
    audit file that cannot be appended to. *)
Definition args_missing : json := JObj [("path", JStr "missing.txt")].

Definition env_missing : Env := with_parse (fun _ => inl args_missing) base.

Definition env_sink_down : Env :=
  with_append (Some (Error "EACCES: permission denied")) env_missing.

Definition call_read : ToolCall :=
  {| tc_id := Some "call_2"; tc_name := "read_file";
     tc_arguments := "{...}" |}.

Definition call_ls : ToolCall :=
  {| tc_id := Some "call_3"; tc_name := "ls"; tc_arguments := "{...}" |}.

(** A streamed body in two chunks that cut a line in the middle: an event
    whose delta has the content [Hello], an event whose delta has the content
    [ world], and the terminal marker. *)
Definition q (s : string) : string := dquote ++ s ++ dquote.

Definition content_payload (text : string) : string :=
  "{" ++ q "choices" ++ ":[{" ++ q "delta" ++ ":{" ++ q "content" ++ ":"
  ++ q text ++ "}}]}".

Definition content_delta (text : string) : Delta :=
  {| d_content := Some text; d_tool_calls := None |}.

Definition decode_content (payload : string) : option Delta :=
  if payload =? content_payload "Hello" then Some (content_delta "Hello")
  else if payload =? content_payload " world" then Some (content_delta " world")
  else None.

Definition env_hello : Env := with_decode decode_content base.

Definition hello_chunks : list string :=
  ["data: " ++ content_payload "Hello" ++ newline ++ newline ++ "data: {"
   ++ dquote ++ "cho";
   "ices" ++ dquote ++ ":[{" ++ q "delta" ++ ":{" ++ q "content" ++ ":" ++ q " world"
   ++ "}}]}" ++ newline ++ newline ++ "data: [DONE]" ++ newline ++ newline].

Definition hello_response : Response :=
  {| status := 200; body_text := inl EmptyString;
     body_message := inr (Error "invalid json response body");
     has_body := true; body_chunks := hello_chunks; body_error := None |}.

(** A streamed body whose events carry tool-call deltas: first for index 1
    (id, name and the start of the arguments), then one without index, id or
    name, then the rest of the arguments for index 1.  [env_decode] stands for
    [JSON.parse], so the payloads are only labels here. *)
Definition tool_stream : list ToolCallDelta :=
  [ {| d_index := Some 1%Z; d_id := Some "call_b"; d_name := Some "read_file";
       d_arguments := Some "{" |};
    {| d_index := None; d_id := None; d_name := None; d_arguments := Some "{}" |};
    {| d_index := Some 1%Z; d_id := None; d_name := None; d_arguments := Some "}" |} ].

Definition decode_tools (payload : string) : option Delta :=
  if payload =? "first" then
    Some {| d_content := None; d_tool_calls := Some (firstn 1 tool_stream) |}
  else if payload =? "rest" then
    Some {| d_content := None; d_tool_calls := Some (skipn 1 tool_stream) |}
  else None.

Definition env_tools : Env := with_decode decode_tools base.

Definition tools_response : Response :=
  {| status := 200; body_text := inl EmptyString;
     body_message := inr (Error "invalid json response body");
     has_body := true;
     body_chunks := ["data: first" ++ newline ++ "data: re";
                     "st" ++ newline ++ "data: [DONE]" ++ newline];
     body_error := None |}.

(** A server that answers the first request with status 500 and every
    later request with status 200 and a plain text message. *)
Definition response_500 : Response :=
  {| status := 500; body_text := inl "Internal Server Error";
     body_message := inr (Error "invalid json response body");
     has_body := true; body_chunks := []; body_error := None |}.

Definition response_text (text : string) : Response :=
  {| status := 200; body_text := inl EmptyString;
     body_message := inl (Some text, None);
     has_body := true; body_chunks := []; body_error := None |}.

Definition env_500_then_200 : Env :=
  with_fetch (fun tr _ => match fetches tr with
                          | 0 => inl response_500
                          | _ => inl (response_text "done")
                          end) base.

(** A server (or a proxy in front of it) that answers the first request
    with status 400 and the body [upstream fetch failed], and every later
    request with status 200. *)
Definition response_400 : Response :=
  {| status := 400; body_text := inl "upstream fetch failed";
     body_message := inr (Error "invalid json response body");
     has_body := true; body_chunks := []; body_error := None |}.

Definition env_400_then_200 : Env :=
  with_fetch (fun tr _ => match fetches tr with
                          | 0 => inl response_400
                          | _ => inl (response_text "done")
                          end) base.

Definition config3 : OpenCodeConfig := {| retries := Some 3%Z |}.

Definition no_options : ChatOptions :=
  {| opt_stream := false; opt_onChunk := false; opt_tools := None |}.

(** A server whose every answer requests the tool [ls], and an agent with
    the default configuration. *)
Definition response_calls (calls : list ToolCall) : Response :=
  {| status := 200; body_text := inl EmptyString;
     body_message := inl (None, Some calls);
     has_body := true; body_chunks := []; body_error := None |}.

Definition env_always_tools : Env :=
  with_fetch (fun _ _ => inl (response_calls [call_ls])) base.

(** A server that first requests a tool with a call that has no id, and
    then answers with text. *)
Definition env_call_without_id : Env :=
  with_fetch (fun tr _ => match fetches tr with
                          | 0 => inl (response_calls
                                        [{| tc_id := None; tc_name := "ls";
                                            tc_arguments := "{}" |}])
                          | _ => inl (response_text "done")
                          end) base.

(** A call without an id, and an assistant message that carries it next to
    a call whose id is [call_i]. *)
Definition call_no_id : ToolCall :=
  {| tc_id := None; tc_name := "ls"; tc_arguments := "{}" |}.

Definition call_sibling : ToolCall :=
  {| tc_id := Some "call_i"; tc_name := "ls"; tc_arguments := "{}" |}.

Definition two_calls : Message :=
  {| role := assistant; content := None;
     tool_calls := Some [call_no_id; call_sibling];
     tool_call_id := None; name := None |}.

(** Executors: interactive approval, auto-approve, auto-approve with the
    allowlist [{git}]. *)
Definition manual : ToolExecutor :=
  {| autoApproveCommands := false; dryRun := false;
     allowlistCommands := mk_allowlist []; auditPath := None |}.

Definition auto : ToolExecutor :=
  {| autoApproveCommands := true; dryRun := false;
     allowlistCommands := mk_allowlist []; auditPath := None |}.

Definition audited : ToolExecutor :=
  {| autoApproveCommands := false; dryRun := false;
     allowlistCommands := mk_allowlist []; auditPath := Some "audit.log" |}.

Definition audited_dry : ToolExecutor :=
  {| autoApproveCommands := false; dryRun := true;
     allowlistCommands := mk_allowlist []; auditPath := Some "audit.log" |}.

Definition agent : Agent :=
  {| llm := {| retries := None |}; tools := manual; toolsDefinition := [] |}.

Definition plain : AgentChatOptions := {| o_stream := false; o_onChunk := false |}.

Definition auto_git : ToolExecutor :=
  {| autoApproveCommands := true; dryRun := false;
     allowlistCommands := mk_allowlist ["git"]; auditPath := None |}.

End Sample.

(* ================================================================= *)
(** ** Predicates on computations *)

Definition prompt_text : string := "   Allow? (y/n): ".

(** The outcome [runs]: the command is handed to the shell, after the events
    [before]; the outcome [refuses text]: [text] is returned and the shell is
    not invoked. *)
Definition runs (env : Env) (self : ToolExecutor) (command : string)
    (st : State) (before : list event) : Prop :=
  exists text,
    runCommand env self command st
    = (Ret text,
       {| trace := trace st ++ before ++ [EvExec command]; history := history st |}).

Definition refuses (env : Env) (self : ToolExecutor) (command : string)
    (st : State) (before : list event) (text : string) : Prop :=
  runCommand env self command st
  = (Ret text, {| trace := trace st ++ before; history := history st |}).

(** [frame P m]: [m] leaves the history alone and extends the trace by
    events that satisfy [P]. *)
Definition frame {A} (P : event -> Prop) (m : M A) : Prop :=
  forall st,
    history (snd (m st)) = history st
    /\ exists evs, trace (snd (m st)) = (trace st ++ evs)%list /\ Forall P evs.

(** [throws_objects m]: [m] never rejects with [null] or [undefined]. *)
Definition throws_objects {A} (m : M A) : Prop :=
  forall st, fst (m st) <> Throw Nullish.

(** [returns m]: [m] never rejects. *)
Definition returns {A} (m : M A) : Prop :=
  forall st, exists a, fst (m st) = Ret a.

(** The record [auditLog] writes for [entry] when the trace is [tr]:
    [{ ts: new Date().toISOString(), cwd: process.cwd(), ...entry }]. *)
Definition record_at (env : Env) (tr : list event) (entry : AuditEntry) : AuditRecord :=
  {| r_ts := env_now env tr; r_cwd := env_cwd env tr; r_entry := entry |}.

(** No plugin handler rejects with [null] or [undefined]. *)
Definition plugins_throw_objects (env : Env) : Prop :=
  forall name handler tr args,
    env_plugin env name = Some handler -> handler tr args <> Throw Nullish.

Definition not_audit (ev : event) : Prop :=
  match ev with
  | EvAudit _ _ => False
  | _ => True
  end.

(** The id given to the result of a call made in state [st]. *)
Definition result_id (env : Env) (call : ToolCall) (st : State) : string :=
  if JS.truthy (tc_id call) then show (tc_id call)
  else "call_" ++ env_random env (trace st).

(** The names the [switch] of [execute] knows, aliases included. *)
Definition is_builtin (name : string) : bool :=
  one_of name ["write_file"; "create_file"; "file_write"]
  || one_of name ["read_file"; "file_read"]
  || one_of name ["list_files"; "ls"]
  || one_of name ["run_command"; "shell"; "bash"]
  || one_of name ["git_status"; "git_diff"; "git_add"; "git_commit"; "git_stash"]
  || one_of name ["grep_search"; "search"; "grep"]
  || one_of name ["edit_file"; "patch_file"]
  || one_of name ["create_directory"; "mkdir"].

(* ================================================================= *)
(** ** The stream seen as a whole *)

(** The text of a stream: its chunks, end to end. *)
Definition join (chunks : list string) : string :=
  fold_right String.append EmptyString chunks.

(** The complete lines of a text: the pieces before each line feed. *)
Definition complete_lines (text : string) : list string :=
  removelast (JS.split text newline).

(** The delta carried by a line, if the line is an event that decodes. *)
Definition line_delta (env : Env) (line : string) : option Delta :=
  if JS.startsWith line "data: " && negb (line =? "data: [DONE]")
  then env_decode env (JS.slice_from 6 line)
  else None.

Definition deltas_of_lines (env : Env) (lines : list string) : list Delta :=
  flat_map (fun line => match line_delta env line with
                        | Some d => [d]
                        | None => []
                        end) lines.

(** The deltas of a stream, in arrival order. *)
Definition stream_deltas (env : Env) (chunks : list string) : list Delta :=
  deltas_of_lines env (complete_lines (join chunks)).

(** The content fragment and the tool-call deltas of a delta. *)
Definition content_of (d : Delta) : list string :=
  if JS.truthy (d_content d) then [show (d_content d)] else [].

Definition tool_deltas_of (d : Delta) : list ToolCallDelta :=
  match d_tool_calls d with
  | Some tcs => tcs
  | None => []
  end.

Definition fragments (ds : list Delta) : list string := flat_map content_of ds.

Definition tool_deltas (ds : list Delta) : list ToolCallDelta :=
  flat_map tool_deltas_of ds.

(** The effect of one delta on the local variables. *)
Definition apply_delta (st : StreamState) (d : Delta) : StreamState :=
  mkStreamState (s_content st ++ join (content_of d))
    (fold_left accumulate (tool_deltas_of d) (s_toolCallsAccum st))
    (s_buffer st).


(** State updates used in the statements: the sink calls added to a trace,
    and the buffer of a stream state replaced. *)
Definition add_chunks (s : State) (cs : list string) : State :=
  {| trace := (trace s ++ map EvChunk cs)%list; history := history s |}.

Definition with_buffer (b : string) (st : StreamState) : StreamState :=
  mkStreamState (s_content st) (s_toolCallsAccum st) b.

(** A text without a line feed. *)
Definition no_newline (b : string) : Prop :=
  JS.split_sep newline EmptyString 0 b = [b].

(** The local variables of [parseStreamResponse] before the first chunk. *)
Definition stream_start : StreamState := mkStreamState EmptyString [] EmptyString.

(** [content || null]. *)
Definition or_null (text : string) : option string :=
  if text =? EmptyString then None else Some text.

(* ================================================================= *)
(** ** Tool calls of a stream, as the design document words them *)













(* ================================================================= *)
(** ** The retry policy, as the design document words it *)

(** [retry_run env config messages options attempt st res st']: from attempt
    number [attempt] on, in state [st], the client ends with [res] in state
    [st'].  No attempt is made beyond [maxRetries]; a success is returned; a
    failure that is not classified as retryable is thrown at once; a retryable
    failure of the last attempt is thrown; a retryable failure of an earlier
    attempt is followed by a pause of [delay attempt] milliseconds and the
    next attempt. *)
Inductive retry_run (env : Env) (config : OpenCodeConfig)
    (messages : list Message) (options : ChatOptions)
  : Z -> State -> outcome Message -> State -> Prop :=
| run_no_attempt attempt st :
    (maxRetries config < attempt)%Z ->
    retry_run env config messages options attempt st
      (Throw (Obj (Error "LLM request failed after retries"))) st
| run_success attempt st m st1 :
    (attempt <= maxRetries config)%Z ->
    attempt_once env messages options st = (Ret m, st1) ->
    retry_run env config messages options attempt st (Ret m) st1
| run_not_retryable attempt st o st1 :
    (attempt <= maxRetries config)%Z ->
    attempt_once env messages options st = (Throw (Obj o), st1) ->
    retryable o = false ->
    retry_run env config messages options attempt st (Throw (Obj o)) st1
| run_exhausted attempt st o st1 :
    attempt = maxRetries config ->
    attempt_once env messages options st = (Throw (Obj o), st1) ->
    retryable o = true ->
    retry_run env config messages options attempt st (Throw (Obj o)) st1
| run_retry attempt st o st1 res st' :
    (attempt < maxRetries config)%Z ->
    attempt_once env messages options st = (Throw (Obj o), st1) ->
    retryable o = true ->
    retry_run env config messages options (attempt + 1)
      {| trace := (trace st1 ++ [EvSleep (delay attempt)])%list;
         history := history st1 |} res st' ->
    retry_run env config messages options attempt st res st'.

(** The pauses before [n] retries in a row, the first after attempt number
    [attempt]. *)
Fixpoint delays_from (attempt : Z) (n : nat) : list Z :=
  match n with
  | 0 => []
  | S n' => delay attempt :: delays_from (attempt + 1) n'
  end.

(** The request that [chat] sends. *)
Definition request_of (messages : list Message) (options : ChatOptions) : Request :=
  {| req_messages := messages;
     req_tools := opt_tools options;
     req_stream := opt_stream options |}.

(* ================================================================= *)
(** ** The shape of a turn *)

(** The tool calls carried by a message. *)
Definition calls_of (m : Message) : list ToolCall :=
  match tool_calls m with
  | Some cs => cs
  | None => []
  end.

(** [answers call r]: the result [r] is the result for [call]: it has the
    name of the call and, when the call has a non-empty id, that id; a call
    without one gets an id made of [call_] and drawn text. *)
Definition answers (call : ToolCall) (r : ToolResult) : Prop :=
  tr_name r = tc_name call
  /\ if JS.truthy (tc_id call)
     then tc_id call = Some (tr_tool_call_id r)
     else exists suffix, tr_tool_call_id r = "call_" ++ suffix.

(** A step of a turn, as it shows in the history: the assistant message,
    then the messages of the tool results. *)
Definition Step : Type := (Message * list ToolResult)%type.

Definition step_messages (b : Step) : list Message :=
  fst b :: map (tool_message) (snd b).

(** The results of a step answer, in order, the first calls of its
    assistant message; the step is complete when all calls are answered. *)
Definition step_ok (b : Step) : Prop :=
  role (fst b) = assistant
  /\ Forall2 answers (firstn (List.length (snd b)) (calls_of (fst b))) (snd b).

Definition step_complete (b : Step) : Prop :=
  List.length (snd b) = List.length (calls_of (fst b)).

Definition user_message (userInput : string) : Message :=
  {| role := user; content := Some userInput;
     tool_calls := None; tool_call_id := None; name := None |}.

Definition is_ret {A} (o : outcome A) : Prop :=
  match o with
  | Ret _ => True
  | Throw _ => False
  end.

(* ================================================================= *)
(** ** Further predicates on events and texts *)

(** Effects of the tool methods themselves; those that are not calls of a
    plugin handler; and the bookkeeping of [execute] (id draw, audit). *)
Definition tool_effect (ev : event) : Prop :=
  match ev with
  | EvReadFile _ | EvWriteFile _ _ | EvMkdir _ | EvQuestion _ | EvExec _
  | EvTool _ _ | EvPlugin _ _ => True
  | _ => False
  end.

Definition native_effect (ev : event) : Prop :=
  match ev with
  | EvReadFile _ | EvWriteFile _ _ | EvMkdir _ | EvQuestion _ | EvExec _
  | EvTool _ _ => True
  | _ => False
  end.

Definition bookkeeping (ev : event) : Prop :=
  match ev with
  | EvRandom | EvAudit _ _ => True
  | _ => False
  end.

(** The function names of [TOOLS_DEFINITION], in order. *)
Definition TOOLS_DEFINITION_names : list string :=
  ["write_file"; "read_file"; "list_files"; "run_command"; "git_status";
   "git_diff"; "git_add"; "git_commit"; "git_stash"; "grep_search";
   "edit_file"; "create_directory"].

(** A text without a dollar sign, and a text without white space. *)
Fixpoint no_dollar (s : string) : bool :=
  match s with
  | EmptyString => true
  | String c s' => negb (Ascii.eqb c "$") && no_dollar s'
  end.

Fixpoint no_ws (s : string) : bool :=
  match s with
  | EmptyString => true
  | String c s' => negb (JS.is_ws c) && no_ws s'
  end.

(* ================================================================= *)
(** ** tools.ts: gitAdd *)

(** [paths.trim().split(/\s+/).filter(Boolean)], with ['.'] pushed when
    nothing is left. *)
Definition gitAdd_pathArgs (paths : string) : list string :=
  let pathArgs := filter (fun p => negb (p =? EmptyString))
                    (JS.split_ws (JS.trim paths)) in
  match pathArgs with
  | [] => ["."]
  | _ => pathArgs
  end.

(** The arguments [gitAdd] hands to [execFile('git', ...)]. *)
Definition gitAdd_args (paths : string) : list string :=
  "add" :: gitAdd_pathArgs paths.

Definition not_plugin (ev : event) : Prop :=
  match ev with
  | EvPlugin _ _ => False
  | _ => True
  end.

(** The rest of a command line behind its first word: nothing, or text that
    starts with white space. *)
Definition ws_or_end (t : string) : bool :=
  match t with
  | EmptyString => true
  | String c _ => JS.is_ws c
  end.

(** An executor built with [--yes --allow "git status"]. *)
Definition auto_two_words : ToolExecutor :=
  {| autoApproveCommands := true; dryRun := false;
     allowlistCommands := mk_allowlist ["git status"]; auditPath := None |}.

(* ================================================================= *)
(** ** Further definitions for the client *)

(** A response whose body arrives in other chunks. *)
Definition with_chunks (r : Response) (chunks : list string) : Response :=
  {| status := status r; body_text := body_text r;
     body_message := body_message r; has_body := has_body r;
     body_chunks := chunks; body_error := body_error r |}.

(** What a call of [LLMClient.chat] with [messages] and [options] may do:
    send the request built from its arguments, pause between 1 and 10
    seconds, and, when streaming into a sink was asked for, call the sink. *)
Definition llm_event (messages : list Message) (options : ChatOptions)
    (ev : event) : Prop :=
  match ev with
  | EvFetch req => req = request_of messages options
  | EvSleep ms => (1000 <= ms <= 10000)%Z
  | EvChunk _ => opt_stream options && opt_onChunk options = true
  | _ => False
  end.

(** Streaming into a sink. *)
Definition streaming : ChatOptions :=
  {| opt_stream := true; opt_onChunk := true; opt_tools := None |}.

(** A stream that breaks after its first event, and a server that sends it
    in answer to the first request and the whole stream afterwards. *)
Definition broken_response : Response :=
  {| status := 200; body_text := inl EmptyString;
     body_message := inr (Error "invalid json response body");
     has_body := true;
     body_chunks := ["data: " ++ Sample.content_payload "Hello" ++ newline];
     body_error := Some (Error "read ECONNRESET") |}.

Definition env_broken_stream : Env :=
  Sample.with_fetch (fun tr _ => match fetches tr with
                                 | 0 => inl broken_response
                                 | _ => inl Sample.hello_response
                                 end) Sample.env_hello.

(* ================================================================= *)
(** ** Further definitions for the agent *)

Definition not_fetch (ev : event) : Prop :=
  match ev with
  | EvFetch _ => False
  | _ => True
  end.

(** [carries h0 h ev]: when [ev] is a request, its messages are [h0]
    followed by further messages, and they are an initial part of [h]. *)
Definition carries (h0 h : list Message) (ev : event) : Prop :=
  match ev with
  | EvFetch req =>
      exists more rest,
        req_messages req = (h0 ++ more)%list
        /\ h = (req_messages req ++ rest)%list
  | _ => True
  end.

(** The number of requests one call of [LLMClient.chat] can make. *)
Definition requests_per_call (config : OpenCodeConfig) : nat :=
  Z.to_nat (maxRetries config + 1).

(* ================================================================= *)
(** ** agents.ts: sub-agents *)

(** [SubAgent]; [maxSteps] is taken at integers. *)
Record SubAgent : Type := mkSubAgent {
  sa_name : string;
  sa_displayName : string;
  sa_description : string;
  sa_systemPrompt : string;
  sa_tools : list string;
  sa_maxSteps : Z
}.

(** What [options.onProgress] is called with: the step line
    [`${agent.displayName} - Step ${steps}/${agent.maxSteps}`] and the tool
    line made of an arrow and the name of the tool. *)
Inductive ProgressNote : Type :=
| StepNote (steps : Z)
| ToolNote (toolName : string).

Section SubAgents.
Variable env : Env.

(** [TOOLS_DEFINITION] is the list of the schema objects of the names in
    [TOOLS_DEFINITION_names]; [definition n] is the object whose function
    name is [n]. *)
Variable definition : string -> json.

Variable agent : SubAgent.
Variable llm : OpenCodeConfig.
Variable toolExecutor : ToolExecutor.

(** [options?.onProgress], when given. *)
Variable onProgress : option (ProgressNote -> M unit).

Definition progress (note : ProgressNote) : M unit :=
  match onProgress with
  | Some callback => callback note
  | None => ret tt
  end.

(** [getAgentTools(agent)]: the definitions whose function name is listed
    by the agent, in the order of [TOOLS_DEFINITION]. *)
Definition getAgentTools : list json :=
  map definition
    (filter (fun toolName => existsb (String.eqb toolName) (sa_tools agent))
       TOOLS_DEFINITION_names).

(** [{ tools: agentTools.length > 0 ? agentTools : undefined, debug }]. *)
Definition agent_options : ChatOptions :=
  {| opt_stream := false;
     opt_onChunk := false;
     opt_tools := match getAgentTools with
                  | [] => None
                  | agentTools => Some agentTools
                  end |}.

(** [{ debug }], the options of the request for a summary. *)
Definition summary_options : ChatOptions :=
  {| opt_stream := false; opt_onChunk := false; opt_tools := None |}.

(** The local [history] at its creation. *)
Definition initial_messages (task : string) (st : State) : list Message :=
  [ {| role := system;
       content := Some (sa_systemPrompt agent ++ newline ++ newline
                        ++ "Current working directory: " ++ env_cwd env (trace st));
       tool_calls := None; tool_call_id := None; name := None |};
    user_message task ].

(** [for (const toolCall of response.tool_calls)], on the local history. *)
Fixpoint sub_run_tools (calls : list ToolCall) (messages : list Message)
  : M (list Message) :=
  match calls with
  | [] => ret messages
  | toolCall :: rest =>
      progress (ToolNote (tc_name toolCall)) ;;;
      result <- execute env toolExecutor toolCall ;;
      sub_run_tools rest (messages ++ [tool_message result])%list
  end.

(** The [try] statement inside the loop: [inl messages] when the loop goes
    on with the local history [messages], [inr text] when [text] is
    returned. *)
Definition sub_step (messages : list Message) : M (list Message + string) :=
  try_catch
    (response <- llm_chat env llm messages agent_options ;;
     let messages1 := (messages ++ [response])%list in
     match tool_calls response with
     | Some (c :: cs) =>
         messages2 <- sub_run_tools (c :: cs) messages1 ;;
         ret (inl messages2)
     | _ => ret (inr (or_else (content response) "Agent completed without response."))
     end)
    (fun error => m <- message_of error ;;
                  ret (inr ("Agent error: " ++ show m))).

(** What follows the loop: the request for a summary. *)
Definition summarize (messages : list Message) : M string :=
  let messages1 :=
    (messages
     ++ [user_message "Please provide a summary of what you found or accomplished."])%list in
  try_catch
    (summary <- llm_chat env llm messages1 summary_options ;;
     ret (or_else (content summary) "Agent completed without summary."))
    (fun error => m <- message_of error ;;
                  ret ("Agent completed but failed to summarize: " ++ show m)).

(** [while (steps < agent.maxSteps)], by recursion on the number of steps
    that remain. *)
Fixpoint sub_loop (remaining : nat) (steps : Z) (messages : list Message) : M string :=
  match remaining with
  | 0 => summarize messages
  | S r =>
      let steps := (steps + 1)%Z in
      progress (StepNote steps) ;;;
      x <- sub_step messages ;;
      match x with
      | inl messages' => sub_loop r steps messages'
      | inr text => ret text
      end
  end.

(** [runSubAgent(agent, task, llm, toolExecutor, options)]. *)
Definition runSubAgent (task : string) : M string :=
  fun st =>
    sub_loop (Z.to_nat (sa_maxSteps agent)) 0 (initial_messages task st) st.
End SubAgents.

(** [options?.tools ?? TOOLS_DEFINITION] (llm-client.ts): the tools that
    the body of a request offers to the model. *)
Definition tools_sent (definition : string -> json) (req : Request) : list json :=
  match req_tools req with
  | Some tools => tools
  | None => map definition TOOLS_DEFINITION_names
  end.

(** A sub-agent that lists [read_file] only and makes one step. *)
Definition reader : SubAgent :=
  {| sa_name := "reader"; sa_displayName := "Reader";
     sa_description := "Reads files";
     sa_systemPrompt := "You read files.";
     sa_tools := ["read_file"]; sa_maxSteps := 1 |}.

(** A sub-agent that lists no tool. *)
Definition thinker : SubAgent :=
  {| sa_name := "thinker"; sa_displayName := "Thinker";
     sa_description := "Thinks";
     sa_systemPrompt := "You think.";
     sa_tools := []; sa_maxSteps := 2 |}.

Definition schema (toolName : string) : json :=
  JObj [("type", JStr "function");
        ("function", JObj [("name", JStr toolName)])].

(** [sends_at_most k m]: [m] extends the trace, by at most [k] requests. *)
Definition sends_at_most {A} (k : nat) (m : M A) : Prop :=
  forall st,
    exists evs,
      trace (snd (m st)) = (trace st ++ evs)%list /\ fetches evs <= k.

(* ================================================================= *)
(** ** tools.ts: grepSearch *)

(** The search reads the file system through [fs.stat], [fs.readdir] and
    [fs.readFile]; it is modelled on a snapshot of the tree under the path
    searched.  A node is what these calls answer for it:
    - [File content]: a file that [readFile] reads;
    - [FileError]: a file for which [readFile] throws;
    - [Dir entries]: a directory and its entries, in the order of [readdir];
    - [DirError e]: a directory for which [readdir] throws [e];
    - [Other]: neither a file nor a directory.
    [dispatch] leaves [grep_search] to the environment; the method is
    modelled here on its own. *)
Inductive Node : Type :=
| File (content : string)
| FileError
| Dir (entries : list (string * Node))
| DirError (e : ErrorObject)
| Other.

Section NodeInduction.
Variable P : Node -> Prop.
Hypothesis HFile : forall content, P (File content).
Hypothesis HFileError : P FileError.
Hypothesis HDir :
  forall entries, Forall (fun entry => P (snd entry)) entries -> P (Dir entries).
Hypothesis HDirError : forall e, P (DirError e).
Hypothesis HOther : P Other.

Fixpoint Node_nested_ind (node : Node) : P node :=
  match node with
  | File content => HFile content
  | FileError => HFileError
  | Dir entries =>
      HDir entries
        ((fix entries_ind (l : list (string * Node))
            : Forall (fun entry => P (snd entry)) l :=
            match l with
            | [] => Forall_nil _
            | entry :: rest =>
                Forall_cons entry (Node_nested_ind (snd entry)) (entries_ind rest)
            end) entries)
  | DirError e => HDirError e
  | Other => HOther
  end.
End NodeInduction.

(** [results.join('\n')]. *)
Fixpoint join_with (sep : string) (items : list string) : string :=
  match items with
  | [] => EmptyString
  | [item] => item
  | item :: rest => item ++ sep ++ join_with sep rest
  end.

Definition maxResults : nat := 50.

(** [entry.name.startsWith('.') || entry.name === 'node_modules' ||
    entry.name === 'dist']. *)
Definition skipped (entryName : string) : bool :=
  JS.startsWith entryName "." || (entryName =? "node_modules")
  || (entryName =? "dist").

Section GrepSearch.
(** [path.join] and [path.relative], and the root of the workspace. *)
Variable path_join : string -> string -> string.
Variable path_relative : string -> string -> string.
Variable workspaceRoot : string.

(** [new RegExp(pattern, ignoreCase ? 'gi' : 'g')]: [None] when the
    constructor throws, otherwise [regex.test] on a line with [lastIndex]
    at 0, where the loop over the lines keeps it. *)
Variable pattern : string.
Variable regex : option (string -> bool).
Variable recursive : bool.

(** [`${relativePath}:${idx + 1}: ${line.trim()}`]. *)
Definition result_line (filePath : string) (idx : nat) (line : string) : string :=
  path_relative workspaceRoot filePath ++ ":"
  ++ JS.string_of_Z (Z.of_nat idx + 1) ++ ": " ++ JS.trim line.

(** [lines.forEach((line, idx) => ...)] on the shared array [results]. *)
Fixpoint search_lines (test : string -> bool) (filePath : string) (idx : nat)
    (lines : list string) (results : list string) : list string :=
  match lines with
  | [] => results
  | line :: rest =>
      search_lines test filePath (S idx) rest
        (if (maxResults <=? List.length results)%nat then results
         else if test line then (results ++ [result_line filePath idx line])%list
         else results)
  end.

(** [searchFile(filePath)]: whatever is thrown inside is swallowed. *)
Definition searchFile (filePath : string) (node : Node) (results : list string)
  : list string :=
  match node with
  | File content =>
      match regex with
      | Some test => search_lines test filePath 0 (JS.split content newline) results
      | None => results
      end
  | _ => results
  end.

(** [for (const entry of entries)] in [searchDir]; [searchDir] is the
    function called on a subdirectory.  [inr e]: [e] is thrown. *)
Fixpoint search_entries
    (searchDir : string -> Node -> list string -> list string + ErrorObject)
    (dirPath : string) (entries : list (string * Node)) (results : list string)
  : list string + ErrorObject :=
  match entries with
  | [] => inl results
  | entry :: rest =>
      if (maxResults <=? List.length results)%nat then inl results
      else
        let entryPath := path_join dirPath (fst entry) in
        if skipped (fst entry) then search_entries searchDir dirPath rest results
        else
          match snd entry with
          | Dir _ | DirError _ =>
              if recursive then
                match searchDir entryPath (snd entry) results with
                | inl results' => search_entries searchDir dirPath rest results'
                | inr e => inr e
                end
              else search_entries searchDir dirPath rest results
          | File _ | FileError =>
              search_entries searchDir dirPath rest
                (searchFile entryPath (snd entry) results)
          | Other => search_entries searchDir dirPath rest results
          end
  end.

(** [searchDir(dirPath)], called on directories. *)
Fixpoint searchDir (dirPath : string) (node : Node) (results : list string)
  : list string + ErrorObject :=
  match node with
  | Dir entries => search_entries searchDir dirPath entries results
  | DirError e => inr e
  | _ => inl results
  end.

(** The [try] statement of [grepSearch]: [stat] is what [fs.stat] answers
    for the path. *)
Definition grep_collect (fullPath : string) (stat : Node + ErrorObject)
  : list string + ErrorObject :=
  match stat with
  | inr e => inr e
  | inl node =>
      match node with
      | File _ | FileError => inl (searchFile fullPath node [])
      | Dir _ | DirError _ => searchDir fullPath node []
      | Other => inl []
      end
  end.

Definition limit_notice : string :=
  newline ++ "... (limited to 50 results)".

(** [grepSearch(pattern, searchPath, recursive, ignoreCase)], [fullPath]
    being the resolved path. *)
Definition grepSearch (fullPath : string) (stat : Node + ErrorObject) : string :=
  match grep_collect fullPath stat with
  | inr e => "Error: " ++ show (e_message e)
  | inl results =>
      if (List.length results =? 0)%nat
      then "No matches found for " ++ dquote ++ pattern ++ dquote
      else join_with newline results
           ++ (if (maxResults <=? List.length results)%nat then limit_notice
               else EmptyString)
  end.
End GrepSearch.

(** The part of a tree that a search can look at: the entries that are not
    skipped by name and are files or, in a recursive search, directories. *)
Definition looked_at (recursive : bool) (entry : string * Node) : bool :=
  negb (skipped (fst entry))
  && match snd entry with
     | File _ | FileError => true
     | Dir _ | DirError _ => recursive
     | Other => false
     end.

Fixpoint keep_entries (recursive : bool) (visible : Node -> Node)
    (entries : list (string * Node)) : list (string * Node) :=
  match entries with
  | [] => []
  | entry :: rest =>
      if looked_at recursive entry
      then (fst entry, visible (snd entry)) :: keep_entries recursive visible rest
      else keep_entries recursive visible rest
  end.

Fixpoint visible (recursive : bool) (node : Node) : Node :=
  match node with
  | Dir entries => Dir (keep_entries recursive (visible recursive) entries)
  | _ => node
  end.

(** The outcome of a search holds at most [maxResults] lines. *)
Definition bounded (r : list string + ErrorObject) : Prop :=
  match r with
  | inl results => List.length results <= maxResults
  | inr _ => True
  end.

(** The outcome of a search that adds no line to [results]. *)
Definition adds_nothing (results : list string) (r : list string + ErrorObject) : Prop :=
  match r with
  | inl results' => results' = results
  | inr _ => True
  end.

(** A tree for the samples: a source file with two matching lines, a
    hidden directory and a dependency directory that cannot be read. *)
Definition sample_tree : Node :=
  Dir [("a.ts", File ("let x = 1;" ++ newline ++ "  let y = x;" ++ newline));
       (".git", DirError (Error "EACCES: permission denied"));
       ("node_modules", Dir [("m.js", File "let z;")]);
       ("sub", Dir [("b.ts", File "let w;")])].

Definition test_let (line : string) : bool := JS.includes line "let".

Definition slash_join (a b : string) : string := a ++ "/" ++ b.

Definition below_w (root p : string) : string :=
  JS.slice_from (String.length root + 1) p.

(* ================================================================= *)
(** ** Failing inputs and further samples *)

(** What node-fetch throws when the connection is refused and when it is
    reset: a [FetchError] whose message is
    [request to <url> failed, reason: <message of the system error>]. *)
Definition refused_error : ErrorObject :=
  {| e_name := Some "FetchError";
     e_message := Some ("request to http://localhost:5000/v1/chat/completions failed, "
                        ++ "reason: connect ECONNREFUSED 127.0.0.1:5000") |}.

Definition reset_error : ErrorObject :=
  {| e_name := Some "FetchError";
     e_message := Some ("request to http://localhost:5000/v1/chat/completions failed, "
                        ++ "reason: read ECONNRESET") |}.

Definition env_refused : Env := Sample.with_fetch (fun _ _ => inr refused_error) Sample.base.
Definition env_reset : Env := Sample.with_fetch (fun _ _ => inr reset_error) Sample.base.

(** A server whose every answer requests the plugin tool [deploy], whose
    handler rejects without a reason. *)
Definition env_always_deploy : Env :=
  Sample.with_fetch (fun _ _ => inl (Sample.response_calls [Sample.call_deploy]))
    Sample.env_rejecting_plugin.


(* ================================================================= *)
(** ** The turn, stated on the messages of the history *)







(** [sent h ev]: when [ev] is a request, its messages are exactly [h]. *)
Definition sent (h : list Message) (ev : event) : Prop :=
  match ev with
  | EvFetch req => req_messages req = h
  | _ => True
  end.

(** [groups_carry h steps parts]: the events [parts] of a turn, one group
    per call of the client, against the steps the history shows.  The
    requests of a group carry exactly the history [h] at the call: the
    history at the first call, followed by the messages of the steps made
    since.  Every step has its group, with at least one request; at most one
    more group follows, that of a call which failed. *)
Fixpoint groups_carry (h : list Message) (steps : list Step)
    (parts : list (list event)) : Prop :=
  match steps, parts with
  | [], [] => True
  | [], [part] => Forall (sent h) part
  | b :: steps', part :: parts' =>
      Forall (sent h) part
      /\ 1 <= fetches part
      /\ groups_carry (h ++ step_messages b)%list steps' parts'
  | _, _ => False
  end.

(** The errors of the directories of a tree that cannot be read. *)
Fixpoint dir_errors (node : Node) : list ErrorObject :=
  match node with
  | Dir entries => flat_map (fun entry => dir_errors (snd entry)) entries
  | DirError e => [e]
  | _ => []
  end.


(* ================================================================= *)
(** * Properties *)

Ltac run_monad :=
  cbv [bind ret throw try_catch perform of_failure of_result push_history get_history].

(* ----------------------------------------------------------------- *)
(** ** String primitives on sample inputs *)

Example split_ws_ex : JS.split_ws "git  status -s" = ["git"; "status"; "-s"].
Proof. reflexivity. Qed.
Example split_ex : JS.split "a-b-a-b-a" "a" = [EmptyString; "-b-"; "-b-"; EmptyString].
Proof. reflexivity. Qed.
Example split_ex2 : JS.split "aaaa" "aa" = [EmptyString; EmptyString; EmptyString].
Proof. reflexivity. Qed.
Example replace_ex : JS.replace "x a y a" "a" "[$&$$]" = "x [a$] y a".
Proof. reflexivity. Qed.
Example trim_ex : JS.trim "  Git status " = "Git status".
Proof. reflexivity. Qed.
Example lower_ex : JS.toLowerCase "GiT" = "git".
Proof. reflexivity. Qed.
Example str_ex : JS.string_of_Z 3 = "3" /\ JS.string_of_Z (-1) = "-1" /\ JS.string_of_Z 0 = "0".
Proof. repeat split; reflexivity. Qed.

(* ----------------------------------------------------------------- *)
(** ** editFile *)

(** On a file that holds [a a a], editing [a] into [b] reports three
    replacements. *)
Example editFile_three_message :
  fst (editFile (Sample.base) "f.txt" "a" "b" Sample.st0)
  = Ret "Successfully edited f.txt. Replaced 3 occurrence(s).".
Proof. vm_compute. reflexivity. Qed.

Example editFile_three_trace :
  trace (snd (editFile (Sample.base) "f.txt" "a" "b" Sample.st0))
  = [EvReadFile "/w/f.txt"; EvWriteFile "/w/f.txt" "b a a"].
Proof. vm_compute. reflexivity. Qed.

(** The success path of [editFile] in general: the text written is
    [content.replace(oldText, newText)] and the number reported is
    [content.split(oldText).length - 1]. *)
Lemma editFile_success (env : Env) (filePath oldText newText content : string) (st : State) :
  env_readFile env (trace st) (env_resolve env filePath) = inl content ->
  JS.includes content oldText = true ->
  env_writeFile env (trace st ++ [EvReadFile (env_resolve env filePath)])
    (env_resolve env filePath) (JS.replace content oldText newText) = None ->
  editFile env filePath oldText newText st
  = (Ret ("Successfully edited " ++ filePath ++ ". Replaced "
          ++ JS.string_of_Z (Z.of_nat (List.length (JS.split content oldText)) - 1)
          ++ " occurrence(s)."),
     {| trace := trace st ++ [EvReadFile (env_resolve env filePath);
                              EvWriteFile (env_resolve env filePath)
                                (JS.replace content oldText newText)];
        history := history st |}).
Proof.
  intros Hread Hinc Hwrite.
  unfold editFile, resolvePath, fs_readFile, fs_writeFile.
  run_monad. cbn [trace history].
  rewrite Hread, Hinc. cbn [negb trace history].
  rewrite Hwrite. rewrite <- app_assoc. reflexivity.
Qed.

(** C1 (failing input).  The file holds [a a a]; [edit_file] with old text
    [a] and new text [b] reports 3 occurrences replaced, but the content
    written back is [b a a]: only the first occurrence is replaced, where
    replacing every occurrence gives [b b b]. *)
Theorem editFile_replaces_first_occurrence_only :
  let r := editFile (Sample.base) "f.txt" "a" "b" Sample.st0 in
  fst r = Ret "Successfully edited f.txt. Replaced 3 occurrence(s)."
  /\ trace (snd r) = [EvReadFile "/w/f.txt"; EvWriteFile "/w/f.txt" "b a a"]
  /\ spec_replaceAll "a a a" "a" "b" = "b b b"
  /\ JS.replace "a a a" "a" "b" <> spec_replaceAll "a a a" "a" "b".
Proof.
  cbv zeta. repeat split; try (vm_compute; reflexivity).
  vm_compute. discriminate.
Qed.

(* ----------------------------------------------------------------- *)
(** ** runCommand *)

Lemma set_has_In (s : list string) (x : string) :
  set_has s x = true <-> In x s.
Proof.
  unfold set_has. rewrite existsb_exists. split.
  - intros [y [Hin Heq]]. apply String.eqb_eq in Heq. now subst.
  - intros Hin. exists x. split; [assumption | apply String.eqb_refl].
Qed.

(** Membership in the allowlist built by the constructor: some configured
    entry, lower-cased and trimmed, is the lower-cased first token. *)
Lemma allowlist_member (raw : list string) (command : string) :
  set_has (mk_allowlist raw) (cmdBase command) = true
  <-> exists entry, In entry raw
        /\ JS.trim (JS.toLowerCase entry) = JS.toLowerCase (first_token command).
Proof.
  rewrite set_has_In. unfold mk_allowlist, cmdBase, first_token.
  rewrite nodup_In, in_map_iff. split.
  - intros [e [Heq Hin]]. exists e. now split.
  - intros [e [Hin Heq]]. exists e. now split.
Qed.

Lemma set_size_zero (s : list string) :
  (set_size s =? 0)%nat = true <-> s = [].
Proof.
  unfold set_size. rewrite Nat.eqb_eq. destruct s; simpl; split; congruence.
Qed.

(** What running the command does: one shell invocation, and text returned
    whether the command succeeds or fails. *)
Lemma run_shell_runs (env : Env) (command : string) (st : State) :
  exists text,
    run_shell env command st
    = (Ret text, {| trace := trace st ++ [EvExec command]; history := history st |}).
Proof.
  unfold run_shell, execAsync. run_monad.
  destruct (env_exec env (trace st) command); eexists; reflexivity.
Qed.




Lemma state_eta (st : State) :
  {| trace := trace st ++ []; history := history st |} = st.
Proof. destruct st; simpl. now rewrite app_nil_r. Qed.

(** C2 (amended).  Outside dry-run [runCommand] decides as follows.  With
    auto-approve and a non-empty allowlist, the lower-cased first token
    decides: a member runs, a non-member is refused with explanatory text and
    the shell is not invoked.  With auto-approve and an empty allowlist the
    command runs.  Without auto-approve the prompt is taken: an answer that is
    [y] up to letter case runs the command, any other answer is refused and
    the shell is not invoked. *)
Theorem runCommand_approval (env : Env) (self : ToolExecutor) (command : string) (st : State) :
  (autoApproveCommands self = true -> allowlistCommands self <> [] ->
   set_has (allowlistCommands self) (cmdBase command) = true ->
   runs env self command st [])
  /\ (autoApproveCommands self = true -> allowlistCommands self <> [] ->
      set_has (allowlistCommands self) (cmdBase command) = false ->
      refuses env self command st []
        ("Command " ++ dquote ++ cmdBase command ++ dquote
         ++ " not in allowlist. Use --allow " ++ dquote ++ "cmd1,cmd2"
         ++ dquote ++ " to add."))
  /\ (autoApproveCommands self = true -> allowlistCommands self = [] ->
      runs env self command st [])
  /\ (autoApproveCommands self = false ->
      JS.toLowerCase (env_question env (trace st) prompt_text) = "y" ->
      runs env self command st [EvQuestion prompt_text])
  /\ (autoApproveCommands self = false ->
      JS.toLowerCase (env_question env (trace st) prompt_text) <> "y" ->
      refuses env self command st [EvQuestion prompt_text]
        "User denied command execution.").
Proof.
  unfold runs, refuses, runCommand.
  destruct (run_shell_runs env command st) as [text Hrun].
  repeat split.
  - intros Ha Hne Hin. rewrite Ha, Hin.
    destruct (allowlistCommands self) as [|a l] eqn:E; [congruence|].
    cbn. exists text. exact Hrun.
  - intros Ha Hne Hin. rewrite Ha, Hin.
    destruct (allowlistCommands self) as [|a l] eqn:E; [congruence|].
    cbn. now rewrite state_eta.
  - intros Ha He. rewrite Ha, He. cbn. exists text. exact Hrun.
  - intros Ha Hy. rewrite Ha. cbn [andb negb].
    unfold question. run_monad. cbn [trace history].
    fold prompt_text. rewrite Hy. cbn [String.eqb Ascii.eqb Bool.eqb negb].
    cbn.
    destruct (run_shell_runs env command
                {| trace := trace st ++ [EvQuestion prompt_text];
                   history := history st |}) as [text' Hrun'].
    cbn [trace history] in Hrun'. rewrite <- app_assoc in Hrun'.
    exists text'. exact Hrun'.
  - intros Ha Hy. rewrite Ha. cbn [andb negb].
    unfold question. run_monad. cbn [trace history].
    fold prompt_text. apply String.eqb_neq in Hy. rewrite Hy. reflexivity.
Qed.

(** A concrete reading of [runCommand_approval]: with the allowlist [{git}]
    and auto-approve, [git status] runs and [rm -rf /] is refused; without
    auto-approve the answer [n] refuses and the answer [y] runs. *)
Lemma runCommand_approval_witness :
  runs (Sample.env_answer "n") Sample.auto_git "git status" Sample.st0 []
  /\ refuses (Sample.env_answer "n") Sample.auto_git "rm -rf /" Sample.st0 []
       ("Command " ++ dquote ++ "rm" ++ dquote
        ++ " not in allowlist. Use --allow " ++ dquote ++ "cmd1,cmd2"
        ++ dquote ++ " to add.")
  /\ runs (Sample.env_answer "n") Sample.auto "rm -rf /" Sample.st0 []
  /\ runs (Sample.env_answer "y") Sample.manual "ls" Sample.st0
       [EvQuestion prompt_text]
  /\ refuses (Sample.env_answer "n") Sample.manual "ls" Sample.st0
       [EvQuestion prompt_text] "User denied command execution.".
Proof.
  split; [|split; [|split; [|split]]].
  - apply (proj1 (runCommand_approval (Sample.env_answer "n") Sample.auto_git
                    "git status" Sample.st0));
      [reflexivity | vm_compute; discriminate | reflexivity].
  - apply (proj1 (proj2 (runCommand_approval (Sample.env_answer "n")
                           Sample.auto_git "rm -rf /" Sample.st0)));
      [reflexivity | vm_compute; discriminate | reflexivity].
  - apply (proj1 (proj2 (proj2 (runCommand_approval (Sample.env_answer "n")
                                  Sample.auto "rm -rf /" Sample.st0))));
      reflexivity.
  - apply (proj1 (proj2 (proj2 (proj2 (runCommand_approval
             (Sample.env_answer "y") Sample.manual "ls" Sample.st0)))));
      reflexivity.
  - apply (proj2 (proj2 (proj2 (proj2 (runCommand_approval
             (Sample.env_answer "n") Sample.manual "ls" Sample.st0)))));
      [reflexivity | vm_compute; discriminate].
Defined.

(** C2 (counterexample).  Auto-approve is off and the user answers [Y],
    which is not the answer [y]; the command is handed to the shell all the
    same. *)
Lemma runCommand_answer_Y_runs :
  autoApproveCommands Sample.manual = false
  /\ dryRun Sample.manual = false
  /\ env_question (Sample.env_answer "Y") [] prompt_text <> "y"
  /\ runCommand (Sample.env_answer "Y") Sample.manual "ls" Sample.st0
     = (Ret "ran ls",
        {| trace := [EvQuestion prompt_text; EvExec "ls"]; history := [] |}).
Proof.
  repeat split.
  vm_compute. discriminate.
Qed.

(* ----------------------------------------------------------------- *)
(** ** Effects of a computation *)


Lemma frame_ret {A} (P : event -> Prop) (a : A) : frame P (ret a).
Proof.
  intros st. split; [reflexivity|]. exists []. cbn.
  now rewrite app_nil_r.
Qed.

Lemma frame_throw {A} (P : event -> Prop) (e : thrown) : frame P (@throw A e).
Proof.
  intros st. split; [reflexivity|]. exists []. cbn.
  now rewrite app_nil_r.
Qed.

Lemma frame_perform {A} (P : event -> Prop) (ev : event)
    (answer : list event -> outcome A) :
  P ev -> frame P (perform ev answer).
Proof.
  intros HP st. split; [reflexivity|]. exists [ev]. cbn. split; auto.
Qed.

Lemma frame_bind {A B} (P : event -> Prop) (m : M A) (k : A -> M B) :
  frame P m -> (forall a, frame P (k a)) -> frame P (bind m k).
Proof.
  intros Hm Hk st. unfold bind.
  destruct (Hm st) as [Hh [evs [Ht HP]]].
  destruct (m st) as [[a|e] st1] eqn:E; cbn [snd] in *.
  - destruct (Hk a st1) as [Hh' [evs' [Ht' HP']]]. split; [congruence|].
    exists (evs ++ evs')%list. rewrite Ht', Ht, app_assoc. split; [reflexivity|].
    apply Forall_app; auto.
  - split; [assumption|]. exists evs. auto.
Qed.

Lemma frame_try_catch {A} (P : event -> Prop) (m : M A) (h : thrown -> M A) :
  frame P m -> (forall e, frame P (h e)) -> frame P (try_catch m h).
Proof.
  intros Hm Hh st. unfold try_catch.
  destruct (Hm st) as [Hi [evs [Ht HP]]].
  destruct (m st) as [[a|e] st1] eqn:E; cbn [snd] in *.
  - split; [assumption|]. exists evs. auto.
  - destruct (Hh e st1) as [Hi' [evs' [Ht' HP']]]. split; [congruence|].
    exists (evs ++ evs')%list. rewrite Ht', Ht, app_assoc. split; [reflexivity|].
    apply Forall_app; auto.
Qed.

Lemma frame_weaken {A} (P Q : event -> Prop) (m : M A) :
  (forall ev, P ev -> Q ev) -> frame P m -> frame Q m.
Proof.
  intros HPQ Hm st. destruct (Hm st) as [Hh [evs [Ht HP]]].
  split; [assumption|]. exists evs. split; [assumption|].
  eapply Forall_impl; eauto.
Qed.



Lemma returns_throws_objects {A} (m : M A) : returns m -> throws_objects m.
Proof. intros H st. destruct (H st) as [a Ha]. rewrite Ha. discriminate. Qed.

Lemma returns_ret {A} (a : A) : returns (ret a).
Proof. intros st. now exists a. Qed.

Lemma returns_bind {A B} (m : M A) (k : A -> M B) :
  returns m -> (forall a, returns (k a)) -> returns (bind m k).
Proof.
  intros Hm Hk st. unfold bind. destruct (Hm st) as [a Ha].
  destruct (m st) as [[a'|e] st1]; cbn [fst] in Ha; [|discriminate].
  apply Hk.
Qed.

Lemma throws_objects_bind {A B} (m : M A) (k : A -> M B) :
  throws_objects m -> (forall a, throws_objects (k a)) -> throws_objects (bind m k).
Proof.
  intros Hm Hk st. unfold bind. specialize (Hm st).
  destruct (m st) as [[a|e] st1]; cbn [fst] in *; [apply Hk |].
  intros H. apply Hm. now inversion H.
Qed.

Lemma throws_objects_perform {A} (ev : event) (answer : list event -> A + ErrorObject) :
  throws_objects (perform ev (fun tr => of_result (answer tr))).
Proof.
  intros st. cbn. destruct (answer (trace st)); discriminate.
Qed.

Lemma throws_objects_perform_failure (ev : event) (answer : list event -> option ErrorObject) :
  throws_objects (perform ev (fun tr => of_failure (answer tr))).
Proof.
  intros st. cbn. destruct (answer (trace st)); discriminate.
Qed.

(** A handler that reads [e.message] returns whenever [e] is an object. *)
Lemma returns_try_catch_message {A} (m : M A) (h : option string -> M A) :
  throws_objects m -> (forall o, returns (h o)) ->
  returns (try_catch m (fun e => bind (message_of e) h)).
Proof.
  intros Hm Hh st. unfold try_catch. specialize (Hm st).
  destruct (m st) as [[a|[|o]] st1]; cbn [fst] in *.
  - now exists a.
  - congruence.
  - cbn. apply Hh.
Qed.

(* ----------------------------------------------------------------- *)
(** ** auditLog *)

(** [auditLog] always returns: with a path it appends one record, and a
    failure of the append is swallowed; without a path it does nothing. *)
Lemma auditLog_run (env : Env) (path : option string) (entry : AuditEntry) (st : State) :
  auditLog env path entry st
  = (Ret tt,
     {| trace := (trace st
                  ++ (if JS.truthy path
                      then [EvAudit (show path) (record_at env (trace st) entry)]
                      else []))%list;
        history := history st |}).
Proof.
  unfold auditLog. destruct path as [p|]; cbn [JS.truthy negb show].
  - destruct (p =? EmptyString); cbn [negb].
    + cbn. now rewrite app_nil_r; destruct st.
    + run_monad. cbn [trace history]. unfold record_at.
      destruct (env_appendFile env (trace st) p _); reflexivity.
  - cbn. now rewrite app_nil_r; destruct st.
Qed.

Lemma auditLog_returns (env : Env) (path : option string) (entry : AuditEntry) :
  returns (auditLog env path entry).
Proof. intros st. rewrite auditLog_run. now exists tt. Qed.

Lemma auditLog_frame (env : Env) (path : option string) (entry : AuditEntry) :
  frame (fun _ => True) (auditLog env path entry).
Proof.
  intros st. rewrite auditLog_run. cbn [snd trace history]. split; [reflexivity|].
  eexists. split; [reflexivity|]. destruct (JS.truthy path); auto.
Qed.

(* ----------------------------------------------------------------- *)
(** ** The tool methods: what they throw and what they touch *)

Ltac frame_step :=
  first [ apply frame_ret
        | apply frame_throw
        | apply frame_perform; exact I
        | apply frame_bind; [ | intros ? ]
        | apply frame_try_catch; [ | intros ? ] ].

Lemma message_of_frame (P : event -> Prop) (e : thrown) : frame P (message_of e).
Proof. destruct e; cbn; frame_step. Qed.

Lemma run_shell_frame (env : Env) (command : string) :
  frame not_audit (run_shell env command).
Proof.
  unfold run_shell, execAsync. repeat frame_step.
  destruct a; frame_step.
Qed.

Lemma run_shell_returns (env : Env) (command : string) :
  returns (run_shell env command).
Proof.
  intros st. destruct (run_shell_runs env command st) as [text H].
  rewrite H. now exists text.
Qed.

Lemma writeFile_frame (env : Env) (p c : string) : frame not_audit (writeFile env p c).
Proof. unfold writeFile, fs_mkdir, fs_writeFile. repeat frame_step. Qed.

Lemma readFile_frame (env : Env) (p : string) : frame not_audit (readFile env p).
Proof. unfold readFile, fs_readFile. repeat frame_step. Qed.

Lemma createDirectory_frame (env : Env) (p : string) :
  frame not_audit (createDirectory env p).
Proof.
  unfold createDirectory, fs_mkdir. repeat frame_step.
  apply message_of_frame.
Qed.

Lemma editFile_frame (env : Env) (p o n : string) :
  frame not_audit (editFile env p o n).
Proof.
  unfold editFile, fs_readFile, fs_writeFile. repeat frame_step.
  - destruct (negb _); repeat frame_step.
  - apply message_of_frame.
Qed.

Lemma runCommand_frame (env : Env) (self : ToolExecutor) (command : string) :
  frame not_audit (runCommand env self command).
Proof.
  unfold runCommand, question.
  destruct (negb _); [|apply run_shell_frame].
  destruct (_ && _ && _); repeat frame_step.
  destruct (negb _); [frame_step | apply run_shell_frame].
Qed.

Lemma builtin_frame (env : Env) (name : string) (args : json) :
  frame not_audit (builtin env name args).
Proof. unfold builtin. frame_step. Qed.

Lemma dispatch_frame (env : Env) (self : ToolExecutor) (name : string) (args : json) :
  frame not_audit (dispatch env self name args).
Proof.
  unfold dispatch.
  repeat match goal with
         | |- frame _ (if ?b then _ else _) => destruct b
         | |- frame _ (match ?o with Some _ => _ | None => _ end) => destruct o
         end;
    first [ apply builtin_frame | apply writeFile_frame | apply readFile_frame
          | apply runCommand_frame | apply editFile_frame
          | apply createDirectory_frame | frame_step ].
Qed.

Lemma writeFile_throws_objects (env : Env) (p c : string) :
  throws_objects (writeFile env p c).
Proof.
  unfold writeFile, fs_mkdir, fs_writeFile.
  apply throws_objects_bind; [apply throws_objects_perform_failure | intros _].
  apply throws_objects_bind; [apply throws_objects_perform_failure | intros _].
  apply returns_throws_objects, returns_ret.
Qed.

Lemma readFile_throws_objects (env : Env) (p : string) :
  throws_objects (readFile env p).
Proof.
  unfold readFile, fs_readFile.
  apply throws_objects_bind; [apply throws_objects_perform | intros a].
  apply returns_throws_objects, returns_ret.
Qed.

Lemma createDirectory_returns (env : Env) (p : string) :
  returns (createDirectory env p).
Proof.
  unfold createDirectory, fs_mkdir.
  apply returns_try_catch_message; [|intros o; apply returns_ret].
  apply throws_objects_bind; [apply throws_objects_perform_failure | intros _].
  apply returns_throws_objects, returns_ret.
Qed.

Lemma editFile_returns (env : Env) (p o n : string) :
  returns (editFile env p o n).
Proof.
  unfold editFile, fs_readFile, fs_writeFile.
  apply returns_try_catch_message; [|intros m; apply returns_ret].
  apply throws_objects_bind; [apply throws_objects_perform | intros content].
  destruct (negb _); [apply returns_throws_objects, returns_ret|].
  apply throws_objects_bind; [apply throws_objects_perform_failure | intros _].
  apply returns_throws_objects, returns_ret.
Qed.

Lemma runCommand_returns (env : Env) (self : ToolExecutor) (command : string) :
  returns (runCommand env self command).
Proof.
  unfold runCommand, question.
  destruct (negb _); [|apply run_shell_returns].
  destruct (_ && _ && _); [apply returns_ret|].
  apply returns_bind; [intros st; now eexists | intros answer].
  destruct (negb _); [apply returns_ret | apply run_shell_returns].
Qed.

Lemma builtin_throws_objects (env : Env) (name : string) (args : json) :
  throws_objects (builtin env name args).
Proof. unfold builtin. apply throws_objects_perform. Qed.

(** Only a plugin handler can make the [switch] of [execute] reject with
    [null] or [undefined]. *)
Lemma dispatch_throws_objects (env : Env) (self : ToolExecutor) (name : string) (args : json) :
  plugins_throw_objects env -> throws_objects (dispatch env self name args).
Proof.
  intros Hplug. unfold dispatch.
  repeat match goal with
         | |- throws_objects (if ?b then _ else _) => destruct b
         | |- throws_objects (match get_string ?a ?k with Some _ => _ | None => _ end) =>
             destruct (get_string a k)
         end;
    try first [ apply builtin_throws_objects | apply writeFile_throws_objects
              | apply readFile_throws_objects
              | apply returns_throws_objects, runCommand_returns
              | apply returns_throws_objects, editFile_returns
              | apply returns_throws_objects, createDirectory_returns ].
  destruct (env_plugin env name) as [handler|] eqn:E.
  - intros st. cbn. apply (Hplug name handler _ _ E).
  - apply returns_throws_objects, returns_ret.
Qed.

(* ----------------------------------------------------------------- *)
(** ** execute *)

Lemma callId_of_run (env : Env) (call : ToolCall) (st : State) :
  callId_of env call st
  = (Ret (result_id env call st),
     {| trace := (trace st ++ (if JS.truthy (tc_id call) then [] else [EvRandom]))%list;
        history := history st |}).
Proof.
  unfold callId_of, result_id, fresh_call_id.
  destruct (tc_id call) as [i|]; cbn [JS.truthy show].
  - destruct (i =? EmptyString); cbn [negb].
    + reflexivity.
    + cbn. now rewrite app_nil_r; destruct st.
  - reflexivity.
Qed.

(** The control flow of [execute], case by case. *)
Lemma execute_cases (env : Env) (self : ToolExecutor) (call : ToolCall) (st : State) :
  let name := tc_name call in
  let callId := result_id env call st in
  let st1 := snd (callId_of env call st) in
  let log entry s := snd (auditLog env (auditPath self) entry s) in
  execute env self call st
  = match env_JSON_parse env (tc_arguments call) with
    | inr e => (Ret (mkToolResult callId name ("Error parsing arguments: " ++ e)), st1)
    | inl args =>
        if dryRun self then
          let dryMsg := "[DRY-RUN] Would execute: " ++ name ++ "("
                        ++ env_JSON_stringify env args ++ ")" in
          (Ret (mkToolResult callId name dryMsg),
           log (mkAuditEntry name args (Some dryMsg) None) st1)
        else
          match dispatch env self name args st1 with
          | (Ret text, st2) =>
              (Ret (mkToolResult callId name text),
               log (mkAuditEntry name args (Some text) None) st2)
          | (Throw (Obj o), st2) =>
              let text := "Error: " ++ show (e_message o) in
              (Ret (mkToolResult callId name text),
               log (mkAuditEntry name args (Some text) None)
                 (log (mkAuditEntry name args None (e_message o)) st2))
          | (Throw Nullish, st2) =>
              (Throw (Obj (TypeError
                 "Cannot read properties of undefined (reading 'message')")), st2)
          end
    end.
Proof.
  cbv zeta. unfold execute, audit.
  unfold bind at 1. rewrite callId_of_run. cbn [snd].
  set (st1 := {| trace := _; history := _ |}).
  destruct (env_JSON_parse env (tc_arguments call)) as [args|e]; [|reflexivity].
  destruct (dryRun self).
  - unfold bind. rewrite auditLog_run. reflexivity.
  - unfold bind at 1. unfold try_catch.
    destruct (dispatch env self (tc_name call) args st1) as [[text|[|o]] st2].
    + unfold bind. rewrite auditLog_run. reflexivity.
    + reflexivity.
    + cbn [message_of]. unfold bind, ret.
      rewrite !auditLog_run. reflexivity.
Qed.

(** [execute] returns a result whenever no plugin handler rejects with
    [null] or [undefined]. *)
Lemma execute_returns (env : Env) (self : ToolExecutor) (call : ToolCall) :
  plugins_throw_objects env -> returns (execute env self call).
Proof.
  intros Hplug st. rewrite execute_cases. cbv zeta.
  destruct (env_JSON_parse env (tc_arguments call)) as [args|e]; [|eexists; reflexivity].
  destruct (dryRun self); [eexists; reflexivity|].
  pose proof (dispatch_throws_objects env self (tc_name call) args Hplug
                (snd (callId_of env call st))) as Hd.
  destruct (dispatch _ _ _ _ _) as [[text|[|o]] st2]; cbn [fst] in *.
  - eexists; reflexivity.
  - congruence.
  - eexists; reflexivity.
Qed.

(** The result of [execute] carries the name of the call and the id
    [call.id || 'call_' + ...]. *)
Lemma execute_result (env : Env) (self : ToolExecutor) (call : ToolCall)
    (st st' : State) (r : ToolResult) :
  execute env self call st = (Ret r, st') ->
  tr_tool_call_id r = result_id env call st /\ tr_name r = tc_name call.
Proof.
  rewrite execute_cases. cbv zeta.
  destruct (env_JSON_parse env (tc_arguments call)) as [args|e].
  - destruct (dryRun self).
    + intros H; inversion H; subst; now split.
    + destruct (dispatch _ _ _ _ _) as [[text|[|o]] st2];
        intros H; inversion H; subst; now split.
  - intros H; inversion H; subst; now split.
Qed.

Lemma callId_of_frame (env : Env) (call : ToolCall) :
  frame not_audit (callId_of env call).
Proof.
  intros st. rewrite callId_of_run. cbn [snd trace history]. split; [reflexivity|].
  eexists; split; [reflexivity|].
  destruct (JS.truthy _); repeat constructor.
Qed.

(** [execute] does not touch the conversation history. *)
Lemma execute_frame (env : Env) (self : ToolExecutor) (call : ToolCall) :
  frame (fun _ => True) (execute env self call).
Proof.
  unfold execute, audit.
  apply frame_bind;
    [eapply frame_weaken; [|apply callId_of_frame]; auto | intros callId].
  destruct (env_JSON_parse _ _) as [args|e]; [|apply frame_ret].
  destruct (dryRun self).
  - apply frame_bind; [apply auditLog_frame | intros _; apply frame_ret].
  - apply frame_bind.
    + apply frame_try_catch.
      * eapply frame_weaken; [|apply dispatch_frame]; auto.
      * intros e. apply frame_bind; [apply message_of_frame | intros m].
        apply frame_bind; [apply auditLog_frame | intros _; apply frame_ret].
    + intros output.
      apply frame_bind; [apply auditLog_frame | intros _; apply frame_ret].
Qed.

(** An argument-decode failure yields a result with the parser's message. *)
Lemma execute_decode_failure (env : Env) (self : ToolExecutor) (call : ToolCall)
    (st : State) (e : string) :
  env_JSON_parse env (tc_arguments call) = inr e ->
  fst (execute env self call st)
  = Ret {| tr_tool_call_id := result_id env call st;
           tr_name := tc_name call;
           tr_content := "Error parsing arguments: " ++ e |}.
Proof. intros H. rewrite execute_cases. cbv zeta. now rewrite H. Qed.

(** A name that is neither built in nor registered yields a result that
    says so. *)
Lemma execute_unknown_tool (env : Env) (self : ToolExecutor) (call : ToolCall)
    (st : State) (args : json) :
  env_JSON_parse env (tc_arguments call) = inl args ->
  dryRun self = false ->
  is_builtin (tc_name call) = false ->
  env_plugin env (tc_name call) = None ->
  fst (execute env self call st)
  = Ret {| tr_tool_call_id := result_id env call st;
           tr_name := tc_name call;
           tr_content := "Unknown tool: " ++ tc_name call |}.
Proof.
  intros Hp Hd Hb Hn. rewrite execute_cases. cbv zeta. rewrite Hp, Hd.
  unfold is_builtin in Hb. rewrite !orb_false_iff in Hb.
  repeat match goal with H : _ /\ _ |- _ => destruct H end.
  unfold dispatch.
  repeat match goal with H : one_of _ _ = false |- _ => rewrite H; clear H end.
  rewrite Hn. reflexivity.
Qed.

(** An object thrown by the tool yields a result with its message. *)
Lemma execute_tool_exception (env : Env) (self : ToolExecutor) (call : ToolCall)
    (st st2 : State) (args : json) (o : ErrorObject) :
  env_JSON_parse env (tc_arguments call) = inl args ->
  dryRun self = false ->
  dispatch env self (tc_name call) args (snd (callId_of env call st))
  = (Throw (Obj o), st2) ->
  fst (execute env self call st)
  = Ret {| tr_tool_call_id := result_id env call st;
           tr_name := tc_name call;
           tr_content := "Error: " ++ show (e_message o) |}.
Proof.
  intros Hp Hd Hx. rewrite execute_cases. cbv zeta. now rewrite Hp, Hd, Hx.
Qed.

(** The tool names [edit_file] and [patch_file] reach [editFile], and the
    names [run_command], [shell] and [bash] reach [runCommand], with the
    string arguments of the call. *)
Lemma dispatch_edit_file (env : Env) (self : ToolExecutor) (name : string)
    (args : json) (p o n : string) :
  one_of name ["edit_file"; "patch_file"] = true ->
  get_string args "path" = Some p ->
  get_string args "old_text" = Some o ->
  get_string args "new_text" = Some n ->
  dispatch env self name args = editFile env p o n.
Proof.
  intros Hname Hp Ho Hn. unfold dispatch. rewrite Hname, Hp, Ho, Hn.
  unfold one_of in Hname. cbn [existsb] in Hname.
  destruct (name =? "edit_file") eqn:E1.
  - apply String.eqb_eq in E1. subst name. reflexivity.
  - destruct (name =? "patch_file") eqn:E2; [|discriminate Hname].
    apply String.eqb_eq in E2. subst name. reflexivity.
Qed.

Lemma dispatch_run_command (env : Env) (self : ToolExecutor) (name : string)
    (args : json) (command : string) :
  one_of name ["run_command"; "shell"; "bash"] = true ->
  get_string args "command" = Some command ->
  dispatch env self name args = runCommand env self command.
Proof.
  intros Hname Hc. unfold dispatch. rewrite Hname, Hc.
  unfold one_of in Hname. cbn [existsb] in Hname.
  destruct (name =? "run_command") eqn:E1.
  - apply String.eqb_eq in E1. subst name. reflexivity.
  - destruct (name =? "shell") eqn:E2.
    + apply String.eqb_eq in E2. subst name. reflexivity.
    + destruct (name =? "bash") eqn:E3; [|discriminate Hname].
      apply String.eqb_eq in E3. subst name. reflexivity.
Qed.

(** C6 (failing input).  The plugin [deploy] rejects its promise without a
    reason.  [execute] reads [err.message] of [undefined] in its [catch]
    block and rejects with a [TypeError] instead of returning a result. *)
Theorem execute_rejects_on_undefined_rejection :
  execute Sample.env_rejecting_plugin Sample.manual Sample.call_deploy Sample.st0
  = (Throw (Obj (TypeError "Cannot read properties of undefined (reading 'message')")),
     {| trace := [EvPlugin "deploy" (JObj [])]; history := [] |}).
Proof. vm_compute. reflexivity. Qed.

(* ----------------------------------------------------------------- *)
(** ** Audit records of a call *)

Lemma audit_records_app (a b : list event) :
  audit_records (a ++ b) = (audit_records a ++ audit_records b)%list.
Proof.
  induction a as [|ev a IH]; [reflexivity|].
  destruct ev; cbn; now rewrite ?IH.
Qed.

Lemma audit_records_not_audit (evs : list event) :
  Forall not_audit evs -> audit_records evs = [].
Proof.
  induction 1 as [|ev evs Hev _ IH]; [reflexivity|].
  destruct ev; cbn in *; auto. contradiction.
Qed.

Lemma frame_audit_records {A} (m : M A) (st : State) :
  frame not_audit m ->
  audit_records (trace (snd (m st))) = audit_records (trace st).
Proof.
  intros Hm. destruct (Hm st) as [_ [evs [Ht HP]]].
  rewrite Ht, audit_records_app, (audit_records_not_audit evs HP).
  apply app_nil_r.
Qed.

Lemma auditLog_records (env : Env) (p : string) (entry : AuditEntry) (st : State) :
  p <> EmptyString ->
  audit_records (trace (snd (auditLog env (Some p) entry st)))
  = (audit_records (trace st) ++ [record_at env (trace st) entry])%list.
Proof.
  intros Hp. rewrite auditLog_run. cbn [snd trace JS.truthy show].
  apply String.eqb_neq in Hp. rewrite Hp. cbn [negb].
  now rewrite audit_records_app.
Qed.

(** Without an audit path no record is written. *)
Lemma execute_no_audit_path (env : Env) (self : ToolExecutor) (call : ToolCall) (st : State) :
  JS.truthy (auditPath self) = false ->
  audit_records (trace (snd (execute env self call st))) = audit_records (trace st).
Proof.
  intros Hp. rewrite execute_cases. cbv zeta.
  pose proof (frame_audit_records _ st (callId_of_frame env call)) as H1.
  destruct (env_JSON_parse _ _) as [args|e]; [|exact H1].
  destruct (dryRun self).
  - cbn [snd]. rewrite auditLog_run, Hp. cbn [snd trace]. now rewrite app_nil_r.
  - pose proof (frame_audit_records _ (snd (callId_of env call st))
                  (dispatch_frame env self (tc_name call) args)) as H2.
    destruct (dispatch _ _ _ _ _) as [[text|[|o]] st2]; cbn [snd] in *;
      rewrite ?auditLog_run, ?Hp; cbn [snd trace]; rewrite ?app_nil_r; congruence.
Qed.

(** C7 (amended).  For a call past the argument-decode stage, with an audit
    path configured: in dry-run, and when the tool returns, exactly one record
    is written, with the tool name, the arguments, the result, the timestamp
    and the working directory; when the tool throws an object, two records are
    written, the first with the error message and the second with the result
    text [Error: message].  This holds for every environment, so also when the
    append to the audit file fails: the call still returns its result. *)
Theorem execute_audit_records (env : Env) (self : ToolExecutor) (call : ToolCall)
    (args : json) (p : string) (st : State) :
  env_JSON_parse env (tc_arguments call) = inl args ->
  auditPath self = Some p ->
  p <> EmptyString ->
  let name := tc_name call in
  let st1 := snd (callId_of env call st) in
  (dryRun self = true ->
   exists r st',
     execute env self call st = (Ret r, st')
     /\ audit_records (trace st')
        = (audit_records (trace st)
           ++ [record_at env (trace st1)
                 (mkAuditEntry name args (Some (tr_content r)) None)])%list)
  /\ (forall text st2,
        dryRun self = false ->
        dispatch env self name args st1 = (Ret text, st2) ->
        exists r st',
          execute env self call st = (Ret r, st')
          /\ tr_content r = text
          /\ audit_records (trace st')
             = (audit_records (trace st)
                ++ [record_at env (trace st2)
                      (mkAuditEntry name args (Some text) None)])%list)
  /\ (forall o st2,
        dryRun self = false ->
        dispatch env self name args st1 = (Throw (Obj o), st2) ->
        let text := "Error: " ++ show (e_message o) in
        let first := record_at env (trace st2)
                       (mkAuditEntry name args None (e_message o)) in
        exists r st',
          execute env self call st = (Ret r, st')
          /\ tr_content r = text
          /\ audit_records (trace st')
             = (audit_records (trace st)
                ++ [first;
                    record_at env (trace st2 ++ [EvAudit p first])
                      (mkAuditEntry name args (Some text) None)])%list).
Proof.
  intros Hparse Hpath Hp name st1.
  pose proof (frame_audit_records _ st (callId_of_frame env call)) as H1.
  fold st1 in H1.
  assert (Htruthy : JS.truthy (Some p) = true).
  { cbn. apply String.eqb_neq in Hp. now rewrite Hp. }
  split; [|split].
  - intros Hdry. rewrite execute_cases. cbv zeta. rewrite Hparse, Hdry, Hpath.
    eexists; eexists; split; [reflexivity|].
    fold st1. rewrite auditLog_records by assumption. now rewrite H1.
  - intros text st2 Hdry Hd. rewrite execute_cases. cbv zeta.
    rewrite Hparse, Hdry, Hpath. fold st1. fold name. rewrite Hd.
    eexists; eexists; split; [reflexivity|]. split; [reflexivity|].
    rewrite auditLog_records by assumption.
    pose proof (frame_audit_records _ st1 (dispatch_frame env self name args)) as H2.
    rewrite Hd in H2. cbn [snd] in H2. now rewrite H2, H1.
  - intros o st2 Hdry Hd text first. rewrite execute_cases. cbv zeta.
    rewrite Hparse, Hdry, Hpath. fold st1. fold name. rewrite Hd.
    eexists; eexists; split; [reflexivity|]. split; [reflexivity|].
    rewrite auditLog_records by assumption.
    rewrite auditLog_records by assumption.
    rewrite auditLog_run, Htruthy. cbn [snd trace show].
    pose proof (frame_audit_records _ st1 (dispatch_frame env self name args)) as H2.
    rewrite Hd in H2. cbn [snd] in H2. rewrite H2, H1.
    fold first. fold text. now rewrite <- app_assoc.
Qed.

(** [execute_audit_records] on sample calls: a dry run and a tool that
    returns write one record, a [read_file] of a missing file writes two. *)
Lemma execute_audit_records_witness :
  (exists r st',
     execute Sample.env_missing Sample.audited_dry Sample.call_read Sample.st0
     = (Ret r, st')
     /\ List.length (audit_records (trace st')) = 1)
  /\ (exists r st',
        execute Sample.env_missing Sample.audited Sample.call_ls Sample.st0
        = (Ret r, st')
        /\ List.length (audit_records (trace st')) = 1)
  /\ (exists r st',
        execute Sample.env_missing Sample.audited Sample.call_read Sample.st0
        = (Ret r, st')
        /\ List.length (audit_records (trace st')) = 2).
Proof.
  split; [|split].
  - destruct (proj1 (execute_audit_records Sample.env_missing Sample.audited_dry
                       Sample.call_read Sample.args_missing "audit.log" Sample.st0
                       eq_refl eq_refl ltac:(discriminate)) eq_refl)
      as (r & st' & He & Ha).
    exists r, st'. split; [exact He | rewrite Ha; reflexivity].
  - destruct (proj1 (proj2 (execute_audit_records Sample.env_missing Sample.audited
                       Sample.call_ls Sample.args_missing "audit.log" Sample.st0
                       eq_refl eq_refl ltac:(discriminate)))
                "ok" _ eq_refl eq_refl)
      as (r & st' & He & _ & Ha).
    exists r, st'. split; [exact He | rewrite Ha; reflexivity].
  - destruct (proj2 (proj2 (execute_audit_records Sample.env_missing Sample.audited
                       Sample.call_read Sample.args_missing "audit.log" Sample.st0
                       eq_refl eq_refl ltac:(discriminate)))
                _ _ eq_refl eq_refl)
      as (r & st' & He & _ & Ha).
    exists r, st'. split; [exact He | rewrite Ha; reflexivity].
Defined.

(** C7 (counterexample).  The audit file is configured and can be written.
    [read_file] of a missing file throws; the call is past the decode stage
    and its execution writes two audit records, not one. *)
Lemma execute_throwing_tool_two_records :
  env_JSON_parse Sample.env_missing (tc_arguments Sample.call_read)
  = inl Sample.args_missing
  /\ auditPath Sample.audited = Some "audit.log"
  /\ fst (execute Sample.env_missing Sample.audited Sample.call_read Sample.st0)
     = Ret {| tr_tool_call_id := "call_2"; tr_name := "read_file";
              tr_content :=
                "Error: ENOENT: no such file or directory, open '/w/missing.txt'" |}
  /\ List.length
       (audit_records
          (trace (snd (execute Sample.env_missing Sample.audited Sample.call_read
                         Sample.st0)))) = 2.
Proof. repeat split. Qed.

(** A failure of the audit sink is swallowed: the call returns the same
    result as with a sink that works. *)
Example execute_sink_failure_swallowed :
  fst (execute Sample.env_sink_down Sample.audited Sample.call_read Sample.st0)
  = fst (execute Sample.env_missing Sample.audited Sample.call_read Sample.st0).
Proof. reflexivity. Qed.

(* ----------------------------------------------------------------- *)
(** ** The id of a result *)

Lemma startsWith_app (p s : string) : JS.startsWith (p ++ s) p = true.
Proof.
  unfold JS.startsWith. induction p as [|c p IH]; cbn.
  - now destruct s.
  - destruct (ascii_dec c c); [assumption | congruence].
Qed.

(** C10 (amended).  For a call whose id is absent or empty, [execute]
    (no plugin handler rejecting with [null] or [undefined]) returns a result
    whose id is [call_] followed by the text drawn from the random source: it
    is not empty, it starts with [call_], and it is not the id of the call. *)
Theorem execute_generates_id (env : Env) (self : ToolExecutor) (call : ToolCall) (st : State) :
  plugins_throw_objects env ->
  JS.truthy (tc_id call) = false ->
  exists r st',
    execute env self call st = (Ret r, st')
    /\ tr_tool_call_id r = "call_" ++ env_random env (trace st)
    /\ JS.startsWith (tr_tool_call_id r) "call_" = true
    /\ tr_tool_call_id r <> EmptyString
    /\ tc_id call <> Some (tr_tool_call_id r).
Proof.
  intros Hplug Hid.
  destruct (execute_returns env self call Hplug st) as [r Hr].
  destruct (execute env self call st) as [o st'] eqn:E. cbn [fst] in Hr. subst o.
  exists r, st'. split; [reflexivity|].
  destruct (execute_result env self call st st' r E) as [Hi _].
  unfold result_id in Hi. rewrite Hid in Hi. rewrite Hi.
  split; [reflexivity|]. split; [apply startsWith_app|].
  split; [discriminate|].
  intros Heq. rewrite Heq in Hid. discriminate Hid.
Qed.

Lemma base_plugins_throw_objects : plugins_throw_objects Sample.base.
Proof. intros name handler tr args H. discriminate H. Qed.

Lemma execute_generates_id_witness :
  exists r st',
    execute Sample.base Sample.manual Sample.call_no_id Sample.st0 = (Ret r, st')
    /\ tr_tool_call_id r = "call_i"
    /\ JS.startsWith (tr_tool_call_id r) "call_" = true
    /\ tr_tool_call_id r <> EmptyString
    /\ tc_id Sample.call_no_id <> Some (tr_tool_call_id r).
Proof.
  exact (execute_generates_id Sample.base Sample.manual Sample.call_no_id Sample.st0
           base_plugins_throw_objects eq_refl).
Defined.

(** C10 (counterexample).  The assistant message carries a call without an
    id and a call whose id is [call_i]; the random source yields [i] (the
    digits of 0.5 in base 36).  The result of the first call gets the id
    [call_i], which is an id carried by the message. *)
Lemma generated_id_equals_sibling_id :
  tool_calls Sample.two_calls = Some [Sample.call_no_id; Sample.call_sibling]
  /\ tc_id Sample.call_no_id = None
  /\ exists r st',
       execute Sample.base Sample.manual Sample.call_no_id Sample.st0 = (Ret r, st')
       /\ In (Some (tr_tool_call_id r))
            (map tc_id [Sample.call_no_id; Sample.call_sibling]).
Proof.
  split; [reflexivity|]. split; [reflexivity|].
  eexists; eexists. split; [vm_compute; reflexivity|].
  cbn. right. left. reflexivity.
Qed.

(* ----------------------------------------------------------------- *)
(** ** Lines of a stream *)

Lemma split_sep_nonempty (sep cur : string) (skip : nat) (s : string) :
  JS.split_sep sep cur skip s <> [].
Proof.
  revert cur skip. induction s as [|c s IH]; intros cur skip; cbn; [discriminate|].
  destruct skip; [|apply IH].
  match goal with |- (if ?b then _ else _) <> _ => destruct b end;
    [discriminate | apply IH].
Qed.

Lemma split_newline_cons (cur : string) (c : ascii) (s : string) :
  JS.split_sep newline cur 0 (String c s)
  = if Ascii.eqb c (ascii_of_nat 10)
    then cur :: JS.split_sep newline EmptyString 0 s
    else JS.split_sep newline (cur ++ String c EmptyString) 0 s.
Proof.
  cbn [JS.split_sep]. unfold newline at 1. cbn [String.prefix].
  destruct (ascii_dec (ascii_of_nat 10) c) as [E|E].
  - subst c. rewrite Ascii.eqb_refl. now destruct s.
  - destruct (Ascii.eqb c (ascii_of_nat 10)) eqn:Ec; [|reflexivity].
    apply Ascii.eqb_eq in Ec. congruence.
Qed.

(** Cutting a text in two does not change its lines: the last, incomplete
    piece of the first part is continued by the second part. *)
Lemma split_newline_app (a b cur : string) :
  JS.split_sep newline cur 0 (a ++ b)
  = (removelast (JS.split_sep newline cur 0 a)
     ++ JS.split_sep newline (last (JS.split_sep newline cur 0 a) EmptyString) 0 b)%list.
Proof.
  revert cur. induction a as [|c a IH]; intros cur.
  - reflexivity.
  - change (String c a ++ b) with (String c (a ++ b)).
    rewrite !split_newline_cons.
    destruct (Ascii.eqb c (ascii_of_nat 10)).
    + rewrite IH.
      pose proof (split_sep_nonempty newline EmptyString 0 a) as Hne.
      destruct (JS.split_sep newline EmptyString 0 a) as [|x l] eqn:E; [congruence|].
      reflexivity.
    + apply IH.
Qed.

Lemma string_app_assoc (a b c : string) : (a ++ b) ++ c = a ++ (b ++ c).
Proof. induction a as [|x a IH]; [reflexivity|]. cbn. now rewrite IH. Qed.

Lemma string_app_nil_r (a : string) : a ++ EmptyString = a.
Proof. induction a as [|x a IH]; [reflexivity|]. cbn. now rewrite IH. Qed.

Lemma join_app (a b : list string) : join (a ++ b)%list = join a ++ join b.
Proof.
  induction a as [|x a IH]; [reflexivity|].
  change (join ((x :: a) ++ b)%list) with (x ++ join (a ++ b)%list).
  change (join (x :: a)) with (x ++ join a).
  rewrite IH. symmetry. apply string_app_assoc.
Qed.

Lemma split_newline_cur (x y : string) :
  no_newline x ->
  JS.split_sep newline EmptyString 0 (x ++ y) = JS.split_sep newline x 0 y.
Proof. intros Hx. rewrite split_newline_app, Hx. reflexivity. Qed.

Lemma no_newline_snoc (cur : string) (c : ascii) :
  no_newline cur -> Ascii.eqb c (ascii_of_nat 10) = false ->
  no_newline (cur ++ String c EmptyString).
Proof.
  intros Hcur Hc. unfold no_newline.
  rewrite split_newline_cur by assumption.
  rewrite split_newline_cons, Hc. reflexivity.
Qed.

Lemma no_newline_last (s cur : string) :
  no_newline cur ->
  no_newline (last (JS.split_sep newline cur 0 s) EmptyString).
Proof.
  revert cur. induction s as [|c s IH]; intros cur Hcur; [exact Hcur|].
  rewrite split_newline_cons.
  destruct (Ascii.eqb c (ascii_of_nat 10)) eqn:Ec.
  - pose proof (split_sep_nonempty newline EmptyString 0 s) as Hne.
    specialize (IH EmptyString eq_refl).
    destruct (JS.split_sep newline EmptyString 0 s) as [|x l]; [congruence|].
    exact IH.
  - apply IH. now apply no_newline_snoc.
Qed.

(* ----------------------------------------------------------------- *)
(** ** parseStreamResponse *)

Lemma add_chunks_nil (s : State) : add_chunks s [] = s.
Proof. unfold add_chunks. cbn. rewrite app_nil_r. now destruct s. Qed.

Lemma add_chunks_app (s : State) (a b : list string) :
  add_chunks (add_chunks s a) b = add_chunks s (a ++ b).
Proof.
  unfold add_chunks. cbn. now rewrite map_app, app_assoc.
Qed.

Lemma stream_state_eta (st : StreamState) :
  mkStreamState (s_content st) (s_toolCallsAccum st) (s_buffer st) = st.
Proof. now destruct st. Qed.

(** One line: the sink is called with the content fragment of the line's
    delta, and the delta is applied to the local variables. *)
Lemma process_line_run (env : Env) (st : StreamState) (line : string) (s : State) :
  process_line env st line s
  = (Ret (match line_delta env line with
          | Some d => apply_delta st d
          | None => st
          end),
     add_chunks s (match line_delta env line with
                   | Some d => content_of d
                   | None => []
                   end)).
Proof.
  unfold process_line, line_delta.
  destruct (JS.startsWith line "data: " && negb (line =? "data: [DONE]"));
    [|cbn; now rewrite add_chunks_nil].
  destruct (env_decode env (JS.slice_from 6 line)) as [d|];
    [|cbn; now rewrite add_chunks_nil].
  unfold apply_delta, content_of, tool_deltas_of, onChunk.
  destruct (JS.truthy (d_content d)); run_monad; cbn [join fold_right map].
  - rewrite string_app_nil_r. destruct (d_tool_calls d); reflexivity.
  - rewrite string_app_nil_r, add_chunks_nil.
    destruct (d_tool_calls d); cbn; [reflexivity | now rewrite stream_state_eta].
Qed.

Lemma deltas_of_lines_app (env : Env) (a b : list string) :
  deltas_of_lines env (a ++ b) = (deltas_of_lines env a ++ deltas_of_lines env b)%list.
Proof. unfold deltas_of_lines. apply flat_map_app. Qed.

Lemma fragments_app (a b : list Delta) :
  fragments (a ++ b) = (fragments a ++ fragments b)%list.
Proof. unfold fragments. apply flat_map_app. Qed.

Lemma tool_deltas_app (a b : list Delta) :
  tool_deltas (a ++ b) = (tool_deltas a ++ tool_deltas b)%list.
Proof. unfold tool_deltas. apply flat_map_app. Qed.

Lemma process_lines_run (env : Env) (lines : list string) (st : StreamState) (s : State) :
  process_lines env st lines s
  = (Ret (fold_left apply_delta (deltas_of_lines env lines) st),
     add_chunks s (fragments (deltas_of_lines env lines))).
Proof.
  revert st s. induction lines as [|line lines IH]; intros st s.
  - cbn. now rewrite add_chunks_nil.
  - cbn [process_lines]. unfold bind. rewrite process_line_run, IH.
    rewrite add_chunks_app.
    change (deltas_of_lines env (line :: lines))
      with ((match line_delta env line with Some d => [d] | None => [] end)
            ++ deltas_of_lines env lines)%list.
    destruct (line_delta env line) as [d|]; reflexivity.
Qed.

Lemma apply_delta_with_buffer (b : string) (st : StreamState) (d : Delta) :
  apply_delta (with_buffer b st) d = with_buffer b (apply_delta st d).
Proof. reflexivity. Qed.

Lemma fold_apply_delta_with_buffer (b : string) (ds : list Delta) (st : StreamState) :
  fold_left apply_delta ds (with_buffer b st)
  = with_buffer b (fold_left apply_delta ds st).
Proof.
  revert st. induction ds as [|d ds IH]; intros st; [reflexivity|].
  cbn [fold_left]. rewrite apply_delta_with_buffer. apply IH.
Qed.

Lemma fold_apply_delta_buffer (ds : list Delta) (st : StreamState) :
  s_buffer (fold_left apply_delta ds st) = s_buffer st.
Proof.
  revert st. induction ds as [|d ds IH]; intros st; [reflexivity|].
  cbn [fold_left]. now rewrite IH.
Qed.

(** The ['data'] handler processes the lines completed by the chunk. *)
Lemma on_data_run (env : Env) (st : StreamState) (chunk : string) (s : State) :
  let lines := JS.split_sep newline EmptyString 0 (s_buffer st ++ chunk) in
  on_data env st chunk s
  = (Ret (with_buffer (last lines EmptyString)
            (fold_left apply_delta (deltas_of_lines env (removelast lines)) st)),
     add_chunks s (fragments (deltas_of_lines env (removelast lines)))).
Proof.
  cbv zeta. unfold on_data. rewrite process_lines_run.
  change (JS.split (s_buffer st ++ chunk) newline)
    with (JS.split_sep newline EmptyString 0 (s_buffer st ++ chunk)).
  now rewrite <- fold_apply_delta_with_buffer.
Qed.

Lemma last_app_nonempty {A} (a b : list A) (d : A) :
  b <> [] -> last (a ++ b) d = last b d.
Proof.
  intros Hb. induction a as [|x a IH]; [reflexivity|].
  cbn [app]. destruct (a ++ b)%list eqn:E.
  - apply app_eq_nil in E. destruct E; congruence.
  - rewrite <- IH. reflexivity.
Qed.

(** Chunk boundaries do not matter: after any number of chunks, the lines
    processed are the complete lines of the text received so far, and what
    follows the last line feed is kept in the buffer. *)
Lemma on_all_data_run (env : Env) (chunks : list string) (st : StreamState) (s : State) :
  no_newline (s_buffer st) ->
  let lines := JS.split_sep newline EmptyString 0 (s_buffer st ++ join chunks) in
  on_all_data env st chunks s
  = (Ret (with_buffer (last lines EmptyString)
            (fold_left apply_delta (deltas_of_lines env (removelast lines)) st)),
     add_chunks s (fragments (deltas_of_lines env (removelast lines)))).
Proof.
  revert st s. induction chunks as [|chunk chunks IH]; intros st s Hb; cbv zeta.
  - cbn [join fold_right on_all_data]. rewrite string_app_nil_r, Hb.
    cbn. rewrite add_chunks_nil. unfold with_buffer. now rewrite stream_state_eta.
  - cbn [on_all_data]. unfold bind. rewrite on_data_run. cbv zeta.
    set (l1 := JS.split_sep newline EmptyString 0 (s_buffer st ++ chunk)).
    assert (Hl1 : no_newline (last l1 EmptyString))
      by (apply no_newline_last; reflexivity).
    rewrite IH by exact Hl1. cbv zeta. cbn [s_buffer with_buffer].
    change (join (chunk :: chunks)) with (chunk ++ join chunks).
    rewrite <- string_app_assoc.
    rewrite (split_newline_app (s_buffer st ++ chunk) (join chunks)).
    fold l1. rewrite <- (split_newline_cur _ _ Hl1).
    set (l2 := JS.split_sep newline EmptyString 0 (last l1 EmptyString ++ join chunks)).
    assert (Hl2 : l2 <> []) by apply split_sep_nonempty.
    rewrite removelast_app by exact Hl2.
    rewrite last_app_nonempty by exact Hl2.
    rewrite deltas_of_lines_app, fragments_app, fold_left_app, add_chunks_app.
    rewrite fold_apply_delta_with_buffer.
    reflexivity.
Qed.

Lemma fold_apply_delta_content (ds : list Delta) (st : StreamState) :
  s_content (fold_left apply_delta ds st) = s_content st ++ join (fragments ds).
Proof.
  revert st. induction ds as [|d ds IH]; intros st.
  - cbn. now rewrite string_app_nil_r.
  - cbn [fold_left]. rewrite IH. cbn [apply_delta s_content].
    change (fragments (d :: ds)) with (content_of d ++ fragments ds)%list.
    now rewrite join_app, string_app_assoc.
Qed.

Lemma fold_apply_delta_accum (ds : list Delta) (st : StreamState) :
  s_toolCallsAccum (fold_left apply_delta ds st)
  = fold_left accumulate (tool_deltas ds) (s_toolCallsAccum st).
Proof.
  revert st. induction ds as [|d ds IH]; intros st; [reflexivity|].
  cbn [fold_left]. rewrite IH. cbn [apply_delta s_toolCallsAccum].
  change (tool_deltas (d :: ds)) with (tool_deltas_of d ++ tool_deltas ds)%list.
  now rewrite fold_left_app.
Qed.

(** The whole of [parseStreamResponse]: the sink receives the content
    fragments of the stream in arrival order, and the message is built from
    the deltas of the stream. *)
Lemma parseStreamResponse_run (env : Env) (response : Response) (s : State) :
  let ds := stream_deltas env (body_chunks response) in
  exists final,
    s_content final = join (fragments ds)
    /\ s_toolCallsAccum final = fold_left accumulate (tool_deltas ds) []
    /\ parseStreamResponse env response s
       = (match body_error response with
          | Some e => Throw (Obj e)
          | None => Ret (on_end final)
          end,
          add_chunks s (fragments ds)).
Proof.
  cbv zeta. unfold parseStreamResponse, bind.
  fold stream_start.
  rewrite (on_all_data_run env (body_chunks response) stream_start s eq_refl).
  cbv zeta.
  match goal with
  | |- context [on_end ?final] => exists final
  end.
  split; [|split].
  - cbn [with_buffer s_content]. rewrite fold_apply_delta_content. reflexivity.
  - cbn [with_buffer s_toolCallsAccum]. rewrite fold_apply_delta_accum. reflexivity.
  - destruct (body_error response); reflexivity.
Qed.

Lemma sink_calls_app (a b : list event) :
  sink_calls (a ++ b) = (sink_calls a ++ sink_calls b)%list.
Proof.
  induction a as [|ev a IH]; [reflexivity|].
  destruct ev; cbn; now rewrite ?IH.
Qed.

Lemma sink_calls_chunks (cs : list string) : sink_calls (map EvChunk cs) = cs.
Proof. induction cs as [|c cs IH]; [reflexivity|]. cbn. now rewrite IH. Qed.

(** C9.  In streaming mode the content fragments of the deltas are handed to
    the chunk sink one by one, in arrival order, as the chunks come in: after
    any number of chunks the sink has received the fragments of the lines
    completed so far, and these are also what the accumulated content holds.
    When the stream ends, the content of the message is the concatenation of
    the fragments ([null] when it is empty). *)
Theorem stream_content (env : Env) (response : Response) (s : State) :
  body_error response = None ->
  (forall k,
     let ds := stream_deltas env (firstn k (body_chunks response)) in
     exists st,
       on_all_data env stream_start (firstn k (body_chunks response)) s
       = (Ret st, add_chunks s (fragments ds))
       /\ s_content st = join (fragments ds)
       /\ sink_calls (trace (add_chunks s (fragments ds)))
          = (sink_calls (trace s) ++ fragments ds)%list)
  /\ (let ds := stream_deltas env (body_chunks response) in
      exists msg,
        parseStreamResponse env response s = (Ret msg, add_chunks s (fragments ds))
        /\ sink_calls (trace (add_chunks s (fragments ds)))
           = (sink_calls (trace s) ++ fragments ds)%list
        /\ role msg = assistant
        /\ content msg = or_null (join (fragments ds))).
Proof.
  intros Hend. split.
  - intros k ds.
    rewrite (on_all_data_run env _ stream_start s eq_refl). cbv zeta.
    eexists. split; [reflexivity|]. split.
    + cbn [with_buffer s_content]. rewrite fold_apply_delta_content. reflexivity.
    + cbn [add_chunks trace]. now rewrite sink_calls_app, sink_calls_chunks.
  - cbv zeta.
    destruct (parseStreamResponse_run env response s) as (final & Hc & _ & Hrun).
    rewrite Hend in Hrun. exists (on_end final).
    split; [exact Hrun|]. split.
    + cbn [add_chunks trace]. now rewrite sink_calls_app, sink_calls_chunks.
    + split; [reflexivity|]. cbn [on_end content]. now rewrite Hc.
Qed.

(** The scenario of the design document: the deltas [Hello] and [ world]
    call the sink twice, with exactly these fragments, and the content of the
    message is [Hello world]. *)
Lemma stream_content_witness :
  exists msg s',
    parseStreamResponse Sample.env_hello Sample.hello_response Sample.st0
    = (Ret msg, s')
    /\ sink_calls (trace s') = ["Hello"; " world"]
    /\ content msg = Some "Hello world".
Proof.
  destruct (proj2 (stream_content Sample.env_hello Sample.hello_response Sample.st0
                     eq_refl)) as (msg & Hrun & Hsink & _ & Hcontent).
  exists msg. eexists. split; [exact Hrun|]. split.
  - rewrite Hsink. vm_compute. reflexivity.
  - rewrite Hcontent. vm_compute. reflexivity.
Defined.

(* ----------------------------------------------------------------- *)
(** ** Objects keyed by number *)

Section ObjectLemmas.
Context {V : Type}.
Implicit Types (o : list (Z * V)) (k : Z) (v : V).













End ObjectLemmas.








(* ----------------------------------------------------------------- *)
(** ** Accumulation of tool-call deltas *)




















Example stream_tool_calls_sample :
  fst (parseStreamResponse Sample.env_tools Sample.tools_response Sample.st0)
  = Ret {| role := assistant; content := None;
           tool_calls :=
             Some [ {| tc_id := None; tc_name := "unknown"; tc_arguments := "{}" |};
                    {| tc_id := Some "call_b"; tc_name := "read_file";
                       tc_arguments := "{}" |} ];
           tool_call_id := None; name := None |}.
Proof. vm_compute. reflexivity. Qed.

(* ----------------------------------------------------------------- *)
(** ** LLMClient.chat: one attempt *)

(** One attempt makes one request; the only other effects are sink calls. *)
Lemma attempt_once_trace (env : Env) (messages : list Message) (options : ChatOptions)
    (st : State) :
  exists cs,
    snd (attempt_once env messages options st)
    = {| trace := (trace st ++ EvFetch (request_of messages options) :: map EvChunk cs)%list;
         history := history st |}.
Proof.
  unfold attempt_once. fold (request_of messages options).
  unfold bind at 1. unfold perform. cbn [trace history].
  destruct (env_fetch env (trace st) (request_of messages options)) as [response|e];
    cbn [of_result].
  2: { exists []. cbn. reflexivity. }
  destruct (negb (ok response)).
  - exists []. unfold bind, lift, throw. cbn.
    destruct (body_text response); reflexivity.
  - destruct (opt_stream options && opt_onChunk options && has_body response).
    + destruct (parseStreamResponse_run env response
                  {| trace := (trace st ++ [EvFetch (request_of messages options)])%list;
                     history := history st |}) as (final & _ & _ & Hrun).
      rewrite Hrun. cbn [snd].
      exists (fragments (stream_deltas env (body_chunks response))).
      unfold add_chunks. cbn [trace history]. rewrite <- app_assoc. reflexivity.
    + exists []. unfold bind, lift, ret. cbn.
      destruct (body_message response); reflexivity.
Qed.

(** One attempt never rejects with [null] or [undefined]. *)
Lemma attempt_once_throws_objects (env : Env) (messages : list Message)
    (options : ChatOptions) :
  throws_objects (attempt_once env messages options).
Proof.
  unfold attempt_once.
  apply throws_objects_bind; [apply throws_objects_perform | intros response].
  destruct (negb (ok response)).
  - apply throws_objects_bind.
    + intros st. unfold lift. cbn. destruct (body_text response); discriminate.
    + intros text st. cbn. discriminate.
  - destruct (opt_stream options && opt_onChunk options && has_body response).
    + intros st.
      destruct (parseStreamResponse_run env response st) as (final & _ & _ & Hrun).
      rewrite Hrun. cbn. destruct (body_error response); discriminate.
    + apply throws_objects_bind.
      * intros st. unfold lift. cbn. destruct (body_message response); discriminate.
      * intros m. apply returns_throws_objects, returns_ret.
Qed.

(** A response whose status is not 2xx is thrown as [API Error <status>]. *)
Lemma attempt_once_api_error (env : Env) (messages : list Message) (options : ChatOptions)
    (st : State) (response : Response) (text : string) :
  env_fetch env (trace st) (request_of messages options) = inl response ->
  ok response = false ->
  body_text response = inl text ->
  fst (attempt_once env messages options st)
  = Throw (Obj (Error ("API Error " ++ JS.string_of_Z (status response) ++ ": " ++ text))).
Proof.
  intros Hf Hok Ht. unfold attempt_once. fold (request_of messages options).
  unfold bind at 1. unfold perform. rewrite Hf. cbn [of_result].
  rewrite Hok. cbn [negb]. unfold bind, lift, throw. rewrite Ht. reflexivity.
Qed.

(* ----------------------------------------------------------------- *)
(** ** LLMClient.chat: classification of failures *)

Lemma includes_nonempty (m pat : string) :
  JS.includes m pat = true -> pat <> EmptyString -> m <> EmptyString.
Proof.
  intros H Hpat ->. destruct pat; [congruence|]. discriminate H.
Qed.

Lemma retryable_abort (o : ErrorObject) :
  e_name o = Some "AbortError" -> retryable o = true.
Proof. intros H. unfold retryable. rewrite H. reflexivity. Qed.

Lemma retryable_connectivity (o : ErrorObject) (m : string) :
  e_message o = Some m ->
  JS.includes m "ECONNRESET" = true \/ JS.includes m "ETIMEDOUT" = true
  \/ JS.includes m "fetch failed" = true ->
  retryable o = true.
Proof.
  intros Hm H. unfold retryable. rewrite Hm. cbn [show JS.truthy].
  assert (Hne : (m =? EmptyString) = false).
  { apply String.eqb_neq.
    destruct H as [H|[H|H]]; apply (includes_nonempty _ _ H); discriminate. }
  rewrite Hne. cbn [negb andb].
  destruct H as [H|[H|H]]; rewrite H; rewrite ?orb_true_r; reflexivity.
Qed.

Lemma status_5xx_digit (status : Z) :
  (500 <= status <= 599)%Z -> JS.startsWith (JS.string_of_Z status) "5" = true.
Proof.
  intros Hs.
  assert (H : forallb (fun k => JS.startsWith (JS.string_of_Z (500 + Z.of_nat k)) "5")
                (seq 0 100) = true) by (vm_compute; reflexivity).
  rewrite forallb_forall in H.
  specialize (H (Z.to_nat (status - 500))).
  replace (500 + Z.of_nat (Z.to_nat (status - 500)))%Z with status in H by lia.
  apply H. apply in_seq. lia.
Qed.

Lemma prefix_app_r (p s t : string) :
  String.prefix p s = true -> String.prefix p (s ++ t) = true.
Proof.
  revert s. induction p as [|c p IH]; intros s H.
  - now destruct (s ++ t).
  - destruct s as [|c' s]; [discriminate H|].
    cbn [String.append String.prefix] in *.
    destruct (ascii_dec c c'); [now apply IH | discriminate H].
Qed.

Lemma prefix_same_head (a p s : string) :
  String.prefix (a ++ p) (a ++ s) = String.prefix p s.
Proof.
  induction a as [|c a IH]; [reflexivity|].
  cbn [String.append String.prefix].
  destruct (ascii_dec c c); [exact IH | congruence].
Qed.

(** Any 5xx status is classified as retryable. *)
Lemma retryable_5xx (status : Z) (text : string) :
  (500 <= status <= 599)%Z ->
  retryable (Error ("API Error " ++ JS.string_of_Z status ++ ": " ++ text)) = true.
Proof.
  intros Hs. pose proof (status_5xx_digit status Hs) as Hd.
  unfold retryable. cbn [e_name e_message Error show JS.truthy].
  assert (Hstart : JS.startsWith ("API Error " ++ JS.string_of_Z status ++ ": " ++ text)
                     "API Error 5" = true).
  { unfold JS.startsWith in *.
    change "API Error 5" with ("API Error " ++ "5").
    rewrite prefix_same_head. now apply prefix_app_r. }
  rewrite Hstart, !orb_true_r.
  cbn. reflexivity.
Qed.

(* ----------------------------------------------------------------- *)
(** ** LLMClient.chat: the retry loop *)

(** The loop, written by recursion on the number of iterations that remain,
    follows the retry policy stated with the loop counter. *)
Lemma chat_from_retry_run (env : Env) (config : OpenCodeConfig)
    (messages : list Message) (options : ChatOptions)
    (remaining : nat) (attempt : Z) (st : State) :
  Z.of_nat remaining = Z.max 0 (maxRetries config + 1 - attempt) ->
  retry_run env config messages options attempt st
    (fst (chat_from env config remaining attempt messages options st))
    (snd (chat_from env config remaining attempt messages options st)).
Proof.
  revert attempt st. induction remaining as [|r IH]; intros attempt st Hrem.
  - cbn. apply run_no_attempt. lia.
  - assert (Hle : (attempt <= maxRetries config)%Z) by lia.
    cbn [chat_from]. unfold try_catch.
    pose proof (attempt_once_throws_objects env messages options st) as Hobj.
    destruct (attempt_once env messages options st) as [[m|[|o]] st1] eqn:E;
      cbn [fst snd] in *.
    + now apply run_success with (1 := Hle).
    + congruence.
    + cbn [isRetryable]. unfold bind at 1. unfold ret at 1.
      destruct (attempt <? maxRetries config)%Z eqn:Hlt; cbn [andb].
      * destruct (retryable o) eqn:Hr.
        -- unfold bind, sleep, perform. cbn [trace history].
           apply Z.ltb_lt in Hlt.
           eapply run_retry; [exact Hlt | exact E | exact Hr |].
           apply IH. lia.
        -- cbn. now apply run_not_retryable with (1 := Hle).
      * apply Z.ltb_ge in Hlt. cbn.
        destruct (retryable o) eqn:Hr.
        -- apply run_exhausted; [lia | exact E | exact Hr].
        -- now apply run_not_retryable with (1 := Hle).
Qed.

Lemma fetches_app (a b : list event) : fetches (a ++ b) = fetches a + fetches b.
Proof.
  induction a as [|ev a IH]; [reflexivity|].
  destruct ev; cbn; now rewrite ?IH.
Qed.

Lemma sleeps_app (a b : list event) : sleeps (a ++ b) = (sleeps a ++ sleeps b)%list.
Proof.
  induction a as [|ev a IH]; [reflexivity|].
  destruct ev; cbn; now rewrite ?IH.
Qed.

Lemma fetches_chunks (cs : list string) : fetches (map EvChunk cs) = 0.
Proof. induction cs; [reflexivity | exact IHcs]. Qed.

Lemma sleeps_chunks (cs : list string) : sleeps (map EvChunk cs) = [].
Proof. induction cs; [reflexivity | exact IHcs]. Qed.

(** Requests and pauses of a run: at most [maxRetries + 1 - attempt]
    requests, and before each request but the first a pause of [delay] of the
    number of the attempt that failed. *)
Lemma retry_run_trace (env : Env) (config : OpenCodeConfig)
    (messages : list Message) (options : ChatOptions)
    (attempt : Z) (st : State) (res : outcome Message) (st' : State) :
  retry_run env config messages options attempt st res st' ->
  exists evs,
    trace st' = (trace st ++ evs)%list
    /\ history st' = history st
    /\ (Z.of_nat (fetches evs) <= Z.max 0 (maxRetries config + 1 - attempt))%Z
    /\ ((attempt <= maxRetries config)%Z -> 1 <= fetches evs)
    /\ sleeps evs = delays_from attempt (fetches evs - 1).
Proof.
  assert (Hone : forall attempt st o st1,
            (attempt <= maxRetries config)%Z ->
            attempt_once env messages options st = (o, st1) ->
            exists evs,
              trace st1 = (trace st ++ evs)%list
              /\ history st1 = history st
              /\ (Z.of_nat (fetches evs) <= Z.max 0 (maxRetries config + 1 - attempt))%Z
              /\ ((attempt <= maxRetries config)%Z -> 1 <= fetches evs)
              /\ sleeps evs = delays_from attempt (fetches evs - 1)
              /\ fetches evs = 1 /\ sleeps evs = []).
  { intros a s o s1 Hle E.
    destruct (attempt_once_trace env messages options s) as [cs Hcs].
    rewrite E in Hcs. cbn [snd] in Hcs. subst s1. cbn [trace history].
    exists (EvFetch (request_of messages options) :: map EvChunk cs).
    cbn [fetches sleeps]. rewrite fetches_chunks, sleeps_chunks.
    repeat split; cbn; try reflexivity; lia. }
  induction 1 as [attempt st Hlt
                 | attempt st m st1 Hle E
                 | attempt st o st1 Hle E Hr
                 | attempt st o st1 Heq E Hr
                 | attempt st o st1 res st' Hlt E Hr Hrun IH].
  - exists []. rewrite app_nil_r. cbn. repeat split; lia.
  - destruct (Hone _ _ _ _ Hle E) as (evs & H1 & H2 & H3 & H4 & H5 & _).
    exists evs. auto.
  - destruct (Hone _ _ _ _ Hle E) as (evs & H1 & H2 & H3 & H4 & H5 & _).
    exists evs. auto.
  - assert (Hle : (attempt <= maxRetries config)%Z) by lia.
    destruct (Hone _ _ _ _ Hle E) as (evs & H1 & H2 & H3 & H4 & H5 & _).
    exists evs. auto.
  - assert (Hle : (attempt <= maxRetries config)%Z) by lia.
    destruct (Hone _ _ _ _ Hle E) as (evs & H1 & H2 & _ & _ & _ & Hf & Hs).
    destruct IH as (evs' & I1 & I2 & I3 & I4 & I5).
    cbn [trace history] in I1, I2.
    exists (evs ++ EvSleep (delay attempt) :: evs')%list.
    assert (Hge : 1 <= fetches evs') by (apply I4; lia).
    rewrite fetches_app, sleeps_app. cbn [fetches sleeps]. rewrite Hf, Hs.
    split; [rewrite I1, H1, <- !app_assoc; reflexivity|].
    split; [congruence|]. split; [lia|]. split; [lia|].
    cbn [app]. rewrite I5.
    replace (1 + fetches evs' - 1) with (S (fetches evs' - 1)) by lia.
    reflexivity.
Qed.

Lemma llm_chat_run (env : Env) (config : OpenCodeConfig)
    (messages : list Message) (options : ChatOptions) (st : State) :
  retry_run env config messages options 0 st
    (fst (llm_chat env config messages options st))
    (snd (llm_chat env config messages options st)).
Proof. unfold llm_chat. apply chat_from_retry_run. lia. Qed.

(** The retry policy that [chat] follows: starting with attempt
    0, a failure is retried only when it is classified as retryable and fewer
    than [maxRetries] retries were made, after a pause of
    [min(1000 * 2^attempt, 10000)] ms; a failure that is not classified as
    retryable is thrown at its first occurrence, and a retryable failure of
    the last attempt is thrown too.  So at most [maxRetries + 1] requests are
    made ([maxRetries] is 3 by default).  The classification reads the name
    and the message of the error: the name [AbortError], a message that
    mentions ECONNRESET, ETIMEDOUT or [fetch failed], and a message that
    starts with [API Error 5] (so any 5xx status) are retryable; a 404 with the
    body [Not Found] is not. *)
Theorem chat_retry_policy (env : Env) (config : OpenCodeConfig)
    (messages : list Message) (options : ChatOptions) (st : State) :
  let r := llm_chat env config messages options st in
  retry_run env config messages options 0 st (fst r) (snd r)
  /\ (exists evs,
        trace (snd r) = (trace st ++ evs)%list
        /\ history (snd r) = history st
        /\ (Z.of_nat (fetches evs) <= Z.max 0 (maxRetries config + 1))%Z
        /\ sleeps evs = delays_from 0 (fetches evs - 1))
  /\ (forall attempt, delay attempt = Z.min (1000 * 2 ^ attempt) 10000)
  /\ (retries config = None -> maxRetries config = 3%Z)
  /\ (forall o, e_name o = Some "AbortError" -> retryable o = true)
  /\ (forall o m,
        e_message o = Some m ->
        JS.includes m "ECONNRESET" = true \/ JS.includes m "ETIMEDOUT" = true
        \/ JS.includes m "fetch failed" = true ->
        retryable o = true)
  /\ (forall status text,
        (500 <= status <= 599)%Z ->
        retryable (Error ("API Error " ++ JS.string_of_Z status ++ ": " ++ text)) = true)
  /\ retryable (Error "API Error 404: Not Found") = false.
Proof.
  cbv zeta.
  assert (Hrun : retry_run env config messages options 0 st
                   (fst (llm_chat env config messages options st))
                   (snd (llm_chat env config messages options st))).
  { apply llm_chat_run. }
  split; [exact Hrun|]. split.
  - destruct (retry_run_trace _ _ _ _ _ _ _ _ Hrun) as (evs & H1 & H2 & H3 & _ & H5).
    exists evs. rewrite Z.sub_0_r in H3. auto.
  - split; [reflexivity|]. split; [intros H; unfold maxRetries; now rewrite H|].
    split; [exact retryable_abort|]. split; [exact retryable_connectivity|].
    split; [exact retryable_5xx|]. vm_compute. reflexivity.
Qed.

(** [chat_retry_policy] on a server that answers 500 and then 200, with
    three retries configured: the call succeeds with two requests and one
    pause of 1000 ms between them. *)
Lemma chat_retry_policy_witness :
  fst (llm_chat Sample.env_500_then_200 Sample.config3 [] Sample.no_options Sample.st0)
  = Ret {| role := assistant; content := Some "done"; tool_calls := None;
           tool_call_id := None; name := None |}
  /\ exists evs,
       trace (snd (llm_chat Sample.env_500_then_200 Sample.config3 []
                     Sample.no_options Sample.st0)) = evs
       /\ fetches evs = 2
       /\ sleeps evs = [1000%Z].
Proof.
  split; [vm_compute; reflexivity|].
  destruct (proj1 (proj2 (chat_retry_policy Sample.env_500_then_200 Sample.config3 []
                            Sample.no_options Sample.st0)))
    as (evs & H1 & _ & _ & H5).
  exists evs. split; [exact H1|].
  assert (Hf : fetches evs = 2).
  { cbn [Sample.st0 trace app] in H1. rewrite <- H1. vm_compute. reflexivity. }
  split; [exact Hf|]. rewrite H5, Hf. vm_compute. reflexivity.
Defined.

(* ----------------------------------------------------------------- *)
(** ** Agent.chat *)

Lemma attempt_once_role (env : Env) (messages : list Message) (options : ChatOptions)
    (st st1 : State) (m : Message) :
  attempt_once env messages options st = (Ret m, st1) -> role m = assistant.
Proof.
  unfold attempt_once. unfold bind at 1. unfold perform.
  destruct (env_fetch env (trace st) _) as [response|e]; cbn [of_result];
    [|discriminate].
  destruct (negb (ok response)).
  - unfold bind, lift, throw. destruct (body_text response); discriminate.
  - destruct (opt_stream options && opt_onChunk options && has_body response).
    + match goal with
      | |- parseStreamResponse env response ?s = _ -> _ =>
          destruct (parseStreamResponse_run env response s) as (final & _ & _ & Hrun)
      end.
      rewrite Hrun. destruct (body_error response); [discriminate|].
      intros H; inversion H; reflexivity.
    + unfold bind, lift, ret. destruct (body_message response); cbn; [|discriminate].
      intros H; inversion H; reflexivity.
Qed.

(** What [llm.chat] returns is an assistant message. *)
Lemma llm_chat_role (env : Env) (config : OpenCodeConfig) (messages : list Message)
    (options : ChatOptions) (st st' : State) (m : Message) :
  llm_chat env config messages options st = (Ret m, st') -> role m = assistant.
Proof.
  intros H.
  pose proof (llm_chat_run env config messages options st) as Hrun.
  rewrite H in Hrun. cbn [fst snd] in Hrun. clear H.
  remember (Ret m) as res eqn:Hres. revert Hres.
  induction Hrun; intros Hres; try discriminate.
  - inversion Hres; subst. eapply attempt_once_role; eauto.
  - auto.
Qed.

Lemma llm_chat_history (env : Env) (config : OpenCodeConfig) (messages : list Message)
    (options : ChatOptions) (st : State) :
  history (snd (llm_chat env config messages options st)) = history st.
Proof.
  destruct (retry_run_trace _ _ _ _ _ _ _ _ (llm_chat_run env config messages options st))
    as (evs & _ & H & _).
  exact H.
Qed.

Lemma execute_history (env : Env) (self : ToolExecutor) (call : ToolCall) (st : State) :
  history (snd (execute env self call st)) = history st.
Proof. apply (execute_frame env self call st). Qed.

Lemma execute_answers (env : Env) (self : ToolExecutor) (call : ToolCall)
    (st st' : State) (r : ToolResult) :
  execute env self call st = (Ret r, st') -> answers call r.
Proof.
  intros H. destruct (execute_result env self call st st' r H) as [Hid Hname].
  split; [exact Hname|]. unfold result_id in Hid.
  destruct (JS.truthy (tc_id call)) eqn:E.
  - destruct (tc_id call) as [i|]; [|discriminate E]. cbn in Hid. now rewrite Hid.
  - eexists. exact Hid.
Qed.

Lemma run_tools_cons (env : Env) (self : Agent) (call : ToolCall)
    (calls : list ToolCall) (st : State) :
  run_tools env self (call :: calls) st
  = match execute env (tools self) call st with
    | (Ret r, st1) =>
        run_tools env self calls
          {| trace := trace st1;
             history := (history st1 ++ [tool_message r])%list |}
    | (Throw e, st1) => (Throw e, st1)
    end.
Proof.
  cbn [run_tools]. unfold bind, push_history.
  destruct (execute env (tools self) call st) as [[r|e] st1]; reflexivity.
Qed.

(** The loop over the tool calls of a response: one tool message is
    appended per call, in order, up to the call whose dispatch throws. *)
Lemma run_tools_shape (env : Env) (self : Agent) (calls : list ToolCall) (st : State) :
  exists results,
    history (snd (run_tools env self calls st))
    = (history st ++ map tool_message results)%list
    /\ Forall2 answers (firstn (List.length results) calls) results
    /\ (is_ret (fst (run_tools env self calls st)) ->
        List.length results = List.length calls).
Proof.
  revert st. induction calls as [|call calls IH]; intros st.
  - exists []. cbn. rewrite app_nil_r. repeat split. constructor.
  - rewrite run_tools_cons.
    pose proof (execute_history env (tools self) call st) as Hh.
    destruct (execute env (tools self) call st) as [[r|e] st1] eqn:E; cbn [snd] in Hh.
    + set (st2 := {| trace := trace st1; history := (history st1 ++ [tool_message r])%list |}).
      destruct (IH st2) as (results & H1 & H2 & H3).
      exists (r :: results). split; [|split].
      * rewrite H1. subst st2. cbn [history]. rewrite Hh, <- app_assoc. reflexivity.
      * cbn [List.length firstn]. constructor; [|exact H2].
        eapply execute_answers; eauto.
      * intros Hret. cbn [List.length]. f_equal. now apply H3.
    + exists []. cbn. rewrite app_nil_r. repeat split; [exact Hh | constructor | tauto].
Qed.

Lemma chat_steps_succ (env : Env) (self : Agent) (r : nat)
    (options : AgentChatOptions) (st : State) :
  chat_steps env self (S r) options st
  = match llm_chat env (llm self) (history st) (chatOpts self options) st with
    | (Throw e, st1) => (Throw e, st1)
    | (Ret response, st1) =>
        let st2 := {| trace := trace st1;
                      history := (history st1 ++ [response])%list |} in
        match tool_calls response with
        | Some (c :: cs) =>
            match run_tools env self (c :: cs) st2 with
            | (Ret _, st3) => chat_steps env self r options st3
            | (Throw e, st3) => (Throw e, st3)
            end
        | _ => (Ret (Some (or_else (content response) EmptyString)), st2)
        end
    end.
Proof.
  cbn [chat_steps]. unfold bind, get_history, push_history.
  destruct (llm_chat env (llm self) (history st) (chatOpts self options) st)
    as [[response|e] st1]; [|reflexivity].
  cbv zeta.
  destruct (tool_calls response) as [[|c cs]|]; reflexivity.
Qed.

Lemma removelast_cons_complete (b : Step) (steps : list Step) :
  step_complete b ->
  Forall step_complete (removelast steps) ->
  Forall step_complete (removelast (b :: steps)).
Proof.
  intros Hb Hs. destruct steps as [|b' steps']; [constructor|].
  change (removelast (b :: b' :: steps')) with (b :: removelast (b' :: steps')).
  now constructor.
Qed.

(** The history after the step loop: a sequence of steps, each an assistant
    message followed by the results of its tool calls, in order; every step
    but the last is complete, and the last is complete too unless the loop
    was left by an exception. *)
Lemma chat_steps_shape (env : Env) (self : Agent) (options : AgentChatOptions)
    (n : nat) (st : State) :
  exists steps,
    history (snd (chat_steps env self n options st))
    = (history st ++ flat_map step_messages steps)%list
    /\ Forall step_ok steps
    /\ Forall step_complete (removelast steps)
    /\ (is_ret (fst (chat_steps env self n options st)) -> Forall step_complete steps)
    /\ List.length steps <= n.
Proof.
  revert st. induction n as [|n IH]; intros st.
  - exists []. cbn. rewrite app_nil_r. repeat split; constructor.
  - rewrite chat_steps_succ.
    pose proof (llm_chat_history env (llm self) (history st) (chatOpts self options) st)
      as Hh.
    destruct (llm_chat env (llm self) (history st) (chatOpts self options) st)
      as [[response|e] st1] eqn:E; cbn [snd] in Hh.
    2: { exists []. cbn. rewrite app_nil_r. split; [exact Hh|].
         split; [constructor|]. split; [constructor|]. split; [tauto | lia]. }
    pose proof (llm_chat_role _ _ _ _ _ _ _ E) as Hrole.
    cbv zeta.
    set (st2 := {| trace := trace st1; history := (history st1 ++ [response])%list |}).
    assert (Hfinal : forall text,
              calls_of response = [] ->
              exists steps,
                history (snd (Ret (Some text), st2))
                = (history st ++ flat_map step_messages steps)%list
                /\ Forall step_ok steps
                /\ Forall step_complete (removelast steps)
                /\ (is_ret (@fst (outcome (option string)) State (Ret (Some text), st2)) ->
                    Forall step_complete steps)
                /\ List.length steps <= S n).
    { intros text Hcalls. exists [(response, [])]. cbn [snd st2 history].
      split; [cbn; now rewrite Hh|].
      split; [repeat constructor; cbn; auto|].
      split; [constructor|].
      split; [intros _; repeat constructor; unfold step_complete; cbn; now rewrite Hcalls|].
      cbn. lia. }
    destruct (tool_calls response) as [[|c cs]|] eqn:Hcalls.
    + apply Hfinal. unfold calls_of. now rewrite Hcalls.
    + destruct (run_tools_shape env self (c :: cs) st2) as (results & H1 & H2 & H3).
      assert (Hok : step_ok (response, results)).
      { split; [exact Hrole|]. cbn [fst snd]. unfold calls_of. now rewrite Hcalls. }
      destruct (run_tools env self (c :: cs) st2) as [[[]|e] st3] eqn:Erun;
        cbn [fst snd] in H1, H3.
      * destruct (IH st3) as (steps & I1 & I2 & I3 & I4 & I5).
        assert (Hcomplete : step_complete (response, results)).
        { unfold step_complete. cbn [fst snd]. unfold calls_of. rewrite Hcalls.
          now apply H3. }
        exists ((response, results) :: steps).
        split; [|split; [|split; [|split]]].
        -- rewrite I1, H1. subst st2. cbn [history flat_map step_messages fst snd].
           rewrite Hh, <- !app_assoc. reflexivity.
        -- now constructor.
        -- now apply removelast_cons_complete.
        -- intros Hret. constructor; [exact Hcomplete | now apply I4].
        -- cbn. lia.
      * exists [(response, results)].
        split; [|split; [|split; [|split]]].
        -- cbn [snd]. rewrite H1. subst st2.
           cbn [history flat_map step_messages fst snd].
           rewrite Hh, app_nil_r, <- !app_assoc. reflexivity.
        -- constructor; [exact Hok | constructor].
        -- constructor.
        -- cbn. tauto.
        -- cbn. lia.
    + apply Hfinal. unfold calls_of. now rewrite Hcalls.
Qed.

Lemma chat_unfold (env : Env) (self : Agent) (userInput : string)
    (options : AgentChatOptions) (st : State) :
  chat env self userInput options st
  = chat_steps env self maxSteps options
      {| trace := trace st; history := (history st ++ [user_message userInput])%list |}.
Proof. reflexivity. Qed.
















(** C5 (failing input).  Every answer of the server carries a tool call,
    for the plugin tool [deploy], whose handler rejects without a reason.
    The turn does not make 10 steps: the first [execute] throws a
    [TypeError] (the defect of C6: [err.message] on [undefined] in the
    [catch] block), [chat] throws it, and the history ends with the
    assistant message of the first step, with no tool message after it. *)
Theorem chat_throws_when_plugin_rejects :
  let r := chat env_always_deploy Sample.agent "hi" Sample.plain Sample.st0 in
  (forall tr req,
     env_fetch env_always_deploy tr req
     = inl (Sample.response_calls [Sample.call_deploy]))
  /\ fst r
     = Throw (Obj (TypeError "Cannot read properties of undefined (reading 'message')"))
  /\ history (snd r)
     = [user_message "hi";
        {| role := assistant; content := None;
           tool_calls := Some [Sample.call_deploy];
           tool_call_id := None; name := None |}]
  /\ fetches (trace (snd r)) = 1.
Proof.
  cbv zeta. split; [reflexivity|]. vm_compute. repeat split.
Qed.

Example chat_step_bound_sample :
  fst (chat Sample.env_always_tools Sample.agent "hi" Sample.plain Sample.st0)
  = Ret None
  /\ List.length
       (history (snd (chat Sample.env_always_tools Sample.agent "hi" Sample.plain
                        Sample.st0))) = 21.
Proof. split; vm_compute; reflexivity. Qed.


(** A 4xx that is retried.  The first request is answered with status 400 and
    the body [upstream fetch failed].  The failure is a 4xx status, yet its
    message contains [fetch failed], so it is classified as retryable: it does
    not propagate, the client pauses 1000 ms, sends the request again and
    returns the second answer. *)
Lemma chat_retries_a_400 :
  status Sample.response_400 = 400%Z
  /\ fst (attempt_once Sample.env_400_then_200 [] Sample.no_options Sample.st0)
     = Throw (Obj (Error "API Error 400: upstream fetch failed"))
  /\ retryable (Error "API Error 400: upstream fetch failed") = true
  /\ llm_chat Sample.env_400_then_200 Sample.config3 [] Sample.no_options Sample.st0
     = (Ret {| role := assistant; content := Some "done"; tool_calls := None;
               tool_call_id := None; name := None |},
        {| trace := [EvFetch (request_of [] Sample.no_options); EvSleep 1000;
                     EvFetch (request_of [] Sample.no_options)];
           history := [] |}).
Proof. repeat split. Qed.

(** C3 (failing input).  The server refuses the connection: node-fetch
    throws a [FetchError] whose message ends in
    [connect ECONNREFUSED 127.0.0.1:5000].  With three retries configured
    [chat] sends one request and throws the error at once, without a pause:
    the connection failure is not classified as retryable, since the message
    holds none of [ECONNRESET], [ETIMEDOUT] and [fetch failed].  A
    connection that is reset, the sibling case, is retried three times,
    after pauses of 1, 2 and 4 seconds. *)
Theorem chat_does_not_retry_a_refused_connection :
  let refused := llm_chat env_refused Sample.config3 [] Sample.no_options Sample.st0 in
  let reset := llm_chat env_reset Sample.config3 [] Sample.no_options Sample.st0 in
  retryable refused_error = false
  /\ fst refused = Throw (Obj refused_error)
  /\ fetches (trace (snd refused)) = 1
  /\ sleeps (trace (snd refused)) = []
  /\ retryable reset_error = true
  /\ fst reset = Throw (Obj reset_error)
  /\ fetches (trace (snd reset)) = 4
  /\ sleeps (trace (snd reset)) = [1000; 2000; 4000]%Z.
Proof. vm_compute. repeat split. Qed.


(* ================================================================= *)
(** * Further properties *)

(* ----------------------------------------------------------------- *)
(** ** What the tool methods touch *)

Ltac native_step :=
  first [ apply frame_ret
        | apply frame_throw
        | apply frame_perform; exact I
        | apply frame_bind; [ | intros ? ]
        | apply frame_try_catch; [ | intros ? ]
        | apply message_of_frame ].

Lemma run_shell_native (env : Env) (command : string) :
  frame native_effect (run_shell env command).
Proof.
  unfold run_shell, execAsync. repeat native_step.
  destruct a; native_step.
Qed.

Lemma writeFile_native (env : Env) (p c : string) :
  frame native_effect (writeFile env p c).
Proof. unfold writeFile, fs_mkdir, fs_writeFile. repeat native_step. Qed.

Lemma readFile_native (env : Env) (p : string) :
  frame native_effect (readFile env p).
Proof. unfold readFile, fs_readFile. repeat native_step. Qed.

Lemma createDirectory_native (env : Env) (p : string) :
  frame native_effect (createDirectory env p).
Proof. unfold createDirectory, fs_mkdir. repeat native_step. Qed.

Lemma editFile_native (env : Env) (p o n : string) :
  frame native_effect (editFile env p o n).
Proof.
  unfold editFile, fs_readFile, fs_writeFile. repeat native_step.
  destruct (negb _); repeat native_step.
Qed.

Lemma runCommand_native (env : Env) (self : ToolExecutor) (command : string) :
  frame native_effect (runCommand env self command).
Proof.
  unfold runCommand, question.
  destruct (negb _); [|apply run_shell_native].
  destruct (_ && _ && _); repeat native_step.
  destruct (negb _); [native_step | apply run_shell_native].
Qed.

Lemma builtin_native (env : Env) (name : string) (args : json) :
  frame native_effect (builtin env name args).
Proof. unfold builtin. native_step. Qed.

(** For a built-in name the [switch] never reaches its [default] branch. *)
Lemma dispatch_native (env : Env) (self : ToolExecutor) (name : string) (args : json) :
  is_builtin name = true -> frame native_effect (dispatch env self name args).
Proof.
  intros Hb. unfold dispatch. unfold is_builtin in Hb.
  repeat match goal with
         | |- frame _ (if ?b then _ else _) => destruct b eqn:?
         | |- frame _ (match get_string ?a ?k with Some _ => _ | None => _ end) =>
             destruct (get_string a k)
         end;
    try first [ apply builtin_native | apply writeFile_native | apply readFile_native
              | apply runCommand_native | apply editFile_native
              | apply createDirectory_native ].
  cbn in Hb. discriminate Hb.
Qed.

Lemma dispatch_tool_effect (env : Env) (self : ToolExecutor) (name : string) (args : json) :
  frame tool_effect (dispatch env self name args).
Proof.
  assert (Hw : forall ev, native_effect ev -> tool_effect ev)
    by (intros []; cbn; auto).
  unfold dispatch.
  repeat match goal with
         | |- frame _ (if ?b then _ else _) => destruct b
         | |- frame _ (match get_string ?a ?k with Some _ => _ | None => _ end) =>
             destruct (get_string a k)
         end;
    try (eapply frame_weaken; [exact Hw|];
         first [ apply builtin_native | apply writeFile_native | apply readFile_native
               | apply runCommand_native | apply editFile_native
               | apply createDirectory_native ]).
  destruct (env_plugin env name); [apply frame_perform; exact I | apply frame_ret].
Qed.

Lemma callId_of_bookkeeping (env : Env) (call : ToolCall) :
  frame bookkeeping (callId_of env call).
Proof.
  intros st. rewrite callId_of_run. cbn [snd trace history]. split; [reflexivity|].
  eexists; split; [reflexivity|].
  destruct (JS.truthy _); repeat constructor.
Qed.

Lemma auditLog_bookkeeping (env : Env) (path : option string) (entry : AuditEntry) :
  frame bookkeeping (auditLog env path entry).
Proof.
  intros st. rewrite auditLog_run. cbn [snd trace history]. split; [reflexivity|].
  eexists. split; [reflexivity|]. destruct (JS.truthy path); repeat constructor.
Qed.

(** The effects of [execute] are its bookkeeping and the effects of the
    tool it dispatches to. *)
Lemma execute_frame_of (P : event -> Prop) (env : Env) (self : ToolExecutor)
    (call : ToolCall) :
  (forall ev, bookkeeping ev -> P ev) ->
  (forall args, frame P (dispatch env self (tc_name call) args)) ->
  frame P (execute env self call).
Proof.
  intros Hb Hd. unfold execute, audit.
  apply frame_bind;
    [eapply frame_weaken; [exact Hb | apply callId_of_bookkeeping] | intros callId].
  destruct (env_JSON_parse _ _) as [args|e]; [|apply frame_ret].
  assert (Ha : forall entry, frame P (auditLog env (auditPath self) entry))
    by (intros entry; eapply frame_weaken; [exact Hb | apply auditLog_bookkeeping]).
  destruct (dryRun self).
  - apply frame_bind; [apply Ha | intros _; apply frame_ret].
  - apply frame_bind.
    + apply frame_try_catch; [apply Hd|].
      intros e. apply frame_bind; [apply message_of_frame | intros m].
      apply frame_bind; [apply Ha | intros _; apply frame_ret].
    + intros output.
      apply frame_bind; [apply Ha | intros _; apply frame_ret].
Qed.

(* ----------------------------------------------------------------- *)
(** ** execute: dry run, decode failure, plugins, audit path *)

(** X1.  In dry-run mode [execute] returns a result for every call and
    applies no effect: whatever the tool name and the arguments, nothing is
    read, written, created, asked, run or handed to a plugin; the trace only
    grows by the draw of an id and the audit record. *)
Theorem execute_dry_run_no_effect (env : Env) (self : ToolExecutor)
    (call : ToolCall) (st : State) :
  dryRun self = true ->
  exists r evs,
    execute env self call st
    = (Ret r, {| trace := (trace st ++ evs)%list; history := history st |})
    /\ tr_name r = tc_name call
    /\ Forall bookkeeping evs.
Proof.
  intros Hdry. rewrite execute_cases. cbv zeta. rewrite callId_of_run. cbn [snd].
  destruct (env_JSON_parse env (tc_arguments call)) as [args|e].
  - rewrite Hdry, auditLog_run. cbn [snd trace history].
    eexists. eexists. split; [rewrite <- app_assoc; reflexivity|].
    split; [reflexivity|].
    apply Forall_app. split.
    + destruct (JS.truthy (tc_id call)); repeat constructor.
    + destruct (JS.truthy (auditPath self)); repeat constructor.
  - eexists. eexists. split; [reflexivity|]. split; [reflexivity|].
    destruct (JS.truthy (tc_id call)); repeat constructor.
Qed.

Lemma execute_dry_run_no_effect_witness :
  exists r evs,
    execute Sample.env_missing Sample.audited_dry Sample.call_read Sample.st0
    = (Ret r, {| trace := evs; history := [] |})
    /\ tr_name r = "read_file"
    /\ Forall bookkeeping evs.
Proof.
  exact (execute_dry_run_no_effect Sample.env_missing Sample.audited_dry
           Sample.call_read Sample.st0 eq_refl).
Defined.

(** X2.  When the arguments of a call do not decode, [execute] returns the
    parser's message and does nothing else: no tool runs and no audit record
    is written, even when an audit path is configured; the only possible
    effect is the draw of an id for a call that has none. *)
Theorem execute_decode_failure_no_effect (env : Env) (self : ToolExecutor)
    (call : ToolCall) (e : string) (st : State) :
  env_JSON_parse env (tc_arguments call) = inr e ->
  execute env self call st
  = (Ret {| tr_tool_call_id := result_id env call st;
            tr_name := tc_name call;
            tr_content := "Error parsing arguments: " ++ e |},
     {| trace := (trace st ++ if JS.truthy (tc_id call) then [] else [EvRandom])%list;
        history := history st |}).
Proof.
  intros Hp. rewrite execute_cases. cbv zeta. rewrite Hp, callId_of_run. reflexivity.
Qed.

Lemma execute_decode_failure_no_effect_witness :
  execute Sample.base Sample.audited Sample.call_read Sample.st0
  = (Ret {| tr_tool_call_id := "call_2"; tr_name := "read_file";
            tr_content := "Error parsing arguments: SyntaxError: Unexpected end of JSON input" |},
     {| trace := []; history := [] |}).
Proof.
  exact (execute_decode_failure_no_effect Sample.base Sample.audited Sample.call_read
           _ Sample.st0 eq_refl).
Defined.

(** X3.  Every function name of [TOOLS_DEFINITION] is handled by the
    [switch] of [execute], and a plugin cannot take over a built-in name or
    alias: for such a name no plugin handler is ever called, whatever handlers
    are registered. *)
Theorem builtin_names_bypass_plugins :
  (forall name, In name TOOLS_DEFINITION_names -> is_builtin name = true)
  /\ (forall env self call st,
        is_builtin (tc_name call) = true ->
        exists evs,
          trace (snd (execute env self call st)) = (trace st ++ evs)%list
          /\ Forall not_plugin evs).
Proof.
  split.
  - intros name Hin. cbn in Hin.
    repeat (destruct Hin as [<-|Hin]; [reflexivity|]). contradiction.
  - intros env self call st Hb.
    apply (execute_frame_of not_plugin env self call).
    + intros []; cbn; auto.
    + intros args. eapply frame_weaken; [|apply dispatch_native; exact Hb].
      intros []; cbn; auto.
Qed.

Lemma builtin_names_bypass_plugins_witness :
  is_builtin "edit_file" = true
  /\ exists evs,
       trace (snd (execute Sample.env_rejecting_plugin Sample.manual
                     Sample.call_read Sample.st0)) = evs
       /\ Forall not_plugin evs.
Proof.
  split.
  - apply (proj1 builtin_names_bypass_plugins). cbn. tauto.
  - apply (proj2 builtin_names_bypass_plugins Sample.env_rejecting_plugin
             Sample.manual Sample.call_read Sample.st0 eq_refl).
Defined.

(** X4.  When no plugin handler rejects with [null] or [undefined],
    [execute] returns a result for every call, carrying the name of the call,
    the id [call.id || 'call_...'], and leaving the history alone: decode
    failures, unknown names and exceptions of the tools all end as text. *)
Theorem execute_returns_result (env : Env) (self : ToolExecutor)
    (call : ToolCall) (st : State) :
  plugins_throw_objects env ->
  exists r st',
    execute env self call st = (Ret r, st')
    /\ tr_name r = tc_name call
    /\ tr_tool_call_id r = result_id env call st
    /\ history st' = history st.
Proof.
  intros Hplug.
  destruct (execute_returns env self call Hplug st) as [r Hr].
  pose proof (execute_history env self call st) as Hh.
  destruct (execute env self call st) as [o st'] eqn:E. cbn [fst snd] in *. subst o.
  destruct (execute_result env self call st st' r E) as [Hid Hname].
  exists r, st'. auto.
Qed.

Lemma execute_returns_result_witness :
  exists r st',
    execute Sample.env_missing Sample.audited Sample.call_read Sample.st0 = (Ret r, st')
    /\ tr_name r = "read_file"
    /\ tr_tool_call_id r = "call_2"
    /\ history st' = [].
Proof.
  apply (execute_returns_result Sample.env_missing Sample.audited Sample.call_read
           Sample.st0).
  intros name handler tr args H. discriminate H.
Defined.

(** X5.  Without an audit path ([null] or the empty string) no audit record
    is written, whatever the call and its outcome. *)
Theorem execute_unaudited (env : Env) (self : ToolExecutor) (call : ToolCall) (st : State) :
  JS.truthy (auditPath self) = false ->
  audit_records (trace (snd (execute env self call st))) = audit_records (trace st).
Proof. apply execute_no_audit_path. Qed.

Lemma execute_unaudited_witness :
  audit_records
    (trace (snd (execute Sample.env_missing Sample.manual Sample.call_read Sample.st0)))
  = [].
Proof.
  exact (execute_unaudited Sample.env_missing Sample.manual Sample.call_read
           Sample.st0 eq_refl).
Defined.

(* ----------------------------------------------------------------- *)
(** ** Occurrences of a text: split, replace and replace-all *)

Lemma prefix_length (p s : string) :
  String.prefix p s = true -> String.length p <= String.length s.
Proof.
  revert s. induction p as [|c p IH]; intros s H; [cbn; lia|].
  destruct s as [|c' s]; [discriminate H|].
  cbn [String.prefix] in H. destruct (ascii_dec c c'); [|discriminate H].
  cbn [String.length]. apply IH in H. lia.
Qed.

Lemma split_sep_skip (pat cur : string) (k : nat) (s : string) :
  k <= String.length s ->
  JS.split_sep pat cur k s = JS.split_sep pat cur 0 (JS.slice_from k s).
Proof.
  revert k. induction s as [|c s IH]; intros k Hk.
  - cbn in Hk. assert (k = 0) by lia. subst k. reflexivity.
  - destruct k as [|k]; [reflexivity|].
    cbn [JS.split_sep JS.slice_from]. apply IH. cbn in Hk. lia.
Qed.

Lemma replace_every_skip (pat repl : string) (k : nat) (s : string) :
  k <= String.length s ->
  replace_every pat repl k s = replace_every pat repl 0 (JS.slice_from k s).
Proof.
  revert k. induction s as [|c s IH]; intros k Hk.
  - cbn in Hk. assert (k = 0) by lia. subst k. reflexivity.
  - destruct k as [|k]; [reflexivity|].
    cbn [replace_every JS.slice_from]. apply IH. cbn in Hk. lia.
Qed.

Lemma indexOf_cons (c : ascii) (s pat : string) :
  JS.indexOf (String c s) pat
  = if String.prefix pat (String c s) then Some 0
    else option_map S (JS.indexOf s pat).
Proof. reflexivity. Qed.

(** A non-empty text that does not occur: nothing is cut, nothing is
    replaced. *)
Lemma no_occurrence (p0 : ascii) (pat' cur repl s : string) :
  JS.indexOf s (String p0 pat') = None ->
  JS.split_sep (String p0 pat') cur 0 s = [cur ++ s]
  /\ replace_every (String p0 pat') repl 0 s = s.
Proof.
  revert cur. induction s as [|c s IH]; intros cur H.
  - cbn. now rewrite string_app_nil_r.
  - rewrite indexOf_cons in H.
    cbn [JS.split_sep replace_every].
    destruct (String.prefix (String p0 pat') (String c s)); [discriminate H|].
    destruct (JS.indexOf s (String p0 pat')) eqn:E; [discriminate H|].
    destruct (IH (cur ++ String c EmptyString) eq_refl) as [H1 H2].
    rewrite H1, H2, string_app_assoc. split; reflexivity.
Qed.

(** The first occurrence of a non-empty text, at index [i]: the text is cut
    there (and replaced there by a replace-all), and the scan goes on behind
    the occurrence. *)
Lemma first_occurrence (p0 : ascii) (pat' cur repl s : string) (i : nat) :
  let pat := String p0 pat' in
  JS.indexOf s pat = Some i ->
  JS.split_sep pat cur 0 s
  = (cur ++ JS.take i s)
    :: JS.split_sep pat EmptyString 0 (JS.slice_from (i + String.length pat) s)
  /\ replace_every pat repl 0 s
     = JS.take i s ++ repl
       ++ replace_every pat repl 0 (JS.slice_from (i + String.length pat) s).
Proof.
  cbv zeta. revert cur i. induction s as [|c s IH]; intros cur i H.
  - discriminate H.
  - rewrite indexOf_cons in H.
    cbn [JS.split_sep replace_every].
    destruct (String.prefix (String p0 pat') (String c s)) eqn:Hp.
    + inversion H; subst i. clear H.
      apply prefix_length in Hp. cbn [String.length] in Hp.
      cbn [JS.take Nat.add String.length Nat.sub JS.slice_from String.append].
      rewrite Nat.sub_0_r.
      rewrite split_sep_skip, replace_every_skip by lia.
      rewrite string_app_nil_r. split; reflexivity.
    + destruct (JS.indexOf s (String p0 pat')) as [i'|] eqn:E; [|discriminate H].
      inversion H; subst i. clear H.
      destruct (IH (cur ++ String c EmptyString) i' eq_refl) as [H1 H2].
      rewrite H1, H2.
      cbn [JS.take Nat.add JS.slice_from String.append].
      rewrite string_app_assoc. split; reflexivity.
Qed.

Lemma getSubstitution_literal (matched before after repl : string) :
  no_dollar repl = true -> JS.getSubstitution matched before after repl = repl.
Proof.
  induction repl as [|c r IH]; intros H; [reflexivity|].
  cbn [no_dollar] in H. apply andb_true_iff in H. destruct H as [Hc Hr].
  specialize (IH Hr).
  destruct c as [b0 b1 b2 b3 b4 b5 b6 b7].
  destruct b0, b1, b2, b3, b4, b5, b6, b7;
    try discriminate Hc; cbn [JS.getSubstitution]; now rewrite IH.
Qed.

(** With a text that occurs exactly once (the split has two pieces) and a
    replacement without dollar sign, replacing the first occurrence is
    replacing every occurrence. *)
Lemma replace_single_occurrence (s pat repl : string) :
  pat <> EmptyString ->
  List.length (JS.split s pat) = 2 ->
  no_dollar repl = true ->
  JS.includes s pat = true
  /\ JS.replace s pat repl = spec_replaceAll s pat repl.
Proof.
  intros Hpat Hlen Hrepl. destruct pat as [|p0 pat']; [congruence|].
  unfold JS.split in Hlen. unfold JS.includes, JS.replace, spec_replaceAll.
  destruct (JS.indexOf s (String p0 pat')) as [i|] eqn:E.
  - destruct (first_occurrence p0 pat' EmptyString repl s i E) as [H1 H2].
    rewrite H1 in Hlen. cbn [List.length] in Hlen.
    set (rest := JS.slice_from (i + String.length (String p0 pat')) s) in *.
    assert (Hrest : JS.indexOf rest (String p0 pat') = None).
    { destruct (JS.indexOf rest (String p0 pat')) as [j|] eqn:Er; [|reflexivity].
      destruct (first_occurrence p0 pat' EmptyString repl rest j Er) as [H3 _].
      rewrite H3 in Hlen. cbn [List.length] in Hlen.
      pose proof (split_sep_nonempty (String p0 pat') EmptyString 0
                    (JS.slice_from (j + String.length (String p0 pat')) rest)) as Hne.
      destruct (JS.split_sep _ _ _ _); [congruence | cbn in Hlen; lia]. }
    destruct (no_occurrence p0 pat' EmptyString repl rest Hrest) as [_ H4].
    split; [reflexivity|].
    rewrite H2, H4, getSubstitution_literal by exact Hrepl. reflexivity.
  - destruct (no_occurrence p0 pat' EmptyString repl s E) as [H1 _].
    rewrite H1 in Hlen. discriminate Hlen.
Qed.

(* ----------------------------------------------------------------- *)
(** ** tools.ts: editFile beyond the counted occurrences *)

(** X6.  [editFile] with a non-empty old text that the file holds exactly
    once (the split has two pieces) and a new text without dollar sign: the
    content written back is the file with EVERY occurrence of the old text
    replaced, and the message reports 1 occurrence, when the file can be
    read and written. *)
Theorem editFile_single_occurrence
    (env : Env) (filePath oldText newText content : string) (st : State) :
  oldText <> EmptyString ->
  no_dollar newText = true ->
  env_readFile env (trace st) (env_resolve env filePath) = inl content ->
  List.length (JS.split content oldText) = 2 ->
  env_writeFile env (trace st ++ [EvReadFile (env_resolve env filePath)])
    (env_resolve env filePath) (JS.replace content oldText newText) = None ->
  editFile env filePath oldText newText st
  = (Ret ("Successfully edited " ++ filePath ++ ". Replaced 1 occurrence(s)."),
     {| trace := trace st ++ [EvReadFile (env_resolve env filePath);
                              EvWriteFile (env_resolve env filePath)
                                (spec_replaceAll content oldText newText)];
        history := history st |}).
Proof.
  intros Hold Hnew Hread Hlen Hwrite.
  destruct (replace_single_occurrence content oldText newText Hold Hlen Hnew)
    as [Hinc Heq].
  rewrite (editFile_success env filePath oldText newText content st Hread Hinc Hwrite).
  rewrite Hlen, Heq. reflexivity.
Qed.

Lemma editFile_single_occurrence_witness :
  editFile Sample.base "f.txt" "a a" "b" Sample.st0
  = (Ret "Successfully edited f.txt. Replaced 1 occurrence(s).",
     {| trace := [EvReadFile "/w/f.txt"; EvWriteFile "/w/f.txt" "b a"];
        history := [] |}).
Proof.
  apply (editFile_single_occurrence Sample.base "f.txt" "a a" "b" "a a a" Sample.st0).
  - discriminate.
  - reflexivity.
  - reflexivity.
  - reflexivity.
  - reflexivity.
Defined.

(** X7.  [editFile] never throws, whatever the file system does, and it
    touches the file system in one of two ways only: it reads the file and
    stops, or it reads the file, finds the old text in the content read and
    writes that content with its first occurrence replaced to the same
    path.  Nothing is written when the read fails or the old text is not
    found. *)
Theorem editFile_effects
    (env : Env) (filePath oldText newText : string) (st : State) :
  let p := env_resolve env filePath in
  exists r st',
    editFile env filePath oldText newText st = (Ret r, st')
    /\ history st' = history st
    /\ (trace st' = trace st ++ [EvReadFile p]
        \/ exists content,
             env_readFile env (trace st) p = inl content
             /\ JS.includes content oldText = true
             /\ trace st' = trace st ++ [EvReadFile p;
                              EvWriteFile p (JS.replace content oldText newText)])%list.
Proof.
  cbv zeta.
  unfold editFile, resolvePath, fs_readFile, fs_writeFile.
  run_monad. cbn [trace history].
  destruct (env_readFile env (trace st) (env_resolve env filePath))
    as [content|e] eqn:Hread; cbn [message_of].
  - destruct (JS.includes content oldText) eqn:Hinc; cbn [negb trace history].
    + destruct (env_writeFile env _ _ _) as [e|] eqn:Hwrite;
        cbn [message_of]; run_monad;
        (do 2 eexists; split; [reflexivity|]; split; [reflexivity|]);
        right; exists content; cbn [trace];
        rewrite <- app_assoc; repeat split; (reflexivity || exact Hinc).
    + do 2 eexists. split; [reflexivity|]. split; [reflexivity|]. now left.
  - run_monad. do 2 eexists. split; [reflexivity|]. split; [reflexivity|]. now left.
Qed.

(* ----------------------------------------------------------------- *)
(** ** tools.ts: the first word of a command line *)

Lemma no_ws_app (a b : string) : no_ws (a ++ b) = no_ws a && no_ws b.
Proof.
  induction a as [|c a IH]; [reflexivity|].
  cbn [String.append no_ws]. now rewrite IH, andb_assoc.
Qed.

Lemma split_ws_pieces (s : string) :
  (forall cur, no_ws cur = true ->
     Forall (fun p => no_ws p = true) (JS.split_ws_piece cur s))
  /\ Forall (fun p => no_ws p = true) (JS.split_ws_run s).
Proof.
  induction s as [|c s [IHp IHr]]; split.
  - intros cur H. now constructor.
  - now constructor.
  - intros cur H. cbn [JS.split_ws_piece].
    destruct (JS.is_ws c) eqn:Hc.
    + now constructor.
    + apply IHp. rewrite no_ws_app, H. cbn [no_ws]. now rewrite Hc.
  - cbn [JS.split_ws_run]. destruct (JS.is_ws c) eqn:Hc; [exact IHr|].
    apply IHp. cbn [no_ws]. now rewrite Hc.
Qed.

Lemma split_ws_no_ws (s : string) :
  Forall (fun p => no_ws p = true) (JS.split_ws s).
Proof. unfold JS.split_ws. now apply split_ws_pieces. Qed.

Lemma lower_char_ws (c : ascii) : JS.is_ws (JS.lower_char c) = JS.is_ws c.
Proof.
  destruct c as [b0 b1 b2 b3 b4 b5 b6 b7].
  destruct b0, b1, b2, b3, b4, b5, b6, b7; vm_compute; reflexivity.
Qed.

Lemma toLowerCase_no_ws (s : string) : no_ws (JS.toLowerCase s) = no_ws s.
Proof.
  induction s as [|c s IH]; [reflexivity|].
  cbn [JS.toLowerCase no_ws]. now rewrite lower_char_ws, IH.
Qed.

(** The word that the allowlist is asked about holds no white space. *)
Lemma cmdBase_no_ws (command : string) : no_ws (cmdBase command) = true.
Proof.
  unfold cmdBase. rewrite toLowerCase_no_ws.
  pose proof (split_ws_no_ws (JS.trim command)) as H.
  destruct (JS.split_ws (JS.trim command)) as [|p ps]; [reflexivity|].
  now inversion H.
Qed.

Lemma rev_string_acc (acc s : string) :
  JS.rev_string acc s = JS.rev_string EmptyString s ++ acc.
Proof.
  revert acc. induction s as [|x s IH]; intros acc; [reflexivity|].
  cbn [JS.rev_string]. rewrite IH, (IH (String x EmptyString)).
  now rewrite string_app_assoc.
Qed.

Lemma rev_string_app (acc s t : string) :
  JS.rev_string acc (s ++ t) = JS.rev_string (JS.rev_string acc s) t.
Proof.
  revert acc. induction s as [|x s IH]; intros acc; [reflexivity|].
  cbn [String.append JS.rev_string]. apply IH.
Qed.

Lemma rev_string_rev (acc b s : string) :
  JS.rev_string acc (JS.rev_string b s) = JS.rev_string (s ++ acc) b.
Proof.
  revert b. induction s as [|x s IH]; intros b; [reflexivity|].
  cbn [JS.rev_string]. rewrite IH. reflexivity.
Qed.

Lemma rev_string_involutive (s : string) :
  JS.rev_string EmptyString (JS.rev_string EmptyString s) = s.
Proof. rewrite rev_string_rev. cbn. apply string_app_nil_r. Qed.

Lemma no_ws_rev_string (acc s : string) :
  no_ws (JS.rev_string acc s) = no_ws s && no_ws acc.
Proof.
  revert acc. induction s as [|x s IH]; intros acc; [reflexivity|].
  cbn [JS.rev_string no_ws]. rewrite IH. cbn [no_ws].
  destruct (JS.is_ws x), (no_ws s), (no_ws acc); reflexivity.
Qed.

Lemma trimStart_app (a b : string) :
  ws_or_end b = false -> JS.trimStart (a ++ b) = JS.trimStart a ++ b.
Proof.
  intros Hb. induction a as [|c a IH].
  - destruct b as [|c b]; [discriminate Hb|].
    cbn in Hb |- *. now rewrite Hb.
  - cbn [String.append JS.trimStart]. destruct (JS.is_ws c); [exact IH | reflexivity].
Qed.

Lemma trimStart_word (w t : string) :
  w <> EmptyString -> no_ws w = true -> JS.trimStart (w ++ t) = w ++ t.
Proof.
  intros Hw Hn. destruct w as [|c w]; [congruence|].
  cbn [no_ws] in Hn. apply andb_true_iff in Hn. destruct Hn as [Hc _].
  cbn [String.append JS.trimStart]. apply negb_true_iff in Hc. now rewrite Hc.
Qed.

(** [trimEnd] leaves a leading word alone. *)
Lemma trimEnd_word (w t : string) :
  w <> EmptyString -> no_ws w = true ->
  JS.trimEnd (w ++ t) = w ++ JS.trimEnd t.
Proof.
  intros Hw Hn. unfold JS.trimEnd.
  rewrite (rev_string_app EmptyString w t).
  rewrite (rev_string_acc (JS.rev_string EmptyString w) t).
  rewrite trimStart_app.
  - rewrite rev_string_app, rev_string_rev. reflexivity.
  - destruct (JS.rev_string EmptyString w) as [|c r] eqn:E.
    + apply (f_equal (JS.rev_string EmptyString)) in E.
      rewrite rev_string_involutive in E. cbn in E. congruence.
    + assert (H : no_ws (String c r) = true).
      { rewrite <- E, no_ws_rev_string, Hn. reflexivity. }
      cbn [no_ws] in H. apply andb_true_iff in H. destruct H as [Hc _].
      cbn [ws_or_end]. now apply negb_true_iff in Hc.
Qed.

(** [trimEnd] cuts a suffix off. *)
Lemma trimEnd_prefix (t : string) : exists q, t = JS.trimEnd t ++ q.
Proof.
  unfold JS.trimEnd.
  assert (H : forall r, exists p, r = p ++ JS.trimStart r).
  { induction r as [|c r [p IH]]; [now exists EmptyString|].
    cbn [JS.trimStart]. destruct (JS.is_ws c).
    - exists (String c p). cbn [String.append]. now rewrite <- IH.
    - now exists EmptyString. }
  destruct (H (JS.rev_string EmptyString t)) as [p Hp].
  exists (JS.rev_string EmptyString p).
  rewrite <- (rev_string_involutive t) at 1. rewrite Hp at 1.
  rewrite rev_string_app, rev_string_acc. reflexivity.
Qed.

Lemma split_ws_piece_word (cur w u : string) :
  no_ws w = true ->
  JS.split_ws_piece cur (w ++ u) = JS.split_ws_piece (cur ++ w) u.
Proof.
  revert cur. induction w as [|c w IH]; intros cur Hn.
  - now rewrite string_app_nil_r.
  - cbn [no_ws] in Hn. apply andb_true_iff in Hn. destruct Hn as [Hc Hn].
    apply negb_true_iff in Hc.
    cbn [String.append JS.split_ws_piece]. rewrite Hc, IH by exact Hn.
    now rewrite string_app_assoc.
Qed.

(** The allowlist is asked about the first word of the command line, in
    lower case, whatever follows the word. *)
Lemma cmdBase_first_word (w t : string) :
  w <> EmptyString -> no_ws w = true -> ws_or_end t = true ->
  cmdBase (w ++ t) = JS.toLowerCase w.
Proof.
  intros Hw Hn Ht. unfold cmdBase, JS.trim.
  rewrite trimStart_word, trimEnd_word by assumption.
  unfold JS.split_ws. rewrite split_ws_piece_word by exact Hn.
  cbn [String.append].
  destruct (trimEnd_prefix t) as [q Hq].
  destruct (JS.trimEnd t) as [|c u]; [reflexivity|].
  destruct t as [|c' t']; [discriminate Hq|].
  cbn [String.append] in Hq. injection Hq as Hc _. subst c'.
  cbn [ws_or_end] in Ht. cbn [JS.split_ws_piece]. now rewrite Ht.
Qed.

(** X8.  With auto-approve and an allowlist, only the first word of the
    command line is checked: when the word (in lower case) is on the list,
    the whole command line goes to the shell without a prompt, whatever
    follows the word. *)
Theorem allowlist_checks_first_word_only
    (env : Env) (self : ToolExecutor) (w t : string) (st : State) :
  autoApproveCommands self = true ->
  set_has (allowlistCommands self) (JS.toLowerCase w) = true ->
  w <> EmptyString -> no_ws w = true -> ws_or_end t = true ->
  exists text,
    runCommand env self (w ++ t) st
    = (Ret text,
       {| trace := trace st ++ [EvExec (w ++ t)]; history := history st |}).
Proof.
  intros Ha Hin Hw Hn Ht. unfold runCommand.
  rewrite (cmdBase_first_word w t Hw Hn Ht), Ha, Hin.
  destruct (allowlistCommands self) as [|a l] eqn:E; [discriminate Hin|].
  cbn. apply run_shell_runs.
Qed.

Lemma allowlist_checks_first_word_only_witness :
  exists text,
    runCommand Sample.base Sample.auto_git "git status; rm -rf build" Sample.st0
    = (Ret text,
       {| trace := [EvExec "git status; rm -rf build"]; history := [] |}).
Proof.
  apply (allowlist_checks_first_word_only Sample.base Sample.auto_git
           "git" " status; rm -rf build" Sample.st0).
  - reflexivity.
  - reflexivity.
  - discriminate.
  - reflexivity.
  - reflexivity.
Defined.

(** X9.  An allowlist entry with white space inside never matches: with
    auto-approve and a non-empty allowlist whose entries all hold white
    space, every command is refused and the shell is not invoked. *)
Theorem allowlist_entries_with_white_space_match_nothing
    (env : Env) (self : ToolExecutor) (command : string) (st : State) :
  autoApproveCommands self = true ->
  allowlistCommands self <> [] ->
  Forall (fun entry => no_ws entry = false) (allowlistCommands self) ->
  runCommand env self command st
  = (Ret ("Command " ++ dquote ++ cmdBase command ++ dquote
          ++ " not in allowlist. Use --allow " ++ dquote ++ "cmd1,cmd2"
          ++ dquote ++ " to add."), st).
Proof.
  intros Ha Hne Hall. unfold runCommand.
  assert (Hin : set_has (allowlistCommands self) (cmdBase command) = false).
  { destruct (set_has _ _) eqn:E; [|reflexivity].
    apply set_has_In in E. rewrite Forall_forall in Hall.
    apply Hall in E. now rewrite cmdBase_no_ws in E. }
  rewrite Ha, Hin.
  destruct (allowlistCommands self) as [|a l] eqn:E; [congruence|].
  reflexivity.
Qed.

Lemma allowlist_entries_with_white_space_match_nothing_witness :
  runCommand Sample.base auto_two_words "git status" Sample.st0
  = (Ret ("Command " ++ dquote ++ "git" ++ dquote
          ++ " not in allowlist. Use --allow " ++ dquote ++ "cmd1,cmd2"
          ++ dquote ++ " to add."), Sample.st0).
Proof.
  apply (allowlist_entries_with_white_space_match_nothing
           Sample.base auto_two_words "git status" Sample.st0).
  - reflexivity.
  - discriminate.
  - repeat constructor.
Defined.

(** X10.  [gitAdd] hands git the argument [add] followed by at least one
    path argument; no path argument is empty or holds white space, whatever
    text the model passed as [paths]. *)
Theorem gitAdd_args_well_formed (paths : string) :
  exists ps,
    gitAdd_args paths = "add" :: ps
    /\ ps <> []
    /\ Forall (fun p => p <> EmptyString /\ no_ws p = true) ps.
Proof.
  unfold gitAdd_args, gitAdd_pathArgs.
  pose proof (split_ws_no_ws (JS.trim paths)) as H.
  set (l := JS.split_ws (JS.trim paths)) in *.
  assert (Hf : Forall (fun p => p <> EmptyString /\ no_ws p = true)
                 (filter (fun p => negb (p =? EmptyString)) l)).
  { rewrite Forall_forall in *. intros p Hp.
    apply filter_In in Hp. destruct Hp as [Hin Hp]. split; [|now apply H].
    intros ->. discriminate Hp. }
  destruct (filter _ l) as [|p ps] eqn:E.
  - exists ["."]. split; [reflexivity|]. split; [discriminate|].
    constructor; [|constructor]. split; [discriminate | reflexivity].
  - exists (p :: ps). split; [reflexivity|]. split; [discriminate | exact Hf].
Qed.

(* ----------------------------------------------------------------- *)
(** ** llm-client.ts: the stream and its chunks *)

Lemma on_end_fields (a b : StreamState) :
  s_content a = s_content b ->
  s_toolCallsAccum a = s_toolCallsAccum b ->
  on_end a = on_end b.
Proof. intros H1 H2. unfold on_end. now rewrite H1, H2. Qed.

(** The outcome of [parseStreamResponse] is a function of the complete
    lines of the body and of the way the stream finishes. *)
Lemma parseStreamResponse_lines (env : Env) (r1 r2 : Response) (s : State) :
  complete_lines (join (body_chunks r1)) = complete_lines (join (body_chunks r2)) ->
  body_error r1 = body_error r2 ->
  parseStreamResponse env r1 s = parseStreamResponse env r2 s.
Proof.
  intros Hl He.
  destruct (parseStreamResponse_run env r1 s) as (f1 & C1 & A1 & R1).
  destruct (parseStreamResponse_run env r2 s) as (f2 & C2 & A2 & R2).
  rewrite R1, R2. unfold stream_deltas in *. rewrite Hl in *. rewrite He.
  rewrite (on_end_fields f1 f2) by congruence. reflexivity.
Qed.

Lemma no_newline_indexOf (b : string) :
  no_newline b -> JS.indexOf b newline = None.
Proof.
  unfold no_newline, newline. intros H.
  destruct (JS.indexOf b (String (ascii_of_nat 10) EmptyString)) as [i|] eqn:E;
    [|reflexivity].
  destruct (first_occurrence (ascii_of_nat 10) EmptyString EmptyString EmptyString b i E)
    as [H1 _].
  rewrite H1 in H.
  pose proof (split_sep_nonempty (String (ascii_of_nat 10) EmptyString) EmptyString 0
                (JS.slice_from (i + 1) b)) as Hne.
  cbn [String.length] in H. injection H as _ H. congruence.
Qed.

Lemma complete_lines_tail (text tail : string) :
  no_newline tail -> complete_lines (text ++ tail) = complete_lines text.
Proof.
  intros H. unfold complete_lines, JS.split, newline.
  fold newline. rewrite split_newline_app.
  apply no_newline_indexOf in H. unfold newline in H.
  destruct (no_occurrence (ascii_of_nat 10) EmptyString
              (last (JS.split_sep newline EmptyString 0 text) EmptyString)
              EmptyString tail H) as [H1 _].
  fold newline in H1. rewrite H1. apply removelast_last.
Qed.

(** X11.  The source decodes the chunks one by one ([chunk.toString()]).
    The outcome depends only on the texts so obtained put end to end, and on
    the way the stream finishes: where the chunks end relative to the line
    feeds and the events does not matter.  Two sequences of chunks whose
    decoded texts add up to the same text give the same message (or the same
    error) and the same calls of the sink.  (A chunk that ends inside a
    multi-byte character decodes to another text, and is another input.) *)
Theorem stream_chunking_irrelevant (env : Env) (toString : string -> string)
    (response : Response) (buffers1 buffers2 : list string) (s : State) :
  join (map toString buffers1) = join (map toString buffers2) ->
  parseStreamResponse env (with_chunks response (map toString buffers1)) s
  = parseStreamResponse env (with_chunks response (map toString buffers2)) s.
Proof.
  intros Hj. apply parseStreamResponse_lines; [|reflexivity].
  cbn [with_chunks body_chunks]. now rewrite Hj.
Qed.

Lemma stream_chunking_irrelevant_witness :
  parseStreamResponse Sample.env_hello
    (with_chunks Sample.hello_response (map (fun b => b) Sample.hello_chunks))
    Sample.st0
  = parseStreamResponse Sample.env_hello
      (with_chunks Sample.hello_response
         (map (fun b => b) [join Sample.hello_chunks])) Sample.st0.
Proof.
  apply (stream_chunking_irrelevant Sample.env_hello (fun b => b)
           Sample.hello_response Sample.hello_chunks [join Sample.hello_chunks]
           Sample.st0).
  vm_compute. reflexivity.
Defined.

(** X12.  Text behind the last line feed of the body is never decoded: a
    body that goes on with a piece without line feed gives the same outcome
    as the body without the piece, so an event that is not closed by a line
    feed before the stream ends is lost. *)
Theorem stream_unterminated_tail_dropped
    (env : Env) (response : Response) (tail : string) (s : State) :
  no_newline tail ->
  parseStreamResponse env
    (with_chunks response (body_chunks response ++ [tail])%list) s
  = parseStreamResponse env response s.
Proof.
  intros H. apply parseStreamResponse_lines; [|reflexivity].
  cbn [with_chunks body_chunks]. rewrite join_app. cbn [join fold_right].
  rewrite string_app_nil_r. now apply complete_lines_tail.
Qed.

Lemma stream_unterminated_tail_dropped_witness :
  parseStreamResponse Sample.env_hello
    (with_chunks Sample.hello_response
       (Sample.hello_chunks
        ++ [("data: " ++ Sample.content_payload "Hello")%string])%list)
    Sample.st0
  = parseStreamResponse Sample.env_hello Sample.hello_response Sample.st0.
Proof.
  apply (stream_unterminated_tail_dropped Sample.env_hello Sample.hello_response
           ("data: " ++ Sample.content_payload "Hello") Sample.st0).
  vm_compute. reflexivity.
Defined.

(* ----------------------------------------------------------------- *)
(** ** llm-client.ts: what a call of chat does *)

(** One attempt: one request, built from the arguments of [chat], and calls
    of the sink only when streaming into a sink was asked for. *)
Lemma attempt_once_events (env : Env) (messages : list Message) (options : ChatOptions)
    (st : State) :
  exists cs,
    snd (attempt_once env messages options st)
    = {| trace := (trace st ++ EvFetch (request_of messages options) :: map EvChunk cs)%list;
         history := history st |}
    /\ (opt_stream options && opt_onChunk options = false -> cs = []).
Proof.
  unfold attempt_once. fold (request_of messages options).
  unfold bind at 1. unfold perform. cbn [trace history].
  destruct (env_fetch env (trace st) (request_of messages options)) as [response|e];
    cbn [of_result].
  2: { exists []. cbn. now split. }
  destruct (negb (ok response)).
  - exists []. unfold bind, lift, throw. cbn.
    destruct (body_text response); now split.
  - destruct (opt_stream options && opt_onChunk options) eqn:Hs; cbn [andb].
    + destruct (has_body response).
      * destruct (parseStreamResponse_run env response
                    {| trace := (trace st ++ [EvFetch (request_of messages options)])%list;
                       history := history st |}) as (final & _ & _ & Hrun).
        rewrite Hrun. cbn [snd].
        exists (fragments (stream_deltas env (body_chunks response))).
        unfold add_chunks. cbn [trace history]. rewrite <- app_assoc.
        split; [reflexivity | discriminate].
      * exists []. unfold bind, lift, ret. cbn.
        destruct (body_message response); now split.
    + exists []. unfold bind, lift, ret. cbn.
      destruct (body_message response); now split.
Qed.

Lemma delay_bounds (attempt : Z) :
  (0 <= attempt)%Z -> (1000 <= delay attempt <= 10000)%Z.
Proof.
  intros H. unfold delay.
  assert (0 < 2 ^ attempt)%Z by (apply Z.pow_pos_nonneg; lia).
  lia.
Qed.

Lemma retry_run_events (env : Env) (config : OpenCodeConfig)
    (messages : list Message) (options : ChatOptions)
    (attempt : Z) (st : State) (res : outcome Message) (st' : State) :
  retry_run env config messages options attempt st res st' ->
  (0 <= attempt)%Z ->
  history st' = history st
  /\ exists evs,
       trace st' = (trace st ++ evs)%list
       /\ Forall (llm_event messages options) evs.
Proof.
  assert (Hone : forall st o st1,
            attempt_once env messages options st = (o, st1) ->
            history st1 = history st
            /\ exists evs,
                 trace st1 = (trace st ++ evs)%list
                 /\ Forall (llm_event messages options) evs).
  { intros s o s1 E.
    destruct (attempt_once_events env messages options s) as (cs & Hcs & Hnone).
    rewrite E in Hcs. cbn [snd] in Hcs. subst s1. cbn [trace history].
    split; [reflexivity|].
    exists (EvFetch (request_of messages options) :: map EvChunk cs).
    split; [reflexivity|]. constructor; [reflexivity|].
    apply Forall_forall. intros ev Hin. apply in_map_iff in Hin.
    destruct Hin as (c & <- & Hin). cbn [llm_event].
    destruct (opt_stream options && opt_onChunk options); [reflexivity|].
    rewrite (Hnone eq_refl) in Hin. destruct Hin. }
  induction 1 as [attempt st Hlt
                 | attempt st m st1 Hle E
                 | attempt st o st1 Hle E Hr
                 | attempt st o st1 Heq E Hr
                 | attempt st o st1 res st' Hlt E Hr Hrun IH]; intros Hpos.
  - split; [reflexivity|]. exists []. now rewrite app_nil_r.
  - exact (Hone _ _ _ E).
  - exact (Hone _ _ _ E).
  - exact (Hone _ _ _ E).
  - destruct (Hone _ _ _ E) as (H1 & evs & H2 & H3).
    destruct IH as (I1 & evs' & I2 & I3); [lia|].
    cbn [trace history] in I1, I2.
    split; [congruence|].
    exists (evs ++ EvSleep (delay attempt) :: evs')%list.
    split; [rewrite I2, H2, <- !app_assoc; reflexivity|].
    apply Forall_app. split; [exact H3|].
    constructor; [exact (delay_bounds attempt Hpos) | exact I3].
Qed.

(** X13.  A call of [LLMClient.chat] touches nothing but the network, the
    timer and the chunk sink: every request it sends is the same request,
    built from its arguments; every pause lasts between 1 and 10 seconds;
    the sink is only called when the options ask for streaming and supply a
    sink.  The history of the agent is left alone. *)
Theorem llm_chat_effects (env : Env) (config : OpenCodeConfig)
    (messages : list Message) (options : ChatOptions) :
  frame (llm_event messages options) (llm_chat env config messages options).
Proof.
  intros st.
  apply (retry_run_events env config messages options 0 st _ _
           (llm_chat_run env config messages options st)).
  lia.
Qed.

Lemma retry_run_last_attempt (env : Env) (config : OpenCodeConfig)
    (messages : list Message) (options : ChatOptions)
    (attempt : Z) (st : State) (res : outcome Message) (st' : State) :
  retry_run env config messages options attempt st res st' ->
  (attempt <= maxRetries config)%Z ->
  exists st1, attempt_once env messages options st1 = (res, st').
Proof.
  induction 1 as [attempt st Hlt
                 | attempt st m st1 Hle E
                 | attempt st o st1 Hle E Hr
                 | attempt st o st1 Heq E Hr
                 | attempt st o st1 res st' Hlt E Hr Hrun IH]; intros Hle'.
  - lia.
  - now exists st.
  - now exists st.
  - now exists st.
  - apply IH. lia.
Qed.

(** X14.  For a configuration whose number of retries is an integer
    (numbers are taken at integers here): with a negative number [chat]
    sends no request and throws [LLM request failed after retries]; with
    any other integer that error is never thrown by the loop, and the
    outcome of [chat] is the outcome of its last attempt, the message
    received or the very error the attempt threw.  Nothing is said of a
    fractional number such as 2.5, with which the loop can end after a
    pause. *)
Theorem llm_chat_outcome (env : Env) (config : OpenCodeConfig)
    (messages : list Message) (options : ChatOptions) (st : State) :
  if (maxRetries config <? 0)%Z
  then llm_chat env config messages options st
       = (Throw (Obj (Error "LLM request failed after retries")), st)
  else exists st1,
         attempt_once env messages options st1
         = llm_chat env config messages options st.
Proof.
  destruct (maxRetries config <? 0)%Z eqn:E.
  - apply Z.ltb_lt in E. unfold llm_chat.
    replace (Z.to_nat (maxRetries config + 1)) with 0 by lia. reflexivity.
  - apply Z.ltb_ge in E.
    destruct (retry_run_last_attempt env config messages options 0 st _ _
                (llm_chat_run env config messages options st)) as [st1 H]; [lia|].
    exists st1. rewrite H. now destruct (llm_chat env config messages options st).
Qed.

(** A streamed attempt on a response that is accepted. *)
Lemma attempt_once_stream (env : Env) (messages : list Message) (options : ChatOptions)
    (st : State) (response : Response) :
  opt_stream options = true -> opt_onChunk options = true ->
  env_fetch env (trace st) (request_of messages options) = inl response ->
  ok response = true -> has_body response = true ->
  let frs := fragments (stream_deltas env (body_chunks response)) in
  exists final,
    s_content final = join frs
    /\ attempt_once env messages options st
       = (match body_error response with
          | Some e => Throw (Obj e)
          | None => Ret (on_end final)
          end,
          {| trace := (trace st ++ EvFetch (request_of messages options)
                                   :: map EvChunk frs)%list;
             history := history st |}).
Proof.
  intros Hs Hc Hf Hok Hb. cbv zeta.
  unfold attempt_once. fold (request_of messages options).
  unfold bind at 1. unfold perform. cbn [trace history].
  rewrite Hf. cbn [of_result]. rewrite Hok, Hs, Hc, Hb. cbn [negb andb].
  destruct (parseStreamResponse_run env response
              {| trace := (trace st ++ [EvFetch (request_of messages options)])%list;
                 history := history st |}) as (final & C & _ & Hrun).
  exists final. split; [exact C|]. rewrite Hrun.
  unfold add_chunks. cbn [trace history]. now rewrite <- app_assoc.
Qed.

(** X15.  A stream that breaks with a retryable error is requested again,
    and the second stream is handed to the same sink from its start: when
    the first stream delivered the fragments [frs1] before breaking and the
    second one delivers [frs2], the sink has received [frs1] followed by
    [frs2], while the message returned holds the text of [frs2] only. *)
Theorem broken_stream_is_streamed_again
    (env : Env) (config : OpenCodeConfig) (messages : list Message)
    (options : ChatOptions) (st : State) (r1 r2 : Response) (e : ErrorObject) :
  let req := request_of messages options in
  let frs1 := fragments (stream_deltas env (body_chunks r1)) in
  let frs2 := fragments (stream_deltas env (body_chunks r2)) in
  opt_stream options = true -> opt_onChunk options = true ->
  (1 <= maxRetries config)%Z ->
  env_fetch env (trace st) req = inl r1 ->
  ok r1 = true -> has_body r1 = true ->
  body_error r1 = Some e -> retryable e = true ->
  env_fetch env (trace st ++ EvFetch req :: map EvChunk frs1 ++ [EvSleep 1000])%list req
  = inl r2 ->
  ok r2 = true -> has_body r2 = true -> body_error r2 = None ->
  exists msg st',
    llm_chat env config messages options st = (Ret msg, st')
    /\ content msg = or_null (join frs2)
    /\ sink_calls (trace st') = (sink_calls (trace st) ++ frs1 ++ frs2)%list.
Proof.
  cbv zeta. intros Hs Hc Hmax Hf1 Hok1 Hb1 He1 Hr Hf2 Hok2 Hb2 He2.
  destruct (attempt_once_stream env messages options st r1 Hs Hc Hf1 Hok1 Hb1)
    as (final1 & _ & A1).
  rewrite He1 in A1.
  set (st1 := {| trace := (trace st ++ EvFetch (request_of messages options)
                             :: map EvChunk
                                  (fragments (stream_deltas env (body_chunks r1))))%list;
                 history := history st |}) in *.
  set (st2 := {| trace := (trace st1 ++ [EvSleep (delay 0)])%list;
                 history := history st1 |}).
  assert (Hf2' : env_fetch env (trace st2) (request_of messages options) = inl r2).
  { unfold st2, st1. cbn [trace]. rewrite <- app_assoc. exact Hf2. }
  destruct (attempt_once_stream env messages options st2 r2 Hs Hc Hf2' Hok2 Hb2)
    as (final2 & C2 & A2).
  rewrite He2 in A2.
  exists (on_end final2). eexists. split; [|split].
  - unfold llm_chat.
    destruct (Z.to_nat (maxRetries config + 1)) as [|[|k]] eqn:En; [lia | lia |].
    cbn [chat_from]. unfold try_catch at 1. rewrite A1.
    cbn [isRetryable]. unfold bind at 1, ret at 1. rewrite Hr.
    replace (0 <? maxRetries config)%Z with true by (symmetry; apply Z.ltb_lt; lia).
    cbn [andb]. unfold bind at 1, sleep, perform. fold st2.
    unfold try_catch. cbn [Z.add]. rewrite A2. reflexivity.
  - cbn [on_end content]. rewrite C2. reflexivity.
  - cbn [trace]. unfold st2, st1. cbn [trace].
    rewrite !sink_calls_app. cbn [sink_calls]. rewrite !sink_calls_chunks.
    now rewrite app_nil_r, <- app_assoc.
Qed.

Lemma broken_stream_is_streamed_again_witness :
  exists msg st',
    llm_chat env_broken_stream Sample.config3 [] streaming Sample.st0 = (Ret msg, st')
    /\ content msg = Some "Hello world"
    /\ sink_calls (trace st') = ["Hello"; "Hello"; " world"].
Proof.
  apply (broken_stream_is_streamed_again env_broken_stream Sample.config3 []
           streaming Sample.st0 broken_response Sample.hello_response
           (Error "read ECONNRESET")).
  - reflexivity.
  - reflexivity.
  - vm_compute. discriminate.
  - reflexivity.
  - reflexivity.
  - reflexivity.
  - reflexivity.
  - reflexivity.
  - reflexivity.
  - reflexivity.
  - reflexivity.
  - reflexivity.
Defined.

(* ----------------------------------------------------------------- *)
(** ** agent.ts: the requests of a turn *)

Lemma execute_not_fetch (env : Env) (self : ToolExecutor) (call : ToolCall) :
  frame not_fetch (execute env self call).
Proof.
  apply execute_frame_of.
  - intros ev H. destruct ev; cbn in H |- *; tauto.
  - intros args. apply (frame_weaken tool_effect); [|apply dispatch_tool_effect].
    intros ev H. destruct ev; cbn in H |- *; tauto.
Qed.

Lemma fetches_not_fetch (evs : list event) : Forall not_fetch evs -> fetches evs = 0.
Proof.
  induction 1 as [|ev evs H _ IH]; [reflexivity|].
  destruct ev; cbn in H |- *; tauto.
Qed.

Lemma run_tools_not_fetch (env : Env) (self : Agent) (calls : list ToolCall) (st : State) :
  exists evs,
    trace (snd (run_tools env self calls st)) = (trace st ++ evs)%list
    /\ Forall not_fetch evs.
Proof.
  revert st. induction calls as [|call calls IH]; intros st.
  - exists []. cbn. now rewrite app_nil_r.
  - rewrite run_tools_cons.
    destruct (execute_not_fetch env (tools self) call st) as (_ & evs & H1 & H2).
    destruct (execute env (tools self) call st) as [[r|e] st1]; cbn [snd] in H1.
    + destruct (IH {| trace := trace st1;
                      history := (history st1 ++ [tool_message r])%list |})
        as (evs' & I1 & I2).
      cbn [trace] in I1. exists (evs ++ evs')%list.
      split; [rewrite I1, H1, app_assoc; reflexivity | now apply Forall_app].
    + exists evs. now split.
Qed.

Lemma llm_chat_requests (env : Env) (config : OpenCodeConfig)
    (messages : list Message) (options : ChatOptions) (st : State) :
  exists evs,
    trace (snd (llm_chat env config messages options st)) = (trace st ++ evs)%list
    /\ fetches evs <= requests_per_call config
    /\ Forall (llm_event messages options) evs.
Proof.
  pose proof (llm_chat_run env config messages options st) as Hrun.
  destruct (retry_run_trace _ _ _ _ _ _ _ _ Hrun) as (evs & H1 & _ & H3 & _).
  destruct (retry_run_events _ _ _ _ _ _ _ _ Hrun) as (_ & evs' & H1' & H2'); [lia|].
  assert (evs' = evs) by (rewrite H1 in H1'; now apply app_inv_head in H1').
  subst evs'. exists evs. split; [exact H1|]. split; [|exact H2'].
  unfold requests_per_call. lia.
Qed.

Lemma carries_llm_event (h rest : list Message) (options : ChatOptions) (evs : list event) :
  Forall (llm_event h options) evs -> Forall (carries h (h ++ rest)) evs.
Proof.
  apply Forall_impl. intros ev H. destruct ev; cbn in H |- *; try exact I.
  subst req. cbn [request_of req_messages]. exists [], rest. now rewrite app_nil_r.
Qed.

Lemma carries_not_fetch (h0 h : list Message) (evs : list event) :
  Forall not_fetch evs -> Forall (carries h0 h) evs.
Proof.
  apply Forall_impl. intros ev H. destruct ev; cbn in H |- *; tauto.
Qed.

Lemma carries_later (h0 mid h : list Message) (evs : list event) :
  Forall (carries (h0 ++ mid) h) evs -> Forall (carries h0 h) evs.
Proof.
  apply Forall_impl. intros ev H. destruct ev; cbn in H |- *; try exact I.
  destruct H as (more & rest & H1 & H2).
  exists (mid ++ more)%list, rest. now rewrite app_assoc.
Qed.

Lemma chat_steps_requests (env : Env) (self : Agent) (options : AgentChatOptions)
    (n : nat) (st : State) :
  exists evs,
    trace (snd (chat_steps env self n options st)) = (trace st ++ evs)%list
    /\ fetches evs <= n * requests_per_call (llm self)
    /\ Forall (carries (history st) (history (snd (chat_steps env self n options st))))
         evs.
Proof.
  revert st. induction n as [|n IH]; intros st.
  - exists []. cbn. rewrite app_nil_r. repeat split; [lia | constructor].
  - destruct (chat_steps_shape env self options (S n) st) as (steps & Hfin & _).
    remember (chat_steps env self (S n) options st) as res eqn:Hres.
    rewrite chat_steps_succ in Hres.
    pose proof (llm_chat_history env (llm self) (history st) (chatOpts self options) st)
      as Hh.
    destruct (llm_chat_requests env (llm self) (history st) (chatOpts self options) st)
      as (evs1 & T1 & F1 & E1).
    apply (carries_llm_event _ (flat_map step_messages steps)) in E1.
    rewrite <- Hfin in E1.
    destruct (llm_chat env (llm self) (history st) (chatOpts self options) st)
      as [[response|e] st1]; cbn [snd] in Hh, T1.
    2: { subst res. cbn [snd] in *. exists evs1. repeat split; [exact T1 | lia | exact E1]. }
    cbv zeta in Hres.
    set (st2 := {| trace := trace st1; history := (history st1 ++ [response])%list |}) in *.
    assert (Hfinal : forall text,
              res = (Ret (Some text), st2) ->
              exists evs,
                trace (snd res) = (trace st ++ evs)%list
                /\ fetches evs <= S n * requests_per_call (llm self)
                /\ Forall (carries (history st) (history (snd res))) evs).
    { intros text ->. cbn [snd] in *. exists evs1.
      repeat split; [exact T1 | lia | exact E1]. }
    destruct (tool_calls response) as [[|c cs]|].
    + now apply (Hfinal _ Hres).
    + destruct (run_tools_not_fetch env self (c :: cs) st2) as (evs2 & T2 & N2).
      destruct (run_tools_shape env self (c :: cs) st2) as (results & H2 & _).
      destruct (run_tools env self (c :: cs) st2) as [[[]|e] st3];
        cbn [snd] in T2, H2.
      * destruct (IH st3) as (evs3 & T3 & F3 & E3).
        rewrite <- Hres in T3, E3.
        exists (evs1 ++ evs2 ++ evs3)%list. split; [|split].
        -- rewrite T3, T2. subst st2. cbn [trace]. rewrite T1, <- !app_assoc.
           reflexivity.
        -- rewrite !fetches_app, (fetches_not_fetch evs2 N2). lia.
        -- apply Forall_app. split; [exact E1|]. apply Forall_app.
           split; [now apply carries_not_fetch|].
           rewrite H2 in E3. subst st2. cbn [history] in E3. rewrite Hh in E3.
           rewrite <- app_assoc in E3. now apply carries_later in E3.
      * subst res. cbn [snd] in *. exists (evs1 ++ evs2)%list. split; [|split].
        -- rewrite T2. subst st2. cbn [trace]. rewrite T1, <- !app_assoc. reflexivity.
        -- rewrite !fetches_app, (fetches_not_fetch evs2 N2). lia.
        -- apply Forall_app. split; [exact E1 | now apply carries_not_fetch].
    + now apply (Hfinal _ Hres).
Qed.

(** X16.  A turn sends at most [10 * (retries + 1)] requests to the model
    (40 with the default configuration), whatever the model answers and
    whatever the tools do. *)
Theorem chat_request_bound (env : Env) (self : Agent) (userInput : string)
    (options : AgentChatOptions) (st : State) :
  exists evs,
    trace (snd (chat env self userInput options st)) = (trace st ++ evs)%list
    /\ fetches evs <= 10 * requests_per_call (llm self)
    /\ (retries (llm self) = None -> fetches evs <= 40).
Proof.
  rewrite chat_unfold.
  destruct (chat_steps_requests env self options maxSteps
              {| trace := trace st;
                 history := (history st ++ [user_message userInput])%list |})
    as (evs & H1 & H2 & _).
  exists evs. cbn [trace] in H1. split; [exact H1|]. split; [exact H2|].
  intros Hnone. unfold requests_per_call, maxRetries in H2. rewrite Hnone in H2.
  cbn in H2. unfold maxSteps in H2. lia.
Qed.

Lemma sent_llm_event (h : list Message) (options : ChatOptions) (evs : list event) :
  Forall (llm_event h options) evs -> Forall (sent h) evs.
Proof.
  apply Forall_impl. intros ev H. destruct ev; cbn in H |- *; try exact I.
  now subst req.
Qed.

Lemma sent_not_fetch (h : list Message) (evs : list event) :
  Forall not_fetch evs -> Forall (sent h) evs.
Proof.
  apply Forall_impl. intros ev H. destruct ev; cbn in H |- *; tauto.
Qed.

(** The events of one call of the client: its requests carry the messages
    it was called with, and a call that returns has sent a request. *)
Lemma llm_chat_group (env : Env) (config : OpenCodeConfig)
    (messages : list Message) (options : ChatOptions) (st : State) :
  exists evs,
    trace (snd (llm_chat env config messages options st)) = (trace st ++ evs)%list
    /\ Forall (sent messages) evs
    /\ (is_ret (fst (llm_chat env config messages options st)) -> 1 <= fetches evs).
Proof.
  pose proof (llm_chat_run env config messages options st) as Hrun.
  destruct (retry_run_trace _ _ _ _ _ _ _ _ Hrun) as (evs & H1 & _ & _ & H4 & _).
  destruct (retry_run_events _ _ _ _ _ _ _ _ Hrun) as (_ & evs' & H1' & H2'); [lia|].
  assert (evs' = evs) by (rewrite H1 in H1'; now apply app_inv_head in H1').
  subst evs'. exists evs. split; [exact H1|].
  split; [now apply (sent_llm_event messages options)|].
  intros Hret. apply H4.
  destruct (Z.leb_spec 0 (maxRetries config)) as [Hle|Hlt]; [exact Hle|].
  exfalso. unfold llm_chat in Hret.
  replace (Z.to_nat (maxRetries config + 1)) with 0 in Hret by lia.
  exact Hret.
Qed.

Lemma chat_steps_groups (env : Env) (self : Agent) (options : AgentChatOptions)
    (n : nat) (st : State) :
  exists steps parts,
    history (snd (chat_steps env self n options st))
    = (history st ++ flat_map step_messages steps)%list
    /\ trace (snd (chat_steps env self n options st)) = (trace st ++ concat parts)%list
    /\ groups_carry (history st) steps parts.
Proof.
  revert st. induction n as [|n IH]; intros st.
  - exists [], []. cbn. now rewrite !app_nil_r.
  - rewrite chat_steps_succ.
    pose proof (llm_chat_history env (llm self) (history st) (chatOpts self options) st)
      as Hh.
    destruct (llm_chat_group env (llm self) (history st) (chatOpts self options) st)
      as (evs1 & T1 & S1 & F1).
    destruct (llm_chat env (llm self) (history st) (chatOpts self options) st)
      as [[response|e] st1]; cbn [fst snd] in Hh, T1, F1.
    2: { exists [], [evs1]. cbn [snd flat_map concat groups_carry].
         rewrite !app_nil_r. now split. }
    specialize (F1 I). cbv zeta.
    set (st2 := {| trace := trace st1; history := (history st1 ++ [response])%list |}).
    assert (Hfinal : forall text : option string,
              exists steps parts,
                history (snd (Ret text, st2))
                = (history st ++ flat_map step_messages steps)%list
                /\ trace (snd (Ret text, st2)) = (trace st ++ concat parts)%list
                /\ groups_carry (history st) steps parts).
    { intros text. exists [(response, [])], [evs1].
      cbn [snd st2 history trace flat_map step_messages fst map concat groups_carry].
      rewrite Hh, T1, !app_nil_r. repeat split; assumption. }
    destruct (tool_calls response) as [[|c cs]|].
    + apply Hfinal.
    + destruct (run_tools_not_fetch env self (c :: cs) st2) as (evs2 & T2 & N2).
      destruct (run_tools_shape env self (c :: cs) st2) as (results & H2 & _).
      assert (Hpart : Forall (sent (history st)) (evs1 ++ evs2)
                      /\ 1 <= fetches (evs1 ++ evs2)).
      { split; [apply Forall_app; split; [exact S1 | now apply sent_not_fetch]|].
        rewrite fetches_app. lia. }
      destruct Hpart as [Hsent Hone].
      destruct (run_tools env self (c :: cs) st2) as [[[]|e] st3];
        cbn [snd] in T2, H2.
      * destruct (IH st3) as (steps & parts & I1 & I2 & I3).
        exists ((response, results) :: steps), ((evs1 ++ evs2) :: parts)%list.
        assert (Hst3 : history st3
                       = (history st ++ step_messages (response, results))%list).
        { rewrite H2. subst st2. cbn [history step_messages fst snd].
          rewrite Hh, <- app_assoc. reflexivity. }
        split; [|split].
        -- rewrite I1, Hst3. cbn [flat_map]. now rewrite <- app_assoc.
        -- rewrite I2, T2. subst st2. cbn [trace concat].
           rewrite T1, <- !app_assoc. reflexivity.
        -- cbn [groups_carry]. rewrite <- Hst3. repeat split; assumption.
      * exists [(response, results)], [(evs1 ++ evs2)%list].
        split; [|split].
        -- cbn [snd flat_map]. rewrite H2. subst st2.
           cbn [history step_messages fst snd]. rewrite Hh, app_nil_r, <- app_assoc.
           reflexivity.
        -- cbn [snd concat]. rewrite T2. subst st2. cbn [trace].
           rewrite T1, app_nil_r, <- app_assoc. reflexivity.
        -- cbn [groups_carry]. repeat split; assumption.
    + apply Hfinal.
Qed.

(** X17.  Every request of a turn carries the conversation so far, no more
    and no less.  The events of the turn fall into consecutive groups, one
    per call of the client.  The requests of the first group carry the
    history from before the turn followed by the user message of the turn;
    the requests of each later group carry, after these, the messages of the
    steps made before the group, each assistant message with its tool
    results.  Every step has a group, with at least one request; at most
    one more group follows, for a call of the client that failed.  The steps
    are those the history shows at the end of the turn. *)
Theorem chat_requests_carry_history (env : Env) (self : Agent) (userInput : string)
    (options : AgentChatOptions) (st : State) :
  let st' := snd (chat env self userInput options st) in
  exists steps parts,
    history st'
    = (history st ++ user_message userInput :: flat_map step_messages steps)%list
    /\ trace st' = (trace st ++ concat parts)%list
    /\ groups_carry (history st ++ [user_message userInput])%list steps parts.
Proof.
  cbv zeta. rewrite chat_unfold.
  destruct (chat_steps_groups env self options maxSteps
              {| trace := trace st;
                 history := (history st ++ [user_message userInput])%list |})
    as (steps & parts & H1 & H2 & H3).
  exists steps, parts. cbn [trace history] in H1, H2, H3.
  split; [rewrite H1, <- app_assoc; reflexivity|]. now split.
Qed.

(* ----------------------------------------------------------------- *)
(** ** agent.ts: how a turn ends *)

Lemma chat_steps_returned_text (env : Env) (self : Agent) (options : AgentChatOptions)
    (n : nat) (st st' : State) (text : string) :
  chat_steps env self n options st = (Ret (Some text), st') ->
  exists init m,
    history st' = (init ++ [m])%list
    /\ role m = assistant
    /\ calls_of m = []
    /\ text = or_else (content m) EmptyString.
Proof.
  revert st. induction n as [|n IH]; intros st H; [discriminate H|].
  rewrite chat_steps_succ in H.
  destruct (llm_chat env (llm self) (history st) (chatOpts self options) st)
    as [[response|e] st1] eqn:E; [|discriminate H].
  pose proof (llm_chat_role _ _ _ _ _ _ _ E) as Hrole.
  cbv zeta in H.
  assert (Hfinal :
            calls_of response = [] ->
            (Ret (Some (or_else (content response) EmptyString)),
             {| trace := trace st1; history := (history st1 ++ [response])%list |})
            = (Ret (Some text), st') ->
            exists init m,
              history st' = (init ++ [m])%list
              /\ role m = assistant /\ calls_of m = []
              /\ text = or_else (content m) EmptyString).
  { intros Hcalls Heq. injection Heq as Ht Hs. subst st' text.
    exists (history st1), response. cbn [history]. auto. }
  destruct (tool_calls response) as [[|c cs]|] eqn:Hcalls.
  - apply Hfinal; [unfold calls_of; now rewrite Hcalls | exact H].
  - destruct (run_tools env self (c :: cs) _) as [[[]|e] st3]; [|discriminate H].
    exact (IH st3 H).
  - apply Hfinal; [unfold calls_of; now rewrite Hcalls | exact H].
Qed.

(** X18.  When a turn returns a text, the last message of the history is
    an assistant message without tool calls, and the text is the content
    of that message, the empty text standing for a missing or empty
    content. *)
Theorem chat_returns_final_content (env : Env) (self : Agent) (userInput : string)
    (options : AgentChatOptions) (st st' : State) (text : string) :
  chat env self userInput options st = (Ret (Some text), st') ->
  exists init m,
    history st' = (init ++ [m])%list
    /\ role m = assistant
    /\ calls_of m = []
    /\ text = or_else (content m) EmptyString.
Proof. rewrite chat_unfold. apply chat_steps_returned_text. Qed.

Lemma chat_returns_final_content_witness :
  exists init m,
    history (snd (chat Sample.env_call_without_id Sample.agent "hi" Sample.plain
                    Sample.st0))
    = (init ++ [m])%list
    /\ role m = assistant
    /\ calls_of m = []
    /\ "done" = or_else (content m) EmptyString.
Proof.
  apply (chat_returns_final_content Sample.env_call_without_id Sample.agent "hi"
           Sample.plain Sample.st0 _ "done").
  vm_compute. reflexivity.
Defined.

(** X19.  A turn whose first request fails for good throws the error of
    the client and leaves the history longer by the user message alone:
    the message is not taken back. *)
Theorem chat_failure_keeps_user_message (env : Env) (self : Agent) (userInput : string)
    (options : AgentChatOptions) (st : State) (e : thrown) :
  let st1 := {| trace := trace st;
                history := (history st ++ [user_message userInput])%list |} in
  fst (llm_chat env (llm self) (history st1) (chatOpts self options) st1) = Throw e ->
  fst (chat env self userInput options st) = Throw e
  /\ history (snd (chat env self userInput options st))
     = (history st ++ [user_message userInput])%list.
Proof.
  cbv zeta. intros H. rewrite chat_unfold. unfold maxSteps.
  rewrite chat_steps_succ.
  pose proof (llm_chat_history env (llm self)
                (history st ++ [user_message userInput])%list (chatOpts self options)
                {| trace := trace st;
                   history := (history st ++ [user_message userInput])%list |}) as Hh.
  cbn [history] in H, Hh |- *.
  destruct (llm_chat env (llm self) (history st ++ [user_message userInput])%list
              (chatOpts self options) _) as [[m|e'] st2]; cbn [fst snd] in *.
  - discriminate H.
  - split; [now inversion H | exact Hh].
Qed.

Lemma chat_failure_keeps_user_message_witness :
  fst (chat Sample.base Sample.agent "hi" Sample.plain Sample.st0)
  = Throw (Obj (Error "fetch failed"))
  /\ history (snd (chat Sample.base Sample.agent "hi" Sample.plain Sample.st0))
     = [user_message "hi"].
Proof.
  apply (chat_failure_keeps_user_message Sample.base Sample.agent "hi" Sample.plain
           Sample.st0 (Obj (Error "fetch failed"))).
  vm_compute. reflexivity.
Defined.

(* ----------------------------------------------------------------- *)
(** ** agents.ts: runSubAgent *)

Lemma throws_objects_try_catch {A} (m : M A) (h : thrown -> M A) :
  (forall e, throws_objects (h e)) -> throws_objects (try_catch m h).
Proof.
  intros Hh st. unfold try_catch.
  destruct (m st) as [[a|e] st1]; [cbn; discriminate | apply Hh].
Qed.

Lemma throws_objects_message_of (e : thrown) : throws_objects (message_of e).
Proof. destruct e; intros st; cbn; discriminate. Qed.

Lemma callId_of_returns (env : Env) (call : ToolCall) : returns (callId_of env call).
Proof. intros st. rewrite callId_of_run. eexists. reflexivity. Qed.

(** [execute] never rejects with [null] or [undefined], whatever the plugin
    handlers do. *)
Lemma execute_throws_objects (env : Env) (self : ToolExecutor) (call : ToolCall) :
  throws_objects (execute env self call).
Proof.
  assert (Ha : forall (entry : AuditEntry) (r : ToolResult),
            throws_objects (audit env self entry ;;; ret r)).
  { intros entry r. apply returns_throws_objects, returns_bind;
      [apply auditLog_returns | intros _; apply returns_ret]. }
  unfold execute.
  apply throws_objects_bind;
    [apply returns_throws_objects, callId_of_returns | intros callId].
  destruct (env_JSON_parse _ _) as [args|e];
    [|apply returns_throws_objects, returns_ret].
  destruct (dryRun self); [apply Ha|].
  apply throws_objects_bind; [|intros output; apply Ha].
  apply throws_objects_try_catch. intros err.
  apply throws_objects_bind; [apply throws_objects_message_of | intros m].
  apply returns_throws_objects, returns_bind;
    [apply auditLog_returns | intros _; apply returns_ret].
Qed.

(** [LLMClient.chat] never rejects with [null] or [undefined]. *)
Lemma chat_from_throws_objects (env : Env) (config : OpenCodeConfig)
    (messages : list Message) (options : ChatOptions) (remaining : nat) (attempt : Z) :
  throws_objects (chat_from env config remaining attempt messages options).
Proof.
  revert attempt. induction remaining as [|r IH]; intros attempt st.
  - cbn. discriminate.
  - cbn [chat_from]. unfold try_catch.
    pose proof (attempt_once_throws_objects env messages options st) as Ho.
    destruct (attempt_once env messages options st) as [[m|[|o]] st1]; cbn [fst] in *.
    + discriminate.
    + congruence.
    + cbn [isRetryable]. unfold bind at 1, ret at 1.
      destruct ((attempt <? maxRetries config)%Z && retryable o).
      * unfold bind, sleep, perform. apply IH.
      * cbn. discriminate.
Qed.

Lemma llm_chat_throws_objects (env : Env) (config : OpenCodeConfig)
    (messages : list Message) (options : ChatOptions) :
  throws_objects (llm_chat env config messages options).
Proof. apply chat_from_throws_objects. Qed.

Section SubAgentProperties.
Variable env : Env.
Variable definition : string -> json.
Variable agent : SubAgent.
Variable llm : OpenCodeConfig.
Variable toolExecutor : ToolExecutor.
Variable onProgress : option (ProgressNote -> M unit).

Lemma sub_run_tools_throws_objects (calls : list ToolCall) (messages : list Message) :
  (forall note, returns (progress onProgress note)) ->
  throws_objects (sub_run_tools env toolExecutor onProgress calls messages).
Proof.
  intros Hp. revert messages. induction calls as [|c cs IH]; intros messages.
  - apply returns_throws_objects, returns_ret.
  - cbn [sub_run_tools].
    apply throws_objects_bind; [apply returns_throws_objects, Hp | intros _].
    apply throws_objects_bind; [apply execute_throws_objects | intros result].
    apply IH.
Qed.

Lemma sub_step_returns (messages : list Message) :
  (forall note, returns (progress onProgress note)) ->
  returns (sub_step env definition agent llm toolExecutor onProgress messages).
Proof.
  intros Hp. unfold sub_step.
  apply (returns_try_catch_message _
           (fun m => ret (inr ("Agent error: " ++ show m)))).
  - apply throws_objects_bind; [apply llm_chat_throws_objects | intros response].
    cbv zeta.
    destruct (tool_calls response) as [[|c cs]|];
      try (apply returns_throws_objects, returns_ret).
    apply throws_objects_bind;
      [now apply sub_run_tools_throws_objects | intros messages2].
    apply returns_throws_objects, returns_ret.
  - intros o. apply returns_ret.
Qed.

Lemma summarize_returns (messages : list Message) :
  returns (summarize env llm messages).
Proof.
  unfold summarize.
  apply (returns_try_catch_message _
           (fun m => ret ("Agent completed but failed to summarize: " ++ show m))).
  - apply throws_objects_bind; [apply llm_chat_throws_objects | intros summary].
    apply returns_throws_objects, returns_ret.
  - intros o. apply returns_ret.
Qed.

Lemma sub_loop_returns (remaining : nat) (steps : Z) (messages : list Message) :
  (forall note, returns (progress onProgress note)) ->
  returns (sub_loop env definition agent llm toolExecutor onProgress
             remaining steps messages).
Proof.
  intros Hp. revert steps messages.
  induction remaining as [|r IH]; intros steps messages.
  - apply summarize_returns.
  - cbn [sub_loop].
    apply returns_bind; [apply Hp | intros _].
    apply returns_bind; [now apply sub_step_returns | intros [messages'|text]].
    + apply IH.
    + apply returns_ret.
Qed.

Lemma sends_ret {A} (a : A) : sends_at_most 0 (ret a).
Proof. intros st. exists []. cbn. now rewrite app_nil_r. Qed.

Lemma sends_weaken {A} (a b : nat) (m : M A) :
  a <= b -> sends_at_most a m -> sends_at_most b m.
Proof.
  intros Hle Hm st. destruct (Hm st) as (evs & H1 & H2). exists evs.
  split; [exact H1 | lia].
Qed.

Lemma sends_bind {A B} (a b : nat) (m : M A) (k : A -> M B) :
  sends_at_most a m -> (forall x, sends_at_most b (k x)) ->
  sends_at_most (a + b) (bind m k).
Proof.
  intros Hm Hk st. unfold bind.
  destruct (Hm st) as (evs & H1 & H2).
  destruct (m st) as [[x|e] st1]; cbn [snd] in H1.
  - destruct (Hk x st1) as (evs' & H1' & H2').
    exists (evs ++ evs')%list. rewrite H1', H1, app_assoc, fetches_app.
    split; [reflexivity | lia].
  - exists evs. cbn [snd]. split; [exact H1 | lia].
Qed.

Lemma sends_try_catch {A} (a b : nat) (m : M A) (h : thrown -> M A) :
  sends_at_most a m -> (forall e, sends_at_most b (h e)) ->
  sends_at_most (a + b) (try_catch m h).
Proof.
  intros Hm Hh st. unfold try_catch.
  destruct (Hm st) as (evs & H1 & H2).
  destruct (m st) as [[x|e] st1]; cbn [snd] in H1.
  - exists evs. cbn [snd]. split; [exact H1 | lia].
  - destruct (Hh e st1) as (evs' & H1' & H2').
    exists (evs ++ evs')%list. rewrite H1', H1, app_assoc, fetches_app.
    split; [reflexivity | lia].
Qed.

Lemma sends_frame {A} (m : M A) : frame not_fetch m -> sends_at_most 0 m.
Proof.
  intros Hm st. destruct (Hm st) as (_ & evs & H1 & H2). exists evs.
  split; [exact H1 | now rewrite fetches_not_fetch].
Qed.

Lemma sends_llm_chat (messages : list Message) (options : ChatOptions) :
  sends_at_most (requests_per_call llm) (llm_chat env llm messages options).
Proof.
  intros st.
  destruct (llm_chat_requests env llm messages options st) as (evs & H1 & H2 & _).
  now exists evs.
Qed.

Lemma sends_message_of {A} (h : option string -> M A) (e : thrown) :
  (forall m, sends_at_most 0 (h m)) ->
  sends_at_most 0 (m <- message_of e ;; h m).
Proof.
  intros Hh. apply (sends_bind 0 0); [|exact Hh].
  apply sends_frame, message_of_frame.
Qed.

Lemma sends_sub_run_tools (calls : list ToolCall) (messages : list Message) :
  (forall note, frame not_fetch (progress onProgress note)) ->
  sends_at_most 0 (sub_run_tools env toolExecutor onProgress calls messages).
Proof.
  intros Hp. revert messages. induction calls as [|c cs IH]; intros messages.
  - apply sends_ret.
  - cbn [sub_run_tools].
    apply (sends_bind 0 0); [apply sends_frame, Hp | intros _].
    apply (sends_bind 0 0); [apply sends_frame, execute_not_fetch | intros result].
    apply IH.
Qed.

Lemma sends_sub_step (messages : list Message) :
  (forall note, frame not_fetch (progress onProgress note)) ->
  sends_at_most (requests_per_call llm)
    (sub_step env definition agent llm toolExecutor onProgress messages).
Proof.
  intros Hp. unfold sub_step.
  apply (sends_weaken (requests_per_call llm + 0 + 0)); [lia|].
  apply sends_try_catch.
  - apply sends_bind; [apply sends_llm_chat | intros response]. cbv zeta.
    destruct (tool_calls response) as [[|c cs]|]; try apply sends_ret.
    apply (sends_bind 0 0); [now apply sends_sub_run_tools | intros m; apply sends_ret].
  - intros e. apply sends_message_of. intros m. apply sends_ret.
Qed.

Lemma sends_summarize (messages : list Message) :
  sends_at_most (requests_per_call llm) (summarize env llm messages).
Proof.
  unfold summarize.
  apply (sends_weaken (requests_per_call llm + 0 + 0)); [lia|].
  apply sends_try_catch.
  - apply sends_bind; [apply sends_llm_chat | intros summary; apply sends_ret].
  - intros e. apply sends_message_of. intros m. apply sends_ret.
Qed.

Lemma sends_sub_loop (remaining : nat) (steps : Z) (messages : list Message) :
  (forall note, frame not_fetch (progress onProgress note)) ->
  sends_at_most ((remaining + 1) * requests_per_call llm)
    (sub_loop env definition agent llm toolExecutor onProgress
       remaining steps messages).
Proof.
  intros Hp. revert steps messages.
  induction remaining as [|r IH]; intros steps messages.
  - apply (sends_weaken (requests_per_call llm)); [lia | apply sends_summarize].
  - cbn [sub_loop].
    apply (sends_weaken (0 + (requests_per_call llm
                              + (r + 1) * requests_per_call llm))); [lia|].
    apply sends_bind; [apply sends_frame, Hp | intros _].
    apply sends_bind; [now apply sends_sub_step | intros [messages'|text]].
    + apply IH.
    + apply (sends_weaken 0); [lia | apply sends_ret].
Qed.
End SubAgentProperties.

(** X20.  [runSubAgent] never rejects: provided the progress callback
    returns, every run ends with a text, whatever the model, the network,
    the tools and the plugin handlers do (a handler that rejects with
    [undefined] included). *)
Theorem runSubAgent_returns
    (env : Env) (definition : string -> json) (agent : SubAgent)
    (llm : OpenCodeConfig) (toolExecutor : ToolExecutor)
    (onProgress : option (ProgressNote -> M unit)) (task : string) :
  (forall note, returns (progress onProgress note)) ->
  returns (runSubAgent env definition agent llm toolExecutor onProgress task).
Proof.
  intros Hp st. unfold runSubAgent. now apply sub_loop_returns.
Qed.

Lemma runSubAgent_returns_witness :
  returns (runSubAgent Sample.env_rejecting_plugin schema reader
             {| retries := None |} Sample.manual None "read it").
Proof.
  apply (runSubAgent_returns Sample.env_rejecting_plugin schema reader
           {| retries := None |} Sample.manual None "read it").
  intros note st. exists tt. reflexivity.
Defined.

(** X21.  A run of a sub-agent sends at most
    [(maxSteps + 1) * (retries + 1)] requests to the model: those of its
    steps and those of the request for a summary; the tools send none. *)
Theorem runSubAgent_request_bound
    (env : Env) (definition : string -> json) (agent : SubAgent)
    (llm : OpenCodeConfig) (toolExecutor : ToolExecutor)
    (onProgress : option (ProgressNote -> M unit)) (task : string) (st : State) :
  (forall note, frame not_fetch (progress onProgress note)) ->
  exists evs,
    trace (snd (runSubAgent env definition agent llm toolExecutor onProgress task st))
    = (trace st ++ evs)%list
    /\ fetches evs <= (Z.to_nat (sa_maxSteps agent) + 1) * requests_per_call llm.
Proof.
  intros Hp. unfold runSubAgent. now apply sends_sub_loop.
Qed.

Lemma runSubAgent_request_bound_witness :
  exists evs,
    trace (snd (runSubAgent Sample.env_always_tools schema reader
                  {| retries := None |} Sample.manual None "read it" Sample.st0))
    = evs
    /\ fetches evs <= 8.
Proof.
  apply (runSubAgent_request_bound Sample.env_always_tools schema reader
           {| retries := None |} Sample.manual None "read it" Sample.st0).
  intros note. apply frame_ret.
Defined.

Lemma progress_none_frame (P : event -> Prop) (note : ProgressNote) :
  frame P (progress None note).
Proof. apply frame_ret. Qed.

(** X22.  The tool list of a sub-agent is not enforced when a tool is
    called: it only selects the definitions sent to the model.  When the
    response of the first step carries tool calls, the first of them is
    executed, whatever its tool name; the effects of the run are those of
    the request, then those of that execution, then further ones. *)
Theorem subagent_tool_list_not_enforced
    (env : Env) (definition : string -> json) (agent : SubAgent)
    (llm : OpenCodeConfig) (toolExecutor : ToolExecutor) (task : string)
    (st st1 : State) (response : Message) (c : ToolCall) (cs : list ToolCall) :
  (1 <= sa_maxSteps agent)%Z ->
  llm_chat env llm (initial_messages env agent task st)
    (agent_options definition agent) st = (Ret response, st1) ->
  tool_calls response = Some (c :: cs) ->
  exists evs,
    trace (snd (runSubAgent env definition agent llm toolExecutor None task st))
    = (trace (snd (execute env toolExecutor c st1)) ++ evs)%list.
Proof.
  intros Hsteps Hllm Hcalls. unfold runSubAgent.
  destruct (Z.to_nat (sa_maxSteps agent)) as [|r] eqn:E; [lia|].
  cbn [sub_loop]. unfold progress at 1. unfold bind at 1, ret at 1.
  unfold bind at 1. unfold sub_step, try_catch. unfold bind at 1.
  rewrite Hllm. cbv zeta. rewrite Hcalls. cbn [sub_run_tools].
  unfold progress at 1. unfold bind at 1. unfold bind at 1, ret at 1.
  unfold bind at 1.
  destruct (execute env toolExecutor c st1) as [[result|e] st2]; cbn [snd].
  - destruct (sends_sub_run_tools env toolExecutor None cs
                (((initial_messages env agent task st) ++ [response])
                 ++ [tool_message result])%list
                (progress_none_frame not_fetch) st2) as (evs1 & H1 & _).
    destruct (sub_run_tools env toolExecutor None cs _ st2) as [[m2|e] st3];
      cbn [snd] in H1.
    + unfold ret at 1.
      destruct (sends_sub_loop env definition agent llm toolExecutor None r
                  (0 + 1)%Z m2 (progress_none_frame not_fetch) st3)
        as (evs2 & H2 & _).
      exists (evs1 ++ evs2)%list. rewrite H2, H1, app_assoc. reflexivity.
    + exists evs1. destruct e; cbn; exact H1.
  - exists []. rewrite app_nil_r. destruct e; reflexivity.
Qed.

Lemma subagent_tool_list_not_enforced_witness :
  exists evs,
    trace (snd (runSubAgent Sample.env_always_tools schema reader
                  {| retries := None |} Sample.auto None "read it" Sample.st0))
    = (trace (snd (execute Sample.env_always_tools Sample.auto Sample.call_ls
                     {| trace := [EvFetch (request_of
                                             (initial_messages Sample.env_always_tools
                                                reader "read it" Sample.st0)
                                             (agent_options schema reader))];
                        history := [] |})) ++ evs)%list.
Proof.
  apply (subagent_tool_list_not_enforced Sample.env_always_tools schema reader
           {| retries := None |} Sample.auto "read it" Sample.st0 _
           {| role := assistant; content := None;
              tool_calls := Some [Sample.call_ls];
              tool_call_id := None; name := None |} Sample.call_ls []).
  - vm_compute. discriminate.
  - vm_compute. reflexivity.
  - reflexivity.
Defined.

Lemma filter_none {A} (f : A -> bool) (l : list A) :
  (forall x, In x l -> f x = false) -> filter f l = [].
Proof.
  induction l as [|a l IH]; intros H; [reflexivity|].
  cbn [filter]. rewrite (H a) by now left.
  apply IH. intros x Hx. apply H. now right.
Qed.

(** X23.  A sub-agent that lists no tool of [TOOLS_DEFINITION] is offered
    every tool: its requests leave the tools out, and the client then sends
    the whole of [TOOLS_DEFINITION].  The request for a summary offers every
    tool for every sub-agent. *)
Theorem subagent_without_tools_is_offered_all
    (definition : string -> json) (agent : SubAgent) (messages : list Message) :
  (forall toolName, In toolName (sa_tools agent) ->
                    ~ In toolName TOOLS_DEFINITION_names) ->
  tools_sent definition (request_of messages (agent_options definition agent))
  = map definition TOOLS_DEFINITION_names
  /\ tools_sent definition (request_of messages summary_options)
     = map definition TOOLS_DEFINITION_names.
Proof.
  intros Hnone. split; [|reflexivity].
  unfold tools_sent, request_of, agent_options, getAgentTools. cbn [req_tools opt_tools].
  assert (Hf : filter (fun toolName => existsb (String.eqb toolName) (sa_tools agent))
                 TOOLS_DEFINITION_names = []).
  { apply filter_none. intros n Hin.
    destruct (existsb (String.eqb n) (sa_tools agent)) eqn:Ex; [|reflexivity].
    apply existsb_exists in Ex. destruct Ex as (x & Hx & Heq).
    apply String.eqb_eq in Heq. subst x. exfalso. exact (Hnone n Hx Hin). }
  rewrite Hf. reflexivity.
Qed.

Lemma subagent_without_tools_is_offered_all_witness :
  tools_sent schema (request_of [] (agent_options schema thinker))
  = map schema TOOLS_DEFINITION_names
  /\ tools_sent schema (request_of [] summary_options)
     = map schema TOOLS_DEFINITION_names.
Proof.
  apply (subagent_without_tools_is_offered_all schema thinker []).
  intros toolName H. destruct H.
Defined.

(* ----------------------------------------------------------------- *)
(** ** tools.ts: grepSearch *)

Section GrepSearchProperties.
Variable path_join : string -> string -> string.
Variable path_relative : string -> string -> string.
Variable workspaceRoot : string.
Variable pattern : string.
Variable regex : option (string -> bool).

Local Abbreviation searchFile' := (searchFile path_relative workspaceRoot regex).
Local Abbreviation searchDir' recursive :=
  (searchDir path_join path_relative workspaceRoot regex recursive).
Local Abbreviation search_entries' recursive :=
  (search_entries path_join path_relative workspaceRoot regex recursive
     (searchDir' recursive)).

Lemma search_lines_bound (test : string -> bool) (filePath : string)
    (lines : list string) (idx : nat) (results : list string) :
  List.length results <= maxResults ->
  List.length (search_lines path_relative workspaceRoot test filePath idx lines results)
  <= maxResults.
Proof.
  revert idx results. induction lines as [|line rest IH]; intros idx results H.
  - exact H.
  - cbn [search_lines]. apply IH.
    destruct (maxResults <=? List.length results)%nat eqn:E; [exact H|].
    destruct (test line); [|exact H].
    apply Nat.leb_gt in E. rewrite length_app. cbn. lia.
Qed.

Lemma searchFile_bound (filePath : string) (node : Node) (results : list string) :
  List.length results <= maxResults ->
  List.length (searchFile' filePath node results) <= maxResults.
Proof.
  intros H. unfold searchFile.
  destruct node; try exact H.
  destruct regex as [test|]; [now apply search_lines_bound | exact H].
Qed.

Lemma search_entries_full (recursive : bool) (dirPath : string) (entries : list (string * Node))
    (results : list string) :
  (maxResults <=? List.length results)%nat = true ->
  search_entries' recursive dirPath entries results = inl results.
Proof.
  intros H.
  destruct entries as [|entry rest]; cbn [search_entries]; [reflexivity|].
  now rewrite H.
Qed.

Lemma search_entries_cons (recursive : bool) (dirPath : string) (entry : string * Node)
    (rest : list (string * Node)) (results : list string) :
  (maxResults <=? List.length results)%nat = false ->
  search_entries' recursive dirPath (entry :: rest) results
  = if skipped (fst entry) then search_entries' recursive dirPath rest results
    else
      match snd entry with
      | Dir _ | DirError _ =>
          if recursive then
            match searchDir' recursive (path_join dirPath (fst entry)) (snd entry) results with
            | inl results' => search_entries' recursive dirPath rest results'
            | inr e => inr e
            end
          else search_entries' recursive dirPath rest results
      | File _ | FileError =>
          search_entries' recursive dirPath rest
            (searchFile' (path_join dirPath (fst entry)) (snd entry) results)
      | Other => search_entries' recursive dirPath rest results
      end.
Proof.
  intros H. cbn [search_entries]. now rewrite H.
Qed.

Lemma searchDir_Dir (recursive : bool) (dirPath : string) (entries : list (string * Node))
    (results : list string) :
  searchDir' recursive dirPath (Dir entries) results = search_entries' recursive dirPath entries results.
Proof. reflexivity. Qed.

Lemma searchDir_bound (recursive : bool) (node : Node) :
  forall dirPath results,
    List.length results <= maxResults ->
    bounded (searchDir' recursive dirPath node results).
Proof.
  induction node as [content| |entries IH|e|] using Node_nested_ind;
    intros dirPath results H; try exact H; try exact I.
  rewrite searchDir_Dir. revert results H.
  induction IH as [|entry rest Hentry _ IHrest]; intros results H; [exact H|].
  destruct (maxResults <=? List.length results)%nat eqn:E.
  - rewrite search_entries_full by exact E. exact H.
  - rewrite search_entries_cons by exact E.
    destruct (skipped (fst entry)); [now apply IHrest|].
    destruct (snd entry) as [content| |entries'|e|] eqn:Es.
    + apply IHrest. rewrite <- Es. now apply searchFile_bound.
    + apply IHrest. rewrite <- Es. now apply searchFile_bound.
    + destruct recursive; [|now apply IHrest].
      specialize (Hentry (path_join dirPath (fst entry)) results H).
      destruct (searchDir _ _ _ _ _ _ (Dir entries') results) as [results'|e];
        [now apply IHrest | exact I].
    + destruct recursive; [|now apply IHrest].
      specialize (Hentry (path_join dirPath (fst entry)) results H).
      destruct (searchDir _ _ _ _ _ _ (DirError e) results) as [results'|e'];
        [now apply IHrest | exact I].
    + now apply IHrest.
Qed.

Lemma grep_collect_bound (recursive : bool) (fullPath : string) (stat : Node + ErrorObject) :
  bounded (grep_collect path_join path_relative workspaceRoot regex recursive
             fullPath stat).
Proof.
  unfold grep_collect. destruct stat as [node|e]; [|exact I].
  assert (H0 : @List.length string [] <= maxResults) by (cbn; lia).
  destruct node; cbn [bounded];
    try (apply (searchFile_bound fullPath _ [] H0));
    try (apply (searchDir_bound _ _ fullPath [] H0)).
  cbn. lia.
Qed.

Lemma searchDir_visible (recursive : bool) (node : Node) :
  forall dirPath results,
    searchDir' recursive dirPath (visible recursive node) results
    = searchDir' recursive dirPath node results.
Proof.
  induction node as [content| |entries IH|e|] using Node_nested_ind;
    intros dirPath results; try reflexivity.
  cbn [visible]. rewrite !searchDir_Dir. revert results.
  induction IH as [|entry rest Hentry _ IHrest]; intros results; [reflexivity|].
  cbn [keep_entries].
  destruct (maxResults <=? List.length results)%nat eqn:E.
  { now rewrite !search_entries_full by exact E. }
  rewrite (search_entries_cons recursive dirPath entry rest results E).
  unfold looked_at.
  destruct (skipped (fst entry)) eqn:Es; cbn [negb andb]; [apply IHrest|].
  destruct (snd entry) as [content| |entries'|e|] eqn:En.
  - rewrite search_entries_cons by exact E. cbn [fst snd visible].
    rewrite Es. apply IHrest.
  - rewrite search_entries_cons by exact E. cbn [fst snd visible].
    rewrite Es. apply IHrest.
  - destruct recursive eqn:Er; [|apply IHrest].
    rewrite search_entries_cons by exact E. cbn [fst snd].
    rewrite Es. specialize (Hentry (path_join dirPath (fst entry)) results).
    cbn [visible] in Hentry |- *. rewrite Hentry.
    destruct (searchDir _ _ _ _ _ _ (Dir entries') results); [apply IHrest | reflexivity].
  - destruct recursive eqn:Er; [|apply IHrest].
    rewrite search_entries_cons by exact E. cbn [fst snd visible].
    rewrite Es.
    destruct (searchDir _ _ _ _ _ _ (DirError e) results); [apply IHrest | reflexivity].
  - apply IHrest.
Qed.
End GrepSearchProperties.

Lemma search_entries_no_regex
    (path_join path_relative : string -> string -> string) (workspaceRoot : string)
    (recursive : bool) (node : Node) :
  forall dirPath results,
    adds_nothing results
      (searchDir path_join path_relative workspaceRoot None recursive
         dirPath node results).
Proof.
  induction node as [content| |entries IH|e|] using Node_nested_ind;
    intros dirPath results; try reflexivity; try exact I.
  rewrite searchDir_Dir. revert results.
  induction IH as [|entry rest Hentry _ IHrest]; intros results; [reflexivity|].
  destruct (maxResults <=? List.length results)%nat eqn:E.
  - now rewrite search_entries_full by exact E.
  - rewrite search_entries_cons by exact E.
    destruct (skipped (fst entry)); [apply IHrest|].
    destruct (snd entry) as [content| |entries'|e|] eqn:Es;
      try apply IHrest.
    + destruct recursive; [|apply IHrest].
      specialize (Hentry (path_join dirPath (fst entry)) results).
      destruct (searchDir _ _ _ _ _ _ (Dir entries') results) as [results'|e];
        [|exact I].
      cbn [adds_nothing] in Hentry. subst results'. apply IHrest.
    + destruct recursive; [|apply IHrest].
      destruct (searchDir _ _ _ _ _ _ (DirError e) results) as [results'|e'] eqn:Ed;
        [discriminate Ed | exact I].
Qed.

(** X24.  A search returns at most 50 result lines, and the text says that
    the results are limited exactly when there are 50 of them. *)
Theorem grepSearch_result_limit
    (path_join path_relative : string -> string -> string)
    (workspaceRoot pattern : string) (regex : option (string -> bool))
    (recursive : bool) (fullPath : string) (stat : Node + ErrorObject) :
  let text := grepSearch path_join path_relative workspaceRoot pattern regex
                recursive fullPath stat in
  match grep_collect path_join path_relative workspaceRoot regex recursive
          fullPath stat with
  | inl results =>
      List.length results <= 50
      /\ text = (if (List.length results =? 0)%nat
                 then "No matches found for " ++ dquote ++ pattern ++ dquote
                 else join_with newline results
                      ++ (if (List.length results =? 50)%nat then limit_notice
                          else EmptyString))
  | inr e => text = "Error: " ++ show (e_message e)
  end.
Proof.
  cbv zeta. unfold grepSearch.
  pose proof (grep_collect_bound path_join path_relative workspaceRoot regex
                recursive fullPath stat) as Hb.
  destruct (grep_collect _ _ _ _ _ _ _) as [results|e]; [|reflexivity].
  cbn [bounded] in Hb. unfold maxResults in *. split; [exact Hb|].
  destruct (List.length results =? 0)%nat; [reflexivity|].
  destruct (50 <=? List.length results)%nat eqn:E1;
    destruct (List.length results =? 50)%nat eqn:E2; try reflexivity.
  - apply Nat.leb_le in E1. apply Nat.eqb_neq in E2. lia.
  - apply Nat.leb_gt in E1. apply Nat.eqb_eq in E2. lia.
Qed.

Lemma grepSearch_visible
    (path_join path_relative : string -> string -> string)
    (workspaceRoot pattern : string) (regex : option (string -> bool))
    (recursive : bool) (fullPath : string) (node : Node) :
  grepSearch path_join path_relative workspaceRoot pattern regex recursive
    fullPath (inl (visible recursive node))
  = grepSearch path_join path_relative workspaceRoot pattern regex recursive
      fullPath (inl node).
Proof.
  unfold grepSearch, grep_collect.
  destruct node as [content| |entries|e|]; try reflexivity.
  change (visible recursive (Dir entries))
    with (Dir (keep_entries recursive (visible recursive) entries)).
  pose proof (searchDir_visible path_join path_relative workspaceRoot regex
                recursive (Dir entries) fullPath []) as H.
  cbn [visible] in H. rewrite H. reflexivity.
Qed.

(** X25.  A search never looks into entries named [node_modules] or
    [dist], entries whose name starts with a dot, entries that are neither
    file nor directory and, unless it is recursive, subdirectories: the
    result is the result for the tree without them, whatever they hold, be
    it matches or directories that cannot be read. *)
Theorem grepSearch_skips_entries
    (path_join path_relative : string -> string -> string)
    (workspaceRoot pattern : string) (regex : option (string -> bool))
    (recursive : bool) (fullPath : string) (node : Node) :
  grepSearch path_join path_relative workspaceRoot pattern regex recursive
    fullPath (inl (visible recursive node))
  = grepSearch path_join path_relative workspaceRoot pattern regex recursive
      fullPath (inl node).
Proof.
  unfold grepSearch, grep_collect.
  destruct node as [content| |entries|e|]; try reflexivity.
  change (visible recursive (Dir entries))
    with (Dir (keep_entries recursive (visible recursive) entries)).
  pose proof (searchDir_visible path_join path_relative workspaceRoot regex
                recursive (Dir entries) fullPath []) as H.
  cbn [visible] in H. rewrite H. reflexivity.
Qed.

Lemma searchDir_error
    (path_join path_relative : string -> string -> string) (workspaceRoot : string)
    (regex : option (string -> bool)) (recursive : bool) (node : Node) :
  forall dirPath results e,
    searchDir path_join path_relative workspaceRoot regex recursive
      dirPath node results = inr e ->
    In e (dir_errors node).
Proof.
  induction node as [content| |entries IH|e0|] using Node_nested_ind;
    intros dirPath results e; try discriminate.
  - rewrite searchDir_Dir. revert results.
    induction IH as [|entry rest Hentry _ IHrest]; intros results H;
      [discriminate H|].
    cbn [dir_errors flat_map]. apply in_or_app.
    destruct (maxResults <=? List.length results)%nat eqn:E.
    { rewrite search_entries_full in H by exact E. discriminate H. }
    rewrite search_entries_cons in H by exact E.
    destruct (skipped (fst entry)); [right; exact (IHrest _ H)|].
    destruct (snd entry) as [content| |entries'|e1|] eqn:Es;
      try (right; exact (IHrest _ H)).
    + destruct recursive; [|right; exact (IHrest _ H)].
      destruct (searchDir _ _ _ _ _ _ (Dir entries') results) as [results'|e'] eqn:Ed.
      * right. exact (IHrest _ H).
      * left. injection H as <-. exact (Hentry _ _ _ Ed).
    + destruct recursive; [|right; exact (IHrest _ H)].
      destruct (searchDir _ _ _ _ _ _ (DirError e1) results) as [results'|e'] eqn:Ed.
      * right. exact (IHrest _ H).
      * left. injection H as <-. exact (Hentry _ _ _ Ed).
  - cbn. intros H. injection H as <-. now left.
Qed.

(** X26.  A pattern that is not a regular expression is not reported as
    such.  When [stat] fails the search answers with that error.  Otherwise
    it answers that no matches were found, unless a directory that the
    search looks into cannot be read: then it may answer with the error of
    such a directory, and with nothing else.  For a tree whose directories
    can all be read the answer is that no matches were found. *)
Theorem grepSearch_invalid_pattern
    (path_join path_relative : string -> string -> string)
    (workspaceRoot pattern : string) (recursive : bool)
    (fullPath : string) (stat : Node + ErrorObject) :
  let text := grepSearch path_join path_relative workspaceRoot pattern None
                recursive fullPath stat in
  let no_matches := "No matches found for " ++ dquote ++ pattern ++ dquote in
  match stat with
  | inr e => text = "Error: " ++ show (e_message e)
  | inl node =>
      (dir_errors (visible recursive node) = [] -> text = no_matches)
      /\ (text = no_matches
          \/ exists e, In e (dir_errors (visible recursive node))
                       /\ text = "Error: " ++ show (e_message e))
  end.
Proof.
  cbv zeta. destruct stat as [node|e]; [|reflexivity].
  assert (H : grepSearch path_join path_relative workspaceRoot pattern None
                recursive fullPath (inl node)
              = "No matches found for " ++ dquote ++ pattern ++ dquote
              \/ exists e, In e (dir_errors (visible recursive node))
                           /\ grepSearch path_join path_relative workspaceRoot pattern
                                None recursive fullPath (inl node)
                              = "Error: " ++ show (e_message e)).
  { rewrite <- (grepSearch_visible path_join path_relative workspaceRoot pattern None
                  recursive fullPath node).
    unfold grepSearch, grep_collect.
    destruct (visible recursive node) as [content| |entries|e|] eqn:Ev;
      try (left; reflexivity).
    - pose proof (search_entries_no_regex path_join path_relative workspaceRoot
                    recursive (Dir entries) fullPath []) as Hn.
      pose proof (searchDir_error path_join path_relative workspaceRoot None
                    recursive (Dir entries) fullPath []) as He.
      destruct (searchDir _ _ _ _ _ _ (Dir entries) []) as [results|e].
      + cbn [adds_nothing] in Hn. subst results. left. reflexivity.
      + right. exists e. split; [now apply He | reflexivity].
    - right. exists e. split; [now left | reflexivity]. }
  split; [|exact H].
  intros Hnone. destruct H as [H|(e & Hin & _)]; [exact H|].
  rewrite Hnone in Hin. destruct Hin.
Qed.

(** The search on the sample tree: the hidden directory, which cannot be
    read, and [node_modules] are passed over. *)
Example grepSearch_sample :
  grepSearch slash_join below_w "/w" "let" (Some test_let) true "/w" (inl sample_tree)
  = "a.ts:1: let x = 1;" ++ newline ++ "a.ts:2: let y = x;" ++ newline
    ++ "sub/b.ts:1: let w;".
Proof. vm_compute. reflexivity. Qed.

(* ----------------------------------------------------------------- *)
(** ** agents.ts: a sub-agent that uses up its steps *)




